(** * Sentinel: the lexical analysis core of the embedded LSP server

    A shallow embedding of the comment stripper, the pin tracker, the
    diagnostic rule engine and the memory analyzer, of the I2C helpers of
    the hardware database and of the word lookup of the hover provider,
    with the properties stated for them.

    Source text is a JavaScript string.  It is modelled as a list of
    characters ([list ascii]); every test the sources make on a character
    compares it with an ASCII character or a character class, so code units
    outside this range behave like any other ordinary character.  An index
    [i] into an immutable string is carried as the suffix that starts at
    [i]: [code[i]] is the head of the suffix, [code[i + 1]] the head of its
    tail, and [i < code.length] says that the suffix is not empty. *)

From Stdlib Require Import ZArith NArith Lia List Ascii String Bool.
From stdpp Require Import base list strings gmap.

Open Scope list_scope.
Open Scope nat_scope.

(** ** Characters and text *)

Definition text := list ascii.

Definition txt (s : string) : text := list_ascii_of_string s.
Arguments txt s%_string.

Definition dquote : ascii := "034".
Definition squote : ascii := "039".
Definition backslash : ascii := "\".
Definition newline : ascii := "010".
Definition space : ascii := " ".
Definition slash : ascii := "/".
Definition star : ascii := "*".

(** [c === d] of the sources, on two characters. *)
Definition ceq (c d : ascii) : bool := Ascii.eqb c d.

(** [code[i] === d] where [code[i]] may be [undefined] (past the end). *)
Definition at_is (d : ascii) (code : text) : bool :=
  match code with
  | c :: _ => ceq c d
  | [] => false
  end.

(** ** comment-stripper.js *)

Module CommentStripper.

(** [strip]: the main loop at index [i] (the suffix [code]) with the flags
    [inString] and [inChar]; [strip_block] and [strip_line] are the two inner
    [while] loops, entered after the two characters of the opening delimiter
    have been skipped, and returning to the main loop when they end.  The
    value is what is appended to [result] from there on. *)
Fixpoint strip_loop (inString inChar : bool) (code : text) {struct code} : text :=
  match code with
  | [] => []
  | char :: rest =>
    if (inString || inChar) && ceq char backslash then
      (* result += char + (next || ''); i += 2 *)
      match rest with
      | [] => [char]
      | next :: rest' => char :: next :: strip_loop inString inChar rest'
      end
    else if negb inChar && ceq char dquote then
      char :: strip_loop (negb inString) inChar rest
    else if negb inString && ceq char squote then
      char :: strip_loop inString (negb inChar) rest
    else if inString || inChar then
      char :: strip_loop inString inChar rest
    else
      match rest with
      | next :: rest' =>
        if ceq char slash && ceq next star then
          (* result += ' '; i += 2 *)
          space :: strip_block rest'
        else if ceq char slash && ceq next slash then
          (* result += ' '; i += 2 *)
          space :: strip_line rest'
        else char :: strip_loop inString inChar rest
      | [] => char :: strip_loop inString inChar rest
      end
  end
with strip_block (code : text) {struct code} : text :=
  match code with
  | [] => []
  | c :: rest =>
    (if ceq c newline then newline else space) ::
    match rest with
    | c' :: rest' =>
      if ceq c star && ceq c' slash then
        (* result += ' '; i += 2; break *)
        space :: strip_loop false false rest'
      else strip_block rest
    | [] => strip_block rest
    end
  end
with strip_line (code : text) {struct code} : text :=
  match code with
  | [] => []
  | c :: rest =>
    if ceq c newline then newline :: strip_loop false false rest
    else space :: strip_line rest
  end.

Definition strip (code : text) : text := strip_loop false false code.

(** [isInComment]: the main loop with [n = position - i] (the loop runs
    while [i < position], that is while [n] is positive).  Past the end of
    the text [code[i]] is [undefined], every test fails and [i] only
    advances, so the loop ends with [false].  In [inBlock] and [inLine],
    [n = position - commentStart] and [k = i - commentStart]; the test
    [position >= commentStart] holds because the loop body runs only when
    [i < position]. *)
Fixpoint isInComment_loop (inString inChar : bool) (code : text) (n : nat)
    {struct code} : bool :=
  match n with
  | O => false
  | S _ =>
    match code with
    | [] => false
    | char :: rest =>
      if (inString || inChar) && ceq char backslash then
        match rest with
        | [] => false
        | _ :: rest' => isInComment_loop inString inChar rest' (n - 2)
        end
      else if negb inChar && ceq char dquote then
        isInComment_loop (negb inString) inChar rest (n - 1)
      else if negb inString && ceq char squote then
        isInComment_loop inString (negb inChar) rest (n - 1)
      else if inString || inChar then
        isInComment_loop inString inChar rest (n - 1)
      else
        match rest with
        | next :: rest' =>
          if ceq char slash && ceq next star then inBlock rest' n 2
          else if ceq char slash && ceq next slash then inLine rest' n 2
          else isInComment_loop inString inChar rest (n - 1)
        | [] => isInComment_loop inString inChar rest (n - 1)
        end
    end
  end
with inBlock (code : text) (n k : nat) {struct code} : bool :=
  match code with
  | [] => n <? k
  | c :: rest =>
    match rest with
    | c' :: rest' =>
      if ceq c star && ceq c' slash then
        (* i += 2; break *)
        if n <? k + 2 then true
        else isInComment_loop false false rest' (n - (k + 2))
      else inBlock rest n (k + 1)
    | [] => inBlock rest n (k + 1)
    end
  end
with inLine (code : text) (n k : nat) {struct code} : bool :=
  match code with
  | [] => n <? k
  | c :: rest =>
    if ceq c newline then
      if n <? k then true
      else isInComment_loop false false rest (n - (k + 1))  (* skip newline *)
    else inLine rest n (k + 1)
  end.

Definition isInComment (code : text) (position : nat) : bool :=
  isInComment_loop false false code position.

End CommentStripper.

(** ** Regular expressions

    The sources scan text with JavaScript regular expressions.  [re] is
    their syntax and [run] a backtracking matcher with the priorities of
    the language: the left alternative first, a greedy quantifier tries one
    more turn before it stops and a lazy one stops before it tries, and an
    empty turn of a quantifier is refused.  A position in the text is the
    suffix that starts there together with the character before it, which
    [^] and [\b] look at. *)

Module Regex.

Inductive re :=
  | Chr (p : ascii -> bool)          (* a character or a class *)
  | Eps
  | Seq (r1 r2 : re)
  | Alt (r1 r2 : re)
  | Star (greedy : bool) (r : re)    (* [r*] and [r*?] *)
  | Group (i : nat) (r : re)         (* the capture group number [i] *)
  | Bol                              (* [^] with the flag [m] *)
  | Eol                              (* [$] with the flag [m] *)
  | WordB.                           (* [\b] *)

Definition Plus (r : re) : re := Seq r (Star true r).
Definition Opt (r : re) : re := Alt r Eps.

(** The characters of a literal, one after the other. *)
Fixpoint Lit (l : text) : re :=
  match l with
  | [] => Eps
  | c :: l' => Seq (Chr (ceq c)) (Lit l')
  end.

(** Character classes.  [\s] is given on the code units below 256: tab,
    line feed, vertical tab, form feed, carriage return, space and the
    no-break space. *)
Definition is_digit (c : ascii) : bool :=
  let n := nat_of_ascii c in (48 <=? n) && (n <=? 57).
Definition is_upper (c : ascii) : bool :=
  let n := nat_of_ascii c in (65 <=? n) && (n <=? 90).
Definition is_lower (c : ascii) : bool :=
  let n := nat_of_ascii c in (97 <=? n) && (n <=? 122).
Definition is_word (c : ascii) : bool :=
  is_digit c || is_upper c || is_lower c || ceq c "_".
Definition is_space (c : ascii) : bool :=
  let n := nat_of_ascii c in
  ((9 <=? n) && (n <=? 13)) || (n =? 32) || (n =? 160).
Definition is_hex (c : ascii) : bool :=
  let n := nat_of_ascii c in
  is_digit c || ((65 <=? n) && (n <=? 70)) || ((97 <=? n) && (n <=? 102)).
Definition is_line_terminator (c : ascii) : bool :=
  ceq c "010" || ceq c "013".
(** [.]: any character but a line terminator. *)
Definition is_dot (c : ascii) : bool := negb (is_line_terminator c).

Definition captures := list (nat * text).

Definition capture (caps : captures) (i : nat) : option text :=
  snd <$> List.find (fun e => fst e =? i) caps.

Definition is_word_opt (c : option ascii) : bool :=
  match c with Some c => is_word c | None => false end.

(** The turns of a quantifier whose body is matched by [body]: at most [n]
    of them, each going over at least one character. *)
Definition star_turns {R : Type} (greedy : bool)
    (body : option ascii -> text -> captures ->
            (option ascii -> text -> captures -> option R) -> option R)
    (k : option ascii -> text -> captures -> option R)
    : nat -> option ascii -> text -> captures -> option R :=
  fix turns (n : nat) (prev : option ascii) (s : text) (caps : captures)
      {struct n} : option R :=
    match n with
    | O => k prev s caps
    | S n' =>
      let again :=
        body prev s caps (fun prev' s' caps' =>
          if length s' <? length s then turns n' prev' s' caps' else None) in
      if greedy then
        match again with
        | Some x => Some x
        | None => k prev s caps
        end
      else
        match k prev s caps with
        | Some x => Some x
        | None => again
        end
    end.

(** [run r prev s caps k]: match [r] at the position ([prev], [s]) with the
    captures [caps] and go on with [k]; [None] is failure, which makes the
    caller try its next choice.  A quantifier has as many turns as the text
    has characters left, which is enough since no turn is empty. *)
Fixpoint run {R : Type} (r : re) (prev : option ascii) (s : text) (caps : captures)
    (k : option ascii -> text -> captures -> option R) {struct r} : option R :=
  match r with
  | Chr p =>
    match s with
    | c :: s' => if p c then k (Some c) s' caps else None
    | [] => None
    end
  | Eps => k prev s caps
  | Seq r1 r2 =>
    run r1 prev s caps (fun prev' s' caps' => run r2 prev' s' caps' k)
  | Alt r1 r2 =>
    match run r1 prev s caps k with
    | Some x => Some x
    | None => run r2 prev s caps k
    end
  | Star greedy r1 => star_turns greedy (run r1) k (length s) prev s caps
  | Group i r1 =>
    run r1 prev s caps (fun prev' s' caps' =>
      k prev' s' ((i, take (length s - length s') s) :: caps'))
  | Bol =>
    match prev with
    | None => k prev s caps
    | Some c => if is_line_terminator c then k prev s caps else None
    end
  | Eol =>
    match s with
    | [] => k prev s caps
    | c :: _ => if is_line_terminator c then k prev s caps else None
    end
  | WordB =>
    if xorb (is_word_opt prev) (is_word_opt (head s)) then k prev s caps else None
  end.

(** A match: where it starts, the matched text ([match[0]]), the captures,
    and the position after it. *)
Record Match := {
  index : nat;
  matched : text;
  groups : captures;
  after_prev : option ascii;
  after : text
}.

Definition group (m : Match) (i : nat) : option text := capture (groups m) i.

(** A match that starts exactly at the position ([prev], [s]) of index [i]. *)
Definition match_here (r : re) (i : nat) (prev : option ascii) (s : text) : option Match :=
  run r prev s [] (fun prev' s' caps' =>
    Some {| index := i; matched := take (length s - length s') s;
            groups := caps'; after_prev := prev'; after := s' |}).

(** The first match at or after the position: the start moves forward one
    character at a time, up to and including the end of the text. *)
Fixpoint search (r : re) (i : nat) (prev : option ascii) (s : text) : option Match :=
  match match_here r i prev s with
  | Some m => Some m
  | None =>
    match s with
    | [] => None
    | c :: s' => search r (S i) (Some c) s'
    end
  end.

(** [re.exec(text)] on a regular expression without the flag [g], and
    [text.match(re)]: the first match from the start of the text. *)
Definition exec (r : re) (t : text) : option Match := search r 0 None t.

(** [re.test(text)]. *)
Definition test (r : re) (t : text) : bool :=
  match exec r t with Some _ => true | None => false end.

(** The matches that [while ((match = re.exec(text)) !== null)] goes
    through for a regular expression with the flag [g]: each search starts
    at [lastIndex], the end of the match before.  No pattern of the sources
    can match the empty string; the loop of the source would not advance on
    an empty match, and the sequence stops there.  [n] bounds the number of
    matches. *)
Fixpoint exec_from (n : nat) (r : re) (i : nat) (prev : option ascii) (s : text)
    : list Match :=
  match n with
  | O => []
  | S n' =>
    match search r i prev s with
    | None => []
    | Some m =>
      if length (matched m) =? 0 then [m]
      else m :: exec_from n' r (index m + length (matched m)) (after_prev m) (after m)
    end
  end.

Definition exec_all (r : re) (t : text) : list Match :=
  exec_from (S (length t)) r 0 None t.

(** [text.indexOf(needle)]. *)
Fixpoint starts_with (needle s : text) : bool :=
  match needle, s with
  | [], _ => true
  | c :: needle', d :: s' => ceq c d && starts_with needle' s'
  | _ :: _, [] => false
  end.

Fixpoint indexOf_from (needle : text) (i : nat) (s : text) : option nat :=
  if starts_with needle s then Some i
  else match s with
       | [] => None
       | _ :: s' => indexOf_from needle (S i) s'
       end.

Definition indexOf (t needle : text) : option nat := indexOf_from needle 0 t.

(** [text.includes(needle)]. *)
Definition str_includes (t needle : text) : bool :=
  match indexOf t needle with Some _ => true | None => false end.

End Regex.

(** ** pin-tracker.js *)

Module PinTracker.

(** The [type] strings that [analyzePinUsage] gives to a usage. *)
Inductive UsageType :=
  | digital_output | digital_input | pwm | analog_input | interrupt
  | i2c_sda | i2c_scl | spi_ss | spi_mosi | spi_miso | spi_sck
  | serial_rx | serial_tx.

#[global] Instance UsageType_eq_dec : EqDecision UsageType.
Proof. solve_decision. Defined.

(** A usage object; [function] is the name of the construct it comes from. *)
Record Usage := {
  pin : Z;
  type : UsageType;
  function : string;
  line : nat;
  offset : nat
}.

Inductive Status := valid | warning | conflict.

#[global] Instance Status_eq_dec : EqDecision Status.
Proof. solve_decision. Defined.

(** The four message templates of [detectConflicts], each with its pin, and
    the empty message. *)
Inductive Message :=
  | no_message
  | both_input_and_output (pin : Z)
  | interrupt_and_digitalWrite (pin : Z)
  | protocol_and_digital (pin : Z)
  | serial_and_digital (pin : Z).

(** [getPinLabel]: an entry of the table of labels, or the generic label
    with the pin number. *)
Inductive PinLabel :=
  | label (s : string)
  | generic_label (pin : Z).

Definition getPinLabel (pin : Z) : PinLabel :=
  match pin with
  | 0 => label "D0 (RX)"
  | 1 => label "D1 (TX)"
  | 2 => label "D2"
  | 3 => label "D3 (PWM)"
  | 4 => label "D4"
  | 5 => label "D5 (PWM)"
  | 6 => label "D6 (PWM)"
  | 7 => label "D7"
  | 8 => label "D8"
  | 9 => label "D9 (PWM)"
  | 10 => label "D10 (PWM/SS)"
  | 11 => label "D11 (PWM/MOSI)"
  | 12 => label "D12 (MISO)"
  | 13 => label "D13 (SCK)"
  | 14 => label "A0"
  | 15 => label "A1"
  | 16 => label "A2"
  | 17 => label "A3"
  | 18 => label "A4 (SDA)"
  | 19 => label "A5 (SCL)"
  | _ => generic_label pin
  end%Z.

Record PinRecord := {
  rec_pin : Z;
  usages : list Usage;
  status : Status;
  message : Message;
  primaryType : option UsageType;
  pinLabel : PinLabel
}.

(** [this.pinMap]: a JavaScript [Map] from pin number to the array of its
    usages.  A [Map] iterates in the order in which its keys were first
    set, so it is an association list with distinct keys. *)
Definition PinMap := list (Z * list Usage).

Definition has (m : PinMap) (p : Z) : bool :=
  existsb (fun e => Z.eqb (fst e) p) m.

(** [this.pinMap.set(p, [])] for a key that is not in the map. *)
Definition set_empty (m : PinMap) (p : Z) : PinMap := m ++ [(p, [])].

(** [this.pinMap.get(p).push(u)]: the array stored under [p] grows in place. *)
Fixpoint get_push (m : PinMap) (p : Z) (u : Usage) : PinMap :=
  match m with
  | [] => []
  | (k, us) :: m' =>
    if Z.eqb k p then (k, us ++ [u]) :: m' else (k, us) :: get_push m' p u
  end.

(** One turn of the loop of [buildPinMap]. *)
Definition add_usage (m : PinMap) (u : Usage) : PinMap :=
  let m := if negb (has m (pin u)) then set_empty m (pin u) else m in
  get_push m (pin u) u.

(** [types.includes(t)]. *)
Definition includes (types : list UsageType) (t : UsageType) : bool :=
  existsb (fun t' => bool_decide (t' = t)) types.

(** The body of the loop of [detectConflicts] for one entry.  The four
    checks are consecutive [if] statements, each assigning [status] and
    [message]. *)
Definition annotate (p : Z) (us : list Usage) : PinRecord :=
  let types := map type us in
  let sm := (valid, no_message) in
  let sm :=
    if 1 <? length us then
      let hasOutput := includes types digital_output || includes types pwm in
      let hasInput := includes types digital_input || includes types analog_input in
      let sm :=
        if hasOutput && hasInput then (conflict, both_input_and_output p) else sm in
      let sm :=
        if includes types interrupt && includes types digital_output
        then (conflict, interrupt_and_digitalWrite p) else sm in
      let sm :=
        if (includes types i2c_sda || includes types i2c_scl ||
            includes types spi_ss || includes types spi_mosi ||
            includes types spi_miso || includes types spi_sck) &&
           (includes types digital_output || includes types digital_input)
        then (conflict, protocol_and_digital p) else sm in
      let sm :=
        if (includes types serial_rx || includes types serial_tx) &&
           (includes types digital_output || includes types digital_input)
        then (warning, serial_and_digital p) else sm in
      sm
    else sm in
  {| rec_pin := p;
     usages := us;
     status := fst sm;
     message := snd sm;
     primaryType := head types;
     pinLabel := getPinLabel p |}.

Definition detectConflicts (m : PinMap) : list PinRecord :=
  map (fun e => annotate (fst e) (snd e)) m.

(** [buildPinMap]: the map is cleared, filled from the usages in order, and
    annotated. *)
Definition fill (usages : list Usage) : PinMap :=
  fold_left add_usage usages [].

Definition buildPinMap (usages : list Usage) : list PinRecord :=
  detectConflicts (fill usages).

End PinTracker.

(** ** JavaScript numbers read from text

    [parseInt] gives a number or [NaN]; [None] is [NaN].  The numbers are
    exact naturals (the source computes with floating-point numbers, which
    are exact below 2^53). *)

Module Js.
Import Regex.

Definition digit_value (c : ascii) : option N :=
  let n := N_of_ascii c in
  if is_digit c then Some (n - 48)%N
  else if is_hex c then
    if is_upper c then Some (n - 55)%N else Some (n - 87)%N
  else None.

(** The digits of radix [radix] at the start of [s], as a number. *)
Fixpoint digits (radix : N) (acc : option N) (s : text) : option N :=
  match s with
  | [] => acc
  | c :: s' =>
    match digit_value c with
    | Some d =>
      if (d <? radix)%N
      then digits radix (Some (default 0%N acc * radix + d)%N) s'
      else acc
    | None => acc
    end
  end.

(** [parseInt(s, 16)] on text without leading space or sign. *)
Definition parseInt16 (s : text) : option N :=
  match s with
  | "0"%char :: x :: s' =>
    if ceq x "x" || ceq x "X" then digits 16 None s' else digits 16 None s
  | _ => digits 16 None s
  end.

(** [parseInt(s)] on text without leading space or sign: the prefix [0x]
    selects radix 16.  The value is the integer that the digits write;
    the validators compare it and print it, and the number that arithmetic
    goes on with is its rounding, [JsNumber.parseInt] below. *)
Definition parseInt (s : text) : option N :=
  match s with
  | "0"%char :: x :: s' =>
    if ceq x "x" || ceq x "X" then digits 16 None s' else digits 10 None s
  | _ => digits 10 None s
  end.

End Js.

(** ** Numbers

    A JavaScript number is a double.  The numbers that the sources compute
    from digits, sizes and counts are not negative and have no fraction:
    they are modelled as [NaN], [Infinity] or a natural number, and every
    operation rounds its exact result to the nearest double, to the even
    one of two that are equally near (53 bits are kept), and gives
    [Infinity] from [2 ^ 1024] on. *)

Module JsNumber.

Inductive number :=
  | NaN
  | Infinity
  | Finite (n : N).

(** The distance between the doubles around [n]: 1 below [2 ^ 53]. *)
Definition ulp (n : N) : N := (2 ^ (N.log2 n - 52))%N.

(** The multiple of [u] that is nearest to [q * u + r], for [r < u]. *)
Definition round_at (u q r : N) : N :=
  if (2 * r <? u)%N then (q * u)%N
  else if (u <? 2 * r)%N then ((q + 1) * u)%N
  else if N.even q then (q * u)%N else ((q + 1) * u)%N.

Definition round (n : N) : N :=
  let u := ulp n in round_at u (n / u) (n mod u).

(** The number for an exact value. *)
Definition of_N (n : N) : number :=
  let m := round n in
  if (2 ^ 1024 <=? m)%N then Infinity else Finite m.

(** [a + b] *)
Definition add (a b : number) : number :=
  match a, b with
  | NaN, _ | _, NaN => NaN
  | Infinity, _ | _, Infinity => Infinity
  | Finite x, Finite y => of_N (x + y)
  end.

(** [a * b]: zero times [Infinity] is [NaN]. *)
Definition mul (a b : number) : number :=
  match a, b with
  | NaN, _ | _, NaN => NaN
  | Infinity, Finite 0 | Finite 0, Infinity => NaN
  | Infinity, _ | _, Infinity => Infinity
  | Finite x, Finite y => of_N (x * y)
  end.

(** [a < b]: false when one of them is [NaN]. *)
Definition ltb (a b : number) : bool :=
  match a, b with
  | Finite x, Finite y => (x <? y)%N
  | Finite _, Infinity => true
  | _, _ => false
  end.

(** [parseInt(s)] as the number that it returns: the double nearest to the
    integer that the digits write (so Node computes it; past 20 digits
    the language leaves the last digits to the engine). *)
Definition parseInt (s : text) : number :=
  match Js.parseInt s with
  | Some n => of_N n
  | None => NaN
  end.

End JsNumber.

(** ** diagnostic-provider.js *)

Module Diagnostics.
Import Regex.

Record Position := { line : nat; character : nat }.
Record Range := { range_start : Position; range_end : Position }.

Inductive DiagnosticSeverity := Error | Warning | Information | Hint.

(** The messages of the validators below; those that print a number carry
    it. *)
Inductive Message :=
  | message_text (s : string)
  | address_reserved (address : N)
  | address_reserved_10bit (address : N)
  | address_out_of_range (address : N)
  | address_used_multiple_times (address : N)
  | pin_without_pwm (pin : N)
  | pwm_value_exceeds (value : N)
  | pin_without_interrupt (pin : N) (available : list N)
  | address_outside_valid_range (address : N)
  | address_is_reserved (address : N)
  | address_commonly_used_by (address : N) (device : string).

Record Diagnostic := {
  severity : DiagnosticSeverity;
  range : Range;
  message : Message;
  source : string;
  code : string
}.

(** The document of the editor library: its text and the mapping from
    offsets to positions. *)
Record TextDocument := {
  getText : text;
  positionAt : nat -> Position
}.

(** The board descriptions and the hardware database ([hardware-db.js]),
    as far as the validators read them. *)
Record Board := {
  name : string;
  digital : list N;
  analog : list N;
  board_pwm : list N;
  interrupts : option (list N)
}.

Record HardwareDatabase := {
  boards : list (string * Board);
  currentBoard : option Board
}.

Definition getCurrentBoard (db : HardwareDatabase) : option Board := currentBoard db.

Definition loadBoard (db : HardwareDatabase) (boardId : string) : HardwareDatabase :=
  {| boards := boards db;
     currentBoard := snd <$> List.find (fun e => String.eqb (fst e) boardId) (boards db) |}.

(** [this]: the provider holds the database it was built with. *)
Record EmbeddedDiagnosticProvider := { hardwareDB : HardwareDatabase }.

Definition getRange (document : TextDocument) (line startChar length : nat) : Range :=
  {| range_start := {| line := line; character := startChar |};
     range_end := {| line := line; character := startChar + length |} |}.

(** The range from [pos] over [len] characters of its line. *)
Definition range_at (pos : Position) (len : nat) : Range :=
  {| range_start := {| line := line pos; character := character pos |};
     range_end := {| line := line pos; character := character pos + len |} |}.

(** *** validateI2CUsage *)

(** [/(?:beginTransmission|requestFrom)\s*\(\s*0x([0-9A-Fa-f]+)/g] *)
Definition addressPattern : re :=
  Seq (Alt (Lit (txt "beginTransmission")) (Lit (txt "requestFrom")))
  (Seq (Star true (Chr is_space))
  (Seq (Chr (ceq "("))
  (Seq (Star true (Chr is_space))
  (Seq (Lit (txt "0x"))
       (Group 1 (Plus (Chr is_hex))))))).

(** [/Wire\.(?:beginTransmission|requestFrom|write|read)/] *)
Definition wireUsePattern : re :=
  Seq (Lit (txt "Wire."))
      (Alt (Lit (txt "beginTransmission"))
      (Alt (Lit (txt "requestFrom"))
      (Alt (Lit (txt "write")) (Lit (txt "read"))))).

(** [/Wire\.begin\s*\(/] *)
Definition wireBeginPattern : re :=
  Seq (Lit (txt "Wire.begin")) (Seq (Star true (Chr is_space)) (Chr (ceq "("))).

(** The state of the loop over the addresses: the set [usedAddresses] and
    the array [diagnostics]. *)
Definition AddressState : Type := gset N * list Diagnostic.

(** The body of the loop for one match. *)
Definition address_step (text : text) (document : TextDocument)
    (st : AddressState) (m : Match) : AddressState :=
  let '(usedAddresses, diagnostics) := st in
  if CommentStripper.isInComment text (index m) then st      (* continue *)
  else
    let hex := default [] (group m 1) in
    let address := default 0%N (Js.parseInt16 hex) in
    let hexStart := default 0 (indexOf (matched m) (txt "0x" ++ hex)) in
    let addressIndex := index m + hexStart in
    let pos := positionAt document addressIndex in
    let rng := range_at pos (length (txt "0x" ++ hex)) in
    if (0 <=? address)%N && (address <=? 7)%N then
      (usedAddresses,
       diagnostics ++ [ {| severity := Error; range := rng;
                           message := address_reserved address;
                           source := "Sentinel"; code := "reserved-i2c-address" |} ])
    else if (120 <=? address)%N && (address <=? 127)%N then
      (usedAddresses,
       diagnostics ++ [ {| severity := Error; range := rng;
                           message := address_reserved_10bit address;
                           source := "Sentinel"; code := "reserved-i2c-address" |} ])
    else if (127 <? address)%N then
      (usedAddresses,
       diagnostics ++ [ {| severity := Error; range := rng;
                           message := address_out_of_range address;
                           source := "Sentinel"; code := "invalid-i2c-address" |} ])
    else
      let diagnostics :=
        if bool_decide (address ∈ usedAddresses) then
          diagnostics ++ [ {| severity := Information; range := rng;
                              message := address_used_multiple_times address;
                              source := "Sentinel"; code := "duplicate-i2c-address" |} ]
        else diagnostics in
      ({[ address ]} ∪ usedAddresses, diagnostics).

(** The check for [Wire.begin] after the loop. *)
Definition wire_begin_check (text : text) (document : TextDocument)
    (diagnostics : list Diagnostic) : list Diagnostic :=
  let usesWire := test wireUsePattern text in
  let hasWireBegin := test wireBeginPattern text in
  if usesWire && negb hasWireBegin then
    match exec wireUsePattern text with
    | Some wireMatch =>
      let wireIndex := default 0 (indexOf text (matched wireMatch)) in
      let pos := positionAt document wireIndex in
      diagnostics ++ [ {| severity := Error;
                          range := range_at pos (length (matched wireMatch));
                          message := message_text
                            "Wire functions used without Wire.begin(). Add Wire.begin() in setup()";
                          source := "Sentinel"; code := "missing-wire-begin" |} ]
    | None => diagnostics
    end
  else diagnostics.

(** [validateI2CUsage(text, document, diagnostics)] pushes onto the array
    that it is given; the value is the array afterwards. *)
Definition validateI2CUsage (this : EmbeddedDiagnosticProvider) (text : text)
    (document : TextDocument) (diagnostics : list Diagnostic) : list Diagnostic :=
  let st := fold_left (address_step text document) (exec_all addressPattern text)
                      (∅, diagnostics) in
  wire_begin_check text document (snd st).

(** *** validateSPIUsage, validateSerialUsage, validateProtocolConfiguration *)

Definition word_after (prefix : string) : re :=
  Seq (Lit (txt prefix)) (Plus (Chr is_word)).

Definition begin_call (prefix : string) : re :=
  Seq (Lit (txt prefix)) (Seq (Star true (Chr is_space)) (Chr (ceq "("))).

Definition validateSPIUsage (this : EmbeddedDiagnosticProvider) (text : text)
    (document : TextDocument) (diagnostics : list Diagnostic) : list Diagnostic :=
  let usesSPI := test (word_after "SPI.") text in
  let hasSPIBegin := test (begin_call "SPI.begin") text in
  let diagnostics :=
    if usesSPI && negb hasSPIBegin then
      diagnostics ++ [ {| severity := Error; range := getRange document 0 0 1;
                          message := message_text
                            "SPI functions used without SPI.begin(). Add SPI.begin() in setup()";
                          source := "Sentinel"; code := "missing-spi-begin" |} ]
    else diagnostics in
  let hasTransfer := test (Lit (txt "SPI.transfer")) text in
  let hasTransaction := test (Lit (txt "SPI.beginTransaction")) text in
  if hasTransfer && negb hasTransaction then
    diagnostics ++ [ {| severity := Warning; range := getRange document 0 0 1;
                        message := message_text
                          "SPI.transfer() used without SPI.beginTransaction(). Consider using transactions for reliable communication";
                        source := "Sentinel"; code := "missing-spi-transaction" |} ]
  else diagnostics.

Definition validateSerialUsage (this : EmbeddedDiagnosticProvider) (text : text)
    (document : TextDocument) (diagnostics : list Diagnostic) : list Diagnostic :=
  let usesSerial := test (word_after "Serial.") text in
  let hasSerialBegin := test (begin_call "Serial.begin") text in
  if usesSerial && negb hasSerialBegin then
    diagnostics ++ [ {| severity := Warning; range := getRange document 0 0 1;
                        message := message_text
                          "Serial functions used without Serial.begin(). Add Serial.begin(9600) in setup() for debugging output";
                        source := "Sentinel"; code := "missing-serial-begin" |} ]
  else diagnostics.

Definition validateProtocolConfiguration (this : EmbeddedDiagnosticProvider)
    (text : text) (document : TextDocument) : list Diagnostic :=
  let diagnostics := [] in
  let diagnostics := validateI2CUsage this text document diagnostics in
  let diagnostics := validateSPIUsage this text document diagnostics in
  let diagnostics := validateSerialUsage this text document diagnostics in
  diagnostics.

(** *** validatePWMUsage *)

(** [/analogWrite\s*\(\s*(\d+)\s*,\s*(\w+)\s*\)/g] *)
Definition pwmPattern : re :=
  Seq (Lit (txt "analogWrite"))
  (Seq (Star true (Chr is_space))
  (Seq (Chr (ceq "("))
  (Seq (Star true (Chr is_space))
  (Seq (Group 1 (Plus (Chr is_digit)))
  (Seq (Star true (Chr is_space))
  (Seq (Chr (ceq ","))
  (Seq (Star true (Chr is_space))
  (Seq (Group 2 (Plus (Chr is_word)))
  (Seq (Star true (Chr is_space))
       (Chr (ceq ")"))))))))))).

Definition pwmPins : list N := [3; 5; 6; 9; 10; 11]%N.

(** [list.includes(n)] on numbers; [NaN] is no element of a list of numbers. *)
Definition includesN (l : list N) (n : option N) : bool :=
  match n with
  | Some n => existsb (N.eqb n) l
  | None => false
  end.

(** [valueStr === 'HIGH' ? 255 : (valueStr === 'LOW' ? 0 : parseInt(valueStr))] *)
Definition pwm_value (valueStr : text) : option N :=
  if bool_decide (valueStr = txt "HIGH") then Some 255%N
  else if bool_decide (valueStr = txt "LOW") then Some 0%N
  else Js.parseInt valueStr.

(** The body of the loop for one match: what it pushes. *)
Definition pwm_step (this : EmbeddedDiagnosticProvider) (document : TextDocument)
    (m : Match) : list Diagnostic :=
  let m1 := default [] (group m 1) in
  let m2 := default [] (group m 2) in
  let pin := Js.parseInt m1 in
  let valueStr := m2 in
  let value := pwm_value valueStr in
  let pinIndex := index m + default 0 (indexOf (matched m) m1) in
  let valueIndex := index m + default 0 (indexOf (matched m) m2) in
  (if negb (includesN pwmPins pin) then
     let pinPos := positionAt document pinIndex in
     [ {| severity := Error; range := range_at pinPos (length m1);
          message := pin_without_pwm (default 0%N pin);
          source := "Sentinel"; code := "no-pwm-support" |} ]
   else []) ++
  (match value with
   | Some v =>
     if (255 <? v)%N then
       let valPos := positionAt document valueIndex in
       [ {| severity := Error; range := range_at valPos (length m2);
            message := pwm_value_exceeds v;
            source := "Sentinel"; code := "pwm-value-overflow" |} ]
     else []
   | None => []
   end).

Definition validatePWMUsage (this : EmbeddedDiagnosticProvider) (text : text)
    (document : TextDocument) : list Diagnostic :=
  flat_map (pwm_step this document) (exec_all pwmPattern text).

(** *** validateInterruptUsage *)

Definition interruptPattern : re :=
  Seq (Lit (txt "attachInterrupt"))
  (Seq (Star true (Chr is_space))
  (Seq (Chr (ceq "("))
  (Seq (Star true (Chr is_space))
  (Seq (Lit (txt "digitalPinToInterrupt"))
  (Seq (Star true (Chr is_space))
  (Seq (Chr (ceq "("))
  (Seq (Star true (Chr is_space))
  (Seq (Group 1 (Plus (Chr is_digit)))
  (Seq (Star true (Chr is_space))
       (Chr (ceq ")"))))))))))).

(** [text.substring(0, index).split('\n').length - 1]: the newlines before
    [index]. *)
Definition line_of (text : text) (index : nat) : nat :=
  count_occ ascii_dec (take index text) newline.

Definition validateInterruptUsage (this : EmbeddedDiagnosticProvider) (text : text)
    (document : TextDocument) : list Diagnostic :=
  match getCurrentBoard (hardwareDB this) with
  | None => []
  | Some board =>
    match interrupts board with
    | None => []
    | Some interruptPins =>
      flat_map (fun m =>
        let pin := Js.parseInt (default [] (group m 1)) in
        let line := line_of text (index m) in
        if negb (includesN interruptPins pin) then
          [ {| severity := Error;
               range := getRange document line (index m) (length (matched m));
               message := pin_without_interrupt (default 0%N pin) interruptPins;
               source := "Sentinel"; code := "invalid-interrupt-pin" |} ]
        else []) (exec_all interruptPattern text)
    end
  end.

(** *** validateDocument

    An [async] method gives a promise: [resolved] with its value, or
    [rejected] with what it threw. *)

Inductive JsError := thrown (what : string).

Inductive promise (A : Type) :=
  | resolved (a : A)
  | rejected (e : JsError).
Arguments resolved {A} a.
Arguments rejected {A} e.

(** [p.catch(handler)]. *)
Definition catch {A} (p : promise A) (handler : JsError -> A) : promise A :=
  match p with
  | resolved a => resolved a
  | rejected e => resolved (handler e)
  end.

(** [Promise.all]: the values in order, or the first rejection. *)
Fixpoint Promise_all {A} (ps : list (promise A)) : promise (list A) :=
  match ps with
  | [] => resolved []
  | resolved a :: ps' =>
    match Promise_all ps' with
    | resolved l => resolved (a :: l)
    | rejected e => rejected e
    end
  | rejected e :: _ => rejected e
  end.

(** The validators that [validateDocument] calls, in the order of its
    array. *)
Inductive Validator :=
  | validatePinUsage_ | validateStackUsage_ | validateProtocolConfiguration_
  | validateHardwareConstraints_ | validateInterruptUsage_ | validateMemoryAccess_
  | validateSerialBaudRate_ | validateDelayUsage_ | validateAnalogRead_
  | validatePWMUsage_ | validateStringUsage_ | validateFloatingPointUsage_
  | validateInterruptPins_ | validateWireBuffer_ | validateSerialBuffer_
  | validateMillisOverflow_ | validatePinModeBeforeUse_ | validateProgmemUsage_
  | validateEEPROMWrites_ | validateToneUsage_ | validateMapFunction_
  | validateRandomSeed_ | validateVoltageLevels_ | validateSPISpeed_
  | validateWatchdogTimer_ | validateStackOverflow_ | validateSerialFraming_
  | validateTimerPrescaler_ | validatePWMFrequency_ | validateGlobalVariables_
  | validateISRSafety_ | validateADCReference_
  | validateESP32WiFi_ | validateESP32BLE_ | validateESP32DeepSleep_
  | validateESP32DualCore_ | validateESP32PSRAM_.

Definition registry : list Validator :=
  [ validatePinUsage_; validateStackUsage_; validateProtocolConfiguration_;
    validateHardwareConstraints_; validateInterruptUsage_; validateMemoryAccess_;
    validateSerialBaudRate_; validateDelayUsage_; validateAnalogRead_;
    validatePWMUsage_; validateStringUsage_; validateFloatingPointUsage_;
    validateInterruptPins_; validateWireBuffer_; validateSerialBuffer_;
    validateMillisOverflow_; validatePinModeBeforeUse_; validateProgmemUsage_;
    validateEEPROMWrites_; validateToneUsage_; validateMapFunction_;
    validateRandomSeed_; validateVoltageLevels_; validateSPISpeed_;
    validateWatchdogTimer_; validateStackOverflow_; validateSerialFraming_;
    validateTimerPrescaler_; validatePWMFrequency_; validateGlobalVariables_;
    validateISRSafety_; validateADCReference_;
    validateESP32WiFi_; validateESP32BLE_; validateESP32DeepSleep_;
    validateESP32DualCore_; validateESP32PSRAM_ ].

(** The methods of the provider: what the call [this.validateX(text,
    document)] gives for each validator. *)
Definition Methods : Type :=
  Validator -> text -> TextDocument -> promise (list Diagnostic).

(** [validateDocument]: every call has its own [catch] handler that logs
    and gives the empty array; the arrays are appended in order; an error
    anywhere else is caught by the [try] around the whole. *)
Definition validateDocument (methods : Methods) (document : TextDocument)
    : promise (list Diagnostic) :=
  let text := getText document in
  let diagnostics := [] in
  let diagnostics :=
    match Promise_all
            (map (fun v => catch (methods v text document) (fun _ => [])) registry)
    with
    | resolved validations =>
      fold_left (fun diagnostics validation => diagnostics ++ validation)
                validations diagnostics
    | rejected _ => diagnostics
    end in
  resolved diagnostics.

(** The methods of a provider: the validators modelled above run to the end
    and resolve; the others are given by [others]. *)
Definition provider_methods (this : EmbeddedDiagnosticProvider) (others : Methods)
    : Methods :=
  fun v text document =>
    match v with
    | validateProtocolConfiguration_ =>
      resolved (validateProtocolConfiguration this text document)
    | validateInterruptUsage_ => resolved (validateInterruptUsage this text document)
    | validatePWMUsage_ => resolved (validatePWMUsage this text document)
    | _ => others v text document
    end.

(** Modelled from the spec: the document of the editor library is not part
    of the sources; a position is the number of newlines before the offset
    and the distance from the last of them. *)
Fixpoint position_from (line character : nat) (t : text) (offset : nat) : Position :=
  match offset, t with
  | S offset', c :: t' =>
    if ceq c newline then position_from (S line) 0 t' offset'
    else position_from line (S character) t' offset'
  | _, _ => {| line := line; character := character |}
  end.

Definition document_of (t : text) : TextDocument :=
  {| getText := t; positionAt := position_from 0 0 t |}.

End Diagnostics.

(** ** The older copy of the diagnostic provider

    The repository holds a second, older copy of the provider (the one that
    the server under [embedded-lsp/embedded-lsp] loads, with the source
    name [OrbitIDE Embedded LSP]).  Its [validateI2CUsage] is given here as
    it is written there. *)

Module LegacyDiagnostics.
Import Regex Diagnostics.

(** The I2C protocol description of the hardware database: the table
    [commonAddresses], from the text of an address to a device. *)
Record Protocol := { commonAddresses : list (string * string) }.

Record LegacyProvider := { i2cProtocol : option Protocol }.

(** [address.toString(16)]: the digits of the address in lower case. *)
Definition hex_digit (d : N) : ascii :=
  if (d <? 10)%N then ascii_of_N (48 + d) else ascii_of_N (87 + d).

Fixpoint to_hex (fuel : nat) (n : N) (acc : text) : text :=
  match fuel with
  | O => acc
  | S fuel' =>
    let acc := hex_digit (n mod 16) :: acc in
    if (n <? 16)%N then acc else to_hex fuel' (n / 16) acc
  end.

Definition toString16 (n : N) : text := to_hex (S (N.to_nat (N.log2 n))) n [].

(** [i2cProtocol.commonAddresses[key]] *)
Definition knownDevice (p : Protocol) (address : N) : option string :=
  let key := string_of_list_ascii (txt "0x" ++ toString16 address) in
  snd <$> List.find (fun e => String.eqb (fst e) key) (commonAddresses p).

(** [/(?:beginTransmission|requestFrom|write|read)/] *)
Definition legacyWirePattern : re :=
  Alt (Lit (txt "beginTransmission"))
  (Alt (Lit (txt "requestFrom"))
  (Alt (Lit (txt "write")) (Lit (txt "read")))).

Definition legacy_step (protocol : Protocol) (text : text) (document : TextDocument)
    (st : AddressState) (m : Match) : AddressState :=
  let '(usedAddresses, diagnostics) := st in
  let address := default 0%N (Js.parseInt16 (default [] (group m 1))) in
  let line := line_of text (index m) in
  let rng := getRange document line (index m) (length (matched m)) in
  if (address <? 8)%N || (119 <? address)%N then
    (usedAddresses,
     diagnostics ++ [ {| severity := Error; range := rng;
                         message := address_outside_valid_range address;
                         source := "OrbitIDE Embedded LSP";
                         code := "invalid-i2c-address" |} ])   (* continue *)
  else
    let reservedAddresses := [0; 120; 121; 122; 123; 124; 125; 126; 127]%N in
    let diagnostics :=
      if existsb (N.eqb address) reservedAddresses then
        diagnostics ++ [ {| severity := Warning; range := rng;
                            message := address_is_reserved address;
                            source := "OrbitIDE Embedded LSP";
                            code := "reserved-i2c-address" |} ]
      else diagnostics in
    let diagnostics :=
      if bool_decide (address ∈ usedAddresses) then
        diagnostics ++ [ {| severity := Information; range := rng;
                            message := address_used_multiple_times address;
                            source := "OrbitIDE Embedded LSP";
                            code := "duplicate-i2c-address" |} ]
      else diagnostics in
    let diagnostics :=
      match knownDevice protocol address with
      | Some device =>
        diagnostics ++ [ {| severity := Information; range := rng;
                            message := address_commonly_used_by address device;
                            source := "OrbitIDE Embedded LSP";
                            code := "i2c-device-hint" |} ]
      | None => diagnostics
      end in
    ({[ address ]} ∪ usedAddresses, diagnostics).

Definition validateI2CUsage (this : LegacyProvider) (text : text)
    (document : TextDocument) (diagnostics : list Diagnostic) : list Diagnostic :=
  match i2cProtocol this with
  | None => diagnostics                                   (* return *)
  | Some protocol =>
    let st := fold_left (legacy_step protocol text document)
                        (exec_all addressPattern text) (∅, diagnostics) in
    let diagnostics := snd st in
    let usesWire := test legacyWirePattern text in
    let hasWireBegin := test wireBeginPattern text in
    if usesWire && negb hasWireBegin then
      diagnostics ++ [ {| severity := Error; range := getRange document 0 0 1;
                          message := message_text
                            "Wire functions used without Wire.begin(). Add Wire.begin() in setup()";
                          source := "OrbitIDE Embedded LSP";
                          code := "missing-wire-begin" |} ]
    else diagnostics
  end.

(** The I2C protocol that the hardware database creates by default. *)
Definition default_i2c : Protocol :=
  {| commonAddresses :=
       [ ("0x27", "LCD Display (PCF8574)"); ("0x48", "Temperature Sensor (LM75)");
         ("0x50", "EEPROM (24C32)"); ("0x68", "Real-Time Clock (DS1307)") ]%string |}.

End LegacyDiagnostics.

(** ** memory-analyzer.js *)

Module MemoryAnalyzer.
Import Regex.

(** The sizes are numbers of JavaScript: sums and products round, and
    they can be [Infinity] or [NaN]. *)
Definition num := JsNumber.number.

Definition num_add (a b : num) : num := JsNumber.add a b.

Definition num_mul (a b : num) : num := JsNumber.mul a b.

(** [this.typeSizes] *)
Definition typeSizes : list (string * N) :=
  [ ("bool", 1); ("boolean", 1); ("byte", 1); ("char", 1); ("unsigned char", 1);
    ("int", 2); ("unsigned int", 2); ("short", 2); ("unsigned short", 2);
    ("long", 4); ("unsigned long", 4); ("float", 4); ("double", 4);
    ("void*", 2); ("int8_t", 1); ("uint8_t", 1); ("int16_t", 2);
    ("uint16_t", 2); ("int32_t", 4); ("uint32_t", 4); ("size_t", 2) ]%string%N.

(** The properties that an object literal inherits: looking one of them up
    in [typeSizes] gives a function or an object, not [undefined]. *)
Definition inherited : list string :=
  [ "constructor"; "toString"; "toLocaleString"; "valueOf"; "hasOwnProperty";
    "isPrototypeOf"; "propertyIsEnumerable"; "__proto__"; "__defineGetter__";
    "__defineSetter__"; "__lookupGetter__"; "__lookupSetter__" ]%string.

(** [(this.typeSizes[type] || 4)] as a factor: the size in the table, 4 for
    a type that is not in it, and [NaN] for an inherited property. *)
Definition type_size (type : text) : num :=
  let key := string_of_list_ascii type in
  match List.find (fun e => String.eqb (fst e) key) typeSizes with
  | Some e => JsNumber.Finite (if (snd e =? 0)%N then 4 else snd e)%N
  | None =>
    if existsb (String.eqb key) inherited then JsNumber.NaN else JsNumber.Finite 4
  end.

(** [s.trim()] *)
Fixpoint trim_start (s : text) : text :=
  match s with
  | c :: s' => if is_space c then trim_start s' else s
  | [] => []
  end.

Definition trim (s : text) : text := rev (trim_start (rev (trim_start s))).

(** [text.replace(re, '')] for a regular expression with the flag [g]: the
    text without its matches.  After an empty match the search goes on one
    character further.  [n] bounds the number of matches. *)
Fixpoint remove_from (n : nat) (r : re) (i : nat) (prev : option ascii) (s : text)
    : text :=
  match n with
  | O => s
  | S n' =>
    match search r i prev s with
    | None => s
    | Some m =>
      take (index m - i) s ++
      if length (matched m) =? 0 then
        match after m with
        | c :: rest => c :: remove_from n' r (S (index m)) (Some c) rest
        | [] => []
        end
      else remove_from n' r (index m + length (matched m)) (after_prev m) (after m)
    end
  end.

Definition remove_all (r : re) (t : text) : text :=
  remove_from (S (length t)) r 0 None t.

(** [(text.match(re) || []).length] for a regular expression with the flag
    [g]: the number of matches. *)
Fixpoint count_from (n : nat) (r : re) (i : nat) (prev : option ascii) (s : text) : nat :=
  match n with
  | O => 0
  | S n' =>
    match search r i prev s with
    | None => 0
    | Some m =>
      S (if length (matched m) =? 0 then
           match after m with
           | c :: rest => count_from n' r (S (index m)) (Some c) rest
           | [] => 0
           end
         else count_from n' r (index m + length (matched m)) (after_prev m) (after m))
    end
  end.

Definition count_matches (r : re) (t : text) : nat :=
  count_from (S (length t)) r 0 None t.

(** Shorthands for the patterns. *)
Definition sp : re := Chr is_space.
Definition word : re := Chr is_word.
Definition digit : re := Chr is_digit.
Definition ch (c : ascii) : re := Chr (ceq c).
Definition one_of (cs : string) : re := Chr (fun c => existsb (ceq c) (txt cs)).
Definition none_of (cs : list ascii) : re := Chr (fun c => negb (existsb (ceq c) cs)).

Fixpoint seqs (rs : list re) : re :=
  match rs with
  | [] => Eps
  | [r] => r
  | r :: rs' => Seq r (seqs rs')
  end.

Fixpoint alts (rs : list re) : re :=
  match rs with
  | [] => Chr (fun _ => false)
  | [r] => r
  | r :: rs' => Alt r (alts rs')
  end.

Definition lit (s : string) : re := Lit (txt s).

(** The two comment patterns of [analyzeGlobalVariables]: two slashes and
    the rest of the line, with the flags [g] and [m]; and a block comment
    up to the first closing delimiter, with the flag [g]. *)
Definition lineCommentPattern : re :=
  seqs [ ch "/"; ch "/"; Star true (Chr is_dot); Eol ].

Definition blockCommentPattern : re :=
  seqs [ ch "/"; ch "*"; Star false (Chr (fun _ => true)); ch "*"; ch "/" ].

(** [globalVarPattern], with the flags [g] and [m]: at the start of a line,
    any of [static], [const], [volatile], a type of the list (group 1), a
    name (group 2), an optional array size in brackets (group 3), and [=]
    or [;]. *)
Definition globalVarPattern : re :=
  seqs [ Bol;
         Star true (alts [ Seq (lit "static") (Plus sp);
                           Seq (lit "const") (Plus sp);
                           Seq (lit "volatile") (Plus sp) ]);
         Star true sp;
         Group 1 (alts [ lit "bool"; lit "boolean"; lit "byte"; lit "char";
                         seqs [lit "unsigned"; Plus sp; lit "char"];
                         lit "int";
                         seqs [lit "unsigned"; Plus sp; lit "int"];
                         lit "short";
                         seqs [lit "unsigned"; Plus sp; lit "short"];
                         lit "long";
                         seqs [lit "unsigned"; Plus sp; lit "long"];
                         lit "float"; lit "double"; lit "int8_t"; lit "uint8_t";
                         lit "int16_t"; lit "uint16_t"; lit "int32_t";
                         lit "uint32_t"; lit "size_t"; lit "String" ]);
         Plus sp;
         Group 2 (Plus word);
         Opt (seqs [ch "["; Group 3 (Plus digit); ch "]"]);
         Star true sp;
         Alt (ch "=") (ch ";") ].

(** [readPattern] for a name: the name before a bracket, or before a
    closing parenthesis, or after one of [=+-*/&|<>!,]. *)
Definition readPattern (name : text) : re :=
  alts [ seqs [WordB; Lit name; Star true sp; ch "["];
         seqs [WordB; Lit name; Star true sp; ch ")"];
         seqs [one_of "=+-*/&|<>!,"; Star true sp; WordB; Lit name; WordB] ].

(** [writePattern] for a name: an assignment to an element or to the name. *)
Definition writePattern (name : text) : re :=
  alts [ seqs [WordB; Lit name; Star true sp; ch "["; Star true (Chr is_dot);
               ch "]"; Star true sp; ch "="];
         seqs [WordB; Lit name; Star true sp; ch "="] ].

(** [structPattern], [memberPattern] and [instancePattern]. *)
Definition structPattern : re :=
  seqs [ lit "struct"; Plus sp; Group 1 (Plus word); Star true sp; ch "{";
         Group 2 (Plus (none_of ["}"%char])); ch "}" ].

Definition memberPattern : re :=
  seqs [ Opt (Seq (lit "const") (Plus sp));
         Group 1 (Seq (Plus word) (Opt (Seq (Plus sp) (Plus word))));
         Plus sp;
         Group 2 (Plus word);
         Opt (seqs [ch "["; Group 3 (Plus digit); ch "]"]);
         ch ";" ].

Definition instancePattern (structName : text) : re :=
  seqs [ WordB; Lit structName; Plus sp; Group 1 (Plus word);
         Opt (seqs [ch "["; Group 2 (Plus digit); ch "]"]);
         Star true sp; one_of ";=" ].

Record RamItem := {
  name : text;
  type : text;
  size : num;
  arraySize : num
}.

Record Ram := {
  globalVariables : num;
  stackEstimate : N;
  dynamicWarnings : N;
  total : num;
  items : list RamItem
}.

Record FlashItem := { content : text; flash_size : N }.

Record Flash := {
  strings : N;
  flash_total : N;
  flash_items : list FlashItem
}.

Record Limits := { ram_limit : N; flash_limit : N }.

(** The [analysis] object.  Its percentages, and the warnings derived from
    them, are floating-point values computed from the totals at the end;
    they are left out. *)
Record Analysis := {
  ram : Ram;
  flash : Flash;
  limits : Limits
}.

Definition set_ram (a : Analysis) (r : Ram) : Analysis :=
  {| ram := r; flash := flash a; limits := limits a |}.

Definition set_flash (a : Analysis) (f : Flash) : Analysis :=
  {| ram := ram a; flash := f; limits := limits a |}.

(** [match[3] ? parseInt(match[3]) : 1]: the empty text is falsy. *)
Definition array_size (g : option text) : num :=
  match g with
  | Some [] => JsNumber.Finite 1
  | Some d => JsNumber.parseInt d
  | None => JsNumber.Finite 1
  end.

(** [(beforeMatch.match(/c/g) || []).length] *)
Definition count_char (c : ascii) (t : text) : nat := count_occ ascii_dec t c.

(** Whether the offset is at global scope: no more opening than closing
    braces before it. *)
Definition at_global_scope (cleanText : text) (index : nat) : bool :=
  let beforeMatch := take index cleanText in
  count_char "{" beforeMatch <=? count_char "}" beforeMatch.

(** The body of the loop over the declarations. *)
Definition global_step (cleanText : text) (r : Ram) (m : Match) : Ram :=
  let type := trim (default [] (group m 1)) in
  let name := default [] (group m 2) in
  let arraySize := array_size (group m 3) in
  if at_global_scope cleanText (index m) then
    let is_String := bool_decide (type = txt "String") in
    let size :=
      if is_String then num_mul (JsNumber.Finite 6) arraySize
      else if bool_decide (type = txt "char") && JsNumber.ltb (JsNumber.Finite 1) arraySize
      then arraySize
      else num_mul (type_size type) arraySize in
    let afterDeclaration := drop (index m + length (matched m)) cleanText in
    let isRead := test (readPattern name) afterDeclaration in
    let isWritten := test (writePattern name) afterDeclaration in
    let isUsed := isRead || isWritten in
    let adjustedSize := if isUsed then size else JsNumber.Finite 0 in
    {| globalVariables := num_add (globalVariables r) adjustedSize;
       stackEstimate := stackEstimate r;
       dynamicWarnings := if is_String then (dynamicWarnings r + 1)%N else dynamicWarnings r;
       total := total r;
       items := items r ++ [ {| name := name; type := type; size := adjustedSize;
                                arraySize := arraySize |} ] |}
  else r.

(** The size of a struct: the sum over the members of its body. *)
Definition struct_size (structBody : text) : num :=
  fold_left (fun structSize memberMatch =>
               let memberType := trim (default [] (group memberMatch 1)) in
               let memberArraySize := array_size (group memberMatch 3) in
               num_add structSize (num_mul (type_size memberType) memberArraySize))
            (exec_all memberPattern structBody) (JsNumber.Finite 0).

(** [structInstances.set(structName, structSize)]: a [Map] keeps the place of
    a key that is set again. *)
Fixpoint map_set (m : list (text * num)) (k : text) (v : num) : list (text * num) :=
  match m with
  | [] => [(k, v)]
  | (k', v') :: m' =>
    if bool_decide (k' = k) then (k, v) :: m' else (k', v') :: map_set m' k v
  end.

Definition struct_definitions (cleanText : text) : list (text * num) :=
  fold_left (fun structInstances m =>
               map_set structInstances (default [] (group m 1))
                       (struct_size (default [] (group m 2))))
            (exec_all structPattern cleanText) [].

(** The body of the loop over the instances of one struct. *)
Definition instance_step (cleanText : text) (structName : text) (size : num)
    (r : Ram) (instMatch : Match) : Ram :=
  let instanceName := default [] (group instMatch 1) in
  let instanceCount := array_size (group instMatch 2) in
  let totalSize := num_mul size instanceCount in
  if at_global_scope cleanText (index instMatch) then
    {| globalVariables := num_add (globalVariables r) totalSize;
       stackEstimate := stackEstimate r;
       dynamicWarnings := dynamicWarnings r;
       total := total r;
       items := items r ++ [ {| name := instanceName; type := structName;
                                size := totalSize; arraySize := instanceCount |} ] |}
  else r.

Definition cleanText_of (source : text) : text :=
  remove_all blockCommentPattern (remove_all lineCommentPattern source).

Definition analyzeGlobalVariables (text : text) (analysis : Analysis) : Analysis :=
  let cleanText := cleanText_of text in
  let r := fold_left (global_step cleanText) (exec_all globalVarPattern cleanText)
                     (ram analysis) in
  let r := fold_left (fun r '(structName, size) =>
                        fold_left (instance_step cleanText structName size)
                                  (exec_all (instancePattern structName) cleanText) r)
                     (struct_definitions cleanText) r in
  set_ram analysis r.

(** [analyzeStringLiterals]: a quote, characters other than the quote and
    the backslash or escape pairs (group 1), and a quote; each literal
    takes its length and one more byte. *)
Definition stringPattern : re :=
  let plain := Star true (none_of [dquote; backslash]) in
  seqs [ ch dquote;
         Group 1 (Seq plain (Star true (Group 2 (seqs [ch backslash; Chr is_dot; plain]))));
         ch dquote ].

Definition string_step (f : Flash) (m : Match) : Flash :=
  let stringContent := default [] (group m 1) in
  let size := (N.of_nat (length stringContent) + 1)%N in
  {| strings := (strings f + size)%N;
     flash_total := flash_total f;
     flash_items :=
       if (20 <? size)%N then
         flash_items f ++
         [ {| content := take 30 stringContent ++
                         (if 30 <? length stringContent then txt "..." else []);
              flash_size := size |} ]
       else flash_items f |}.

Definition analyzeStringLiterals (source : text) (analysis : Analysis) : Analysis :=
  set_flash analysis (fold_left string_step (exec_all stringPattern source) (flash analysis)).

(** [analyzeDynamicAllocation] only pushes warnings, which are left out. *)

(** [analyzeStackUsage] *)
Definition functionPattern : re :=
  seqs [ WordB;
         alts [ lit "void"; lit "int"; lit "float"; lit "char"; lit "bool";
                lit "long"; lit "short"; lit "byte" ];
         Plus sp; Plus word; Star true sp; ch "(";
         Star true (none_of [")"%char]); ch ")"; Star true sp; ch "{" ].

Definition analyzeStackUsage (source : text) (analysis : Analysis) : Analysis :=
  let functionCount := count_matches functionPattern source in
  let callDepth := N.min (if 5 <? functionCount then 3 else 2) 3 in
  let r := ram analysis in
  set_ram analysis
    {| globalVariables := globalVariables r;
       stackEstimate := (callDepth * 14)%N;
       dynamicWarnings := dynamicWarnings r;
       total := total r;
       items := items r |}.

(** [estimateFrameworkOverhead] *)
Definition mallocPattern : re :=
  seqs [ WordB; Group 1 (alts [lit "malloc"; lit "calloc"; lit "new"]); WordB ].

Definition estimateFrameworkOverhead (source : text) : N :=
  let overhead := 0%N in
  let overhead := (overhead + 9)%N in
  let hasSerial := str_includes source (txt "Serial.begin") in
  let hasWire := str_includes source (txt "Wire.begin") in
  let overhead := if hasSerial then (overhead + 175)%N else overhead in
  let overhead :=
    if hasWire then (overhead + (if hasSerial then 185 else 196))%N else overhead in
  let overhead :=
    if str_includes source (txt "SPI.begin") then (overhead + 20)%N else overhead in
  let overhead :=
    if str_includes source (txt "WiFi.begin") || str_includes source (txt "BLEDevice::init")
    then (overhead + 150)%N else overhead in
  let mallocCount := count_matches mallocPattern source in
  (overhead + N.of_nat mallocCount * 8)%N.

(** [this]: the analyzer with its current board. *)
Record MemoryAnalyzer := { currentBoard : string }.

Definition boardLimits : list (string * Limits) :=
  [ ("arduino:avr:uno"%string, {| ram_limit := 2048; flash_limit := 32768 |});
    ("arduino:avr:nano"%string, {| ram_limit := 2048; flash_limit := 32768 |});
    ("arduino:avr:mega"%string, {| ram_limit := 8192; flash_limit := 262144 |});
    ("esp32:esp32:esp32"%string, {| ram_limit := 327680; flash_limit := 1310720 |}) ].

Definition getBoardLimits (this : MemoryAnalyzer) : Limits :=
  match List.find (fun e => String.eqb (fst e) (currentBoard this)) boardLimits with
  | Some e => snd e
  | None => {| ram_limit := 2048; flash_limit := 32768 |}
  end.

(** [analyzeMemory], on the text of the document. *)
Definition analyzeMemory (this : MemoryAnalyzer) (source : text) : Analysis :=
  let limits := getBoardLimits this in
  let analysis :=
    {| ram := {| globalVariables := JsNumber.Finite 0; stackEstimate := 0;
                 dynamicWarnings := 0; total := JsNumber.Finite 0; items := [] |};
       flash := {| strings := 0; flash_total := 0; flash_items := [] |};
       limits := limits |} in
  let analysis := analyzeGlobalVariables source analysis in
  let analysis := analyzeStringLiterals source analysis in
  let analysis := analyzeStackUsage source analysis in
  let frameworkOverhead := estimateFrameworkOverhead source in
  let r := ram analysis in
  let analysis :=
    set_ram analysis
      {| globalVariables := globalVariables r;
         stackEstimate := stackEstimate r;
         dynamicWarnings := dynamicWarnings r;
         total := num_add (num_add (globalVariables r) (JsNumber.of_N (stackEstimate r)))
                          (JsNumber.of_N frameworkOverhead);
         items := items r |} in
  let f := flash analysis in
  set_flash analysis
    {| strings := strings f;
       flash_total := (strings f + 2000)%N;
       flash_items := flash_items f |}.

End MemoryAnalyzer.

(** ** pin-tracker.js: [parsePin] *)

Module PinParser.
Import Regex.

(** [parsePin(pinStr)]: [A0] is pin 14, [A1] pin 15, and so on, in the
    arithmetic of numbers.  The texts are the captures of
    [analyzePinUsage], digits after at most one capital letter. *)
Definition parsePin (pinStr : text) : JsNumber.number :=
  if starts_with (txt "A") pinStr
  then JsNumber.add (JsNumber.Finite 14) (JsNumber.parseInt (drop 1 pinStr))
  else JsNumber.parseInt pinStr.

End PinParser.

(** ** hardware-db.js: the I2C helpers *)

Module HardwareDb.
Import Regex.

Section AddressCount.
Context {K : Type} `{EqDecision K}.

(** [addressCount]: a [Map] from an address to a number, in the order in
    which the addresses were first set. *)
Definition map_get (m : list (K * N)) (k : K) : option N :=
  snd <$> List.find (fun e => bool_decide (fst e = k)) m.

Fixpoint map_set (m : list (K * N)) (k : K) (v : N) : list (K * N) :=
  match m with
  | [] => [(k, v)]
  | (k', v') :: m' =>
    if bool_decide (k' = k) then (k, v) :: m' else (k', v') :: map_set m' k v
  end.

(** The message of a conflict, with the address and the count it prints. *)
Inductive ConflictMessage := used_by_devices (addr : K) (count : N).

Record Conflict := {
  address : K;
  count : N;
  message : ConflictMessage
}.

(** [checkI2CConflicts(addresses)] *)
Definition checkI2CConflicts (addresses : list K) : list Conflict :=
  let addressCount :=
    fold_left (fun addressCount addr =>
                 map_set addressCount addr
                         (default 0%N (map_get addressCount addr) + 1)%N)
              addresses [] in
  flat_map (fun '(addr, count) =>
              if (1 <? count)%N
              then [ {| address := addr; count := count;
                        message := used_by_devices addr count |} ]
              else [])
           addressCount.

End AddressCount.

(** [getI2CAddressConflicts(address)]: the devices of the table
    [commonAddresses] of the I2C protocol whose key reads as the address;
    [Object.entries] gives the keys in the order of the table (none of them
    is the decimal text of an index), and a key that reads as [NaN] is equal
    to no address. *)
Definition getI2CAddressConflicts (i2c : option LegacyDiagnostics.Protocol)
    (address : N) : list string :=
  match i2c with
  | None => []                                            (* return [] *)
  | Some i2c =>
    flat_map (fun '(addr, device) =>
                if bool_decide (Js.parseInt16 (txt addr) = Some address)
                then [device] else [])
             (LegacyDiagnostics.commonAddresses i2c)
  end.

(** The table of [getI2CCompletions]. *)
Record I2CDevice := {
  dev_address : N;
  dev_name : string;
  dev_description : string
}.

Definition i2cDevices : list I2CDevice :=
  [ {| dev_address := 104; dev_name := "MPU6050"; dev_description := "Gyroscope + Accelerometer" |};
    {| dev_address := 105; dev_name := "MPU6050 (ALT)"; dev_description := "Gyroscope + Accelerometer (alternate)" |};
    {| dev_address := 118; dev_name := "BMP280"; dev_description := "Barometric Pressure Sensor" |};
    {| dev_address := 119; dev_name := "BMP280/BMP180 (ALT)"; dev_description := "Pressure Sensor (alternate)" |};
    {| dev_address := 60; dev_name := "OLED Display"; dev_description := "SSD1306 128x64 OLED" |};
    {| dev_address := 61; dev_name := "OLED Display (ALT)"; dev_description := "SSD1306 (alternate)" |};
    {| dev_address := 72; dev_name := "ADS1115"; dev_description := "16-bit ADC" |};
    {| dev_address := 73; dev_name := "ADS1115 (ALT)"; dev_description := "16-bit ADC (alternate)" |};
    {| dev_address := 80; dev_name := "AT24C32"; dev_description := "EEPROM" |};
    {| dev_address := 39; dev_name := "LCD Display"; dev_description := "I2C LCD Backpack" |};
    {| dev_address := 32; dev_name := "MCP23017"; dev_description := "I/O Expander" |};
    {| dev_address := 64; dev_name := "PCA9685"; dev_description := "16-Channel PWM Driver" |};
    {| dev_address := 90; dev_name := "MLX90614"; dev_description := "Infrared Thermometer" |};
    {| dev_address := 41; dev_name := "VL53L0X"; dev_description := "Time-of-Flight Distance Sensor" |};
    {| dev_address := 68; dev_name := "SHT31"; dev_description := "Temperature + Humidity" |};
    {| dev_address := 30; dev_name := "HMC5883L"; dev_description := "Magnetometer (Compass)" |};
    {| dev_address := 29; dev_name := "ADXL345"; dev_description := "Accelerometer" |};
    {| dev_address := 83; dev_name := "ADXL345 (ALT)"; dev_description := "Accelerometer (alternate)" |};
    {| dev_address := 57; dev_name := "TSL2561"; dev_description := "Light Sensor" |};
    {| dev_address := 35; dev_name := "BH1750"; dev_description := "Light Sensor" |};
    {| dev_address := 40; dev_name := "CAP1188"; dev_description := "Capacitive Touch" |};
    {| dev_address := 112; dev_name := "TCA9548A"; dev_description := "I2C Multiplexer" |} ]%N%string.

(** [s.toUpperCase()] and [s.toLowerCase()], character by character, on the
    code units below 256: the letters of ASCII, and for the lower case the
    capital letters from 192 to 222 but the multiplication sign.  (The upper
    case is used on the digits of [toString(16)] only.) *)
Definition toUpperCase (s : text) : text :=
  map (fun c => if is_lower c then ascii_of_nat (nat_of_ascii c - 32) else c) s.

Definition toLowerCase (s : text) : text :=
  map (fun c =>
         let n := nat_of_ascii c in
         if is_upper c || ((192 <=? n) && (n <=? 222) && negb (n =? 215))
         then ascii_of_nat (n + 32) else c) s.

(** [s.padStart(n, c)] *)
Definition padStart (n : nat) (c : ascii) (s : text) : text :=
  repeat c (n - length s) ++ s.

(** ['0x' + address.toString(16).toUpperCase().padStart(2, '0')] *)
Definition hexAddr (address : N) : text :=
  txt "0x" ++ padStart 2 "0" (toUpperCase (LegacyDiagnostics.toString16 address)).

(** The documentation of a completion: the description, the address in
    hexadecimal and, in parentheses, in decimal. *)
Inductive Documentation :=
  device_documentation (description : string) (hexAddr : text) (address : N).

Record Completion := {
  label : text;
  kind : N;
  detail : string;
  documentation : Documentation;
  insertText : text;
  sortText : text
}.

(** [getI2CCompletions(prefix)]; an empty prefix is falsy. *)
Definition getI2CCompletions (prefix : text) : list Completion :=
  flat_map (fun device =>
    let hexAddr := hexAddr (dev_address device) in
    if match prefix with [] => true | _ => false end
       || starts_with prefix hexAddr
       || str_includes (toLowerCase (txt (dev_name device))) (toLowerCase prefix)
    then [ {| label := hexAddr;
              kind := 12;
              detail := dev_name device;
              documentation :=
                device_documentation (dev_description device) hexAddr (dev_address device);
              insertText := hexAddr;
              sortText := hexAddr |} ]
    else []) i2cDevices.

End HardwareDb.

(** ** hover-provider.js: the word at the cursor *)

Module HoverProvider.
Import Regex.

(** [/\w/.test(text[i])]: past the end of the text [text[i]] is
    [undefined], which [test] reads as the word [undefined]. *)
Definition word_test (c : option ascii) : bool :=
  match c with
  | Some c => is_word c
  | None => true
  end.

(** The first loop of [getWordAtPosition]: [start] goes back while the
    character before it is a word character. *)
Fixpoint expand_backwards (text : list ascii) (start : nat) : nat :=
  match start with
  | O => O
  | S start' =>
    if word_test (text !! start') then expand_backwards text start' else start
  end.

(** The second loop, at the index [end_] with the text from there on: it
    ends at the end of the text. *)
Fixpoint expand_forwards (rest : text) (end_ : nat) : nat :=
  match rest with
  | c :: rest' => if word_test (Some c) then expand_forwards rest' (S end_) else end_
  | [] => end_
  end.

Record WordRange := { word_start : nat; word_end : nat }.

(** [getWordAtPosition(text, offset)]; [None] is [null]. *)
Definition getWordAtPosition (text : list ascii) (offset : nat) : option WordRange :=
  let start := expand_backwards text offset in
  let end_ := expand_forwards (drop offset text) offset in
  if start =? end_ then None
  else Some {| word_start := start; word_end := end_ |}.

End HoverProvider.

(** ** diagnostic-provider.js: validators that count or scan lines *)

Module Validators.
Import Regex.

(** The messages of these validators; those that print a number carry it
    ([None] is [NaN]). *)
Inductive Message :=
  | message_text (s : string)
  | pin_without_interrupt_on_uno (pin : option N)
  | serial_print_calls (printCount : nat)
  | global_variables_detected (globalCount : nat).

Record Diagnostic := {
  severity : Diagnostics.DiagnosticSeverity;
  range : Diagnostics.Range;
  message : Message;
  source : string;
  code : string
}.

(** [s.lastIndexOf(needle)]; [None] is [-1]. *)
Fixpoint lastIndexOf_from (needle : text) (i : nat) (s : text) (last : option nat)
    : option nat :=
  let last := if starts_with needle s then Some i else last in
  match s with
  | [] => last
  | _ :: s' => lastIndexOf_from needle (S i) s' last
  end.

Definition lastIndexOf (t needle : text) : option nat := lastIndexOf_from needle 0 t None.

(** *** validateInterruptPins

    The pattern is that of [validateInterruptUsage]; the pins are those of
    the Arduino Uno, whatever the board. *)
Definition interruptPins : list N := [2; 3]%N.

Definition validateInterruptPins (text : text) (document : Diagnostics.TextDocument)
    : list Diagnostic :=
  flat_map (fun m =>
    let m1 := default [] (group m 1) in
    let pin := Js.parseInt m1 in
    let pinIndex :=
      match lastIndexOf (matched m) m1 with
      | Some k => index m + k
      | None => index m - 1
      end in
    let pos := Diagnostics.positionAt document pinIndex in
    if negb (Diagnostics.includesN interruptPins pin) then
      [ {| severity := Diagnostics.Error;
           range := Diagnostics.range_at pos (length m1);
           message := pin_without_interrupt_on_uno pin;
           source := "Sentinel"; code := "invalid-interrupt-pin" |} ]
    else []) (exec_all Diagnostics.interruptPattern text).

(** *** validateWireBuffer: [/Wire\.write\s*\([^)]*\)/g], a count and a
    [break] *)
Definition wireWritePattern : re :=
  Seq (Lit (txt "Wire.write"))
  (Seq (Star true (Chr is_space))
  (Seq (Chr (ceq "("))
  (Seq (Star true (Chr (fun c => negb (ceq c ")"))))
       (Chr (ceq ")"))))).

Fixpoint wire_loop (document : Diagnostics.TextDocument) (ms : list Match)
    (writeCount : nat) : list Diagnostic :=
  match ms with
  | [] => []
  | m :: ms' =>
    let writeCount := S writeCount in
    if 32 <? writeCount then
      let pos := Diagnostics.positionAt document (index m) in
      [ {| severity := Diagnostics.Warning;
           range := Diagnostics.range_at pos 10;
           message := message_text
             "I2C buffer limited to 32 bytes. Too many Wire.write() calls may overflow";
           source := "Sentinel"; code := "i2c-buffer-overflow" |} ]    (* break *)
    else wire_loop document ms' writeCount
  end.

Definition validateWireBuffer (text : text) (document : Diagnostics.TextDocument)
    : list Diagnostic :=
  wire_loop document (exec_all wireWritePattern text) 0.

(** *** validateEEPROMWrites: [/EEPROM\.write\s*\(/g], a count and a
    [break] *)
Definition eepromWritePattern : re := Diagnostics.begin_call "EEPROM.write".

Fixpoint eeprom_loop (document : Diagnostics.TextDocument) (ms : list Match)
    (writeCount : nat) : list Diagnostic :=
  match ms with
  | [] => []
  | m :: ms' =>
    let writeCount := S writeCount in
    if 5 <? writeCount then
      let pos := Diagnostics.positionAt document (index m) in
      [ {| severity := Diagnostics.Warning;
           range := Diagnostics.range_at pos 12;
           message := message_text
             "Multiple EEPROM.write() detected. EEPROM has ~100k write cycle limit. Use EEPROM.update() to reduce writes";
           source := "Sentinel"; code := "eeprom-wear" |} ]            (* break *)
    else eeprom_loop document ms' writeCount
  end.

Definition validateEEPROMWrites (text : text) (document : Diagnostics.TextDocument)
    : list Diagnostic :=
  eeprom_loop document (exec_all eepromWritePattern text) 0.

(** *** validateSerialBuffer: [/Serial\.print(ln)?\s*\(/g]; the loop
    counts the matches and leaves the pattern at its start, so the [exec]
    after it gives the first match. *)
Definition serialPrintPattern : re :=
  Seq (Lit (txt "Serial.print"))
  (Seq (Opt (Group 1 (Lit (txt "ln"))))
  (Seq (Star true (Chr is_space)) (Chr (ceq "(")))).

Definition validateSerialBuffer (text : text) (document : Diagnostics.TextDocument)
    : list Diagnostic :=
  let printCount := length (exec_all serialPrintPattern text) in
  if 20 <? printCount then
    match exec serialPrintPattern text with
    | Some firstMatch =>
      let pos := Diagnostics.positionAt document (index firstMatch) in
      [ {| severity := Diagnostics.Information;
           range := Diagnostics.range_at pos 13;
           message := serial_print_calls printCount;
           source := "Sentinel"; code := "excessive-serial" |} ]
    | None => []
    end
  else [].

(** *** validateGlobalVariables

    [text.split('\n')] *)
Fixpoint split_lines (t : text) : list text :=
  match t with
  | [] => [[]]
  | c :: t' =>
    if ceq c newline then [] :: split_lines t'
    else match split_lines t' with
         | l :: ls => (c :: l) :: ls
         | [] => [[c]]
         end
  end.

(** [/^r/.test(line)] for a pattern without the flag [m]: a match at the
    start of the line. *)
Definition test_at_start (r : re) (line : text) : bool :=
  match match_here r 0 None line with
  | Some _ => true
  | None => false
  end.

(** [\s*(?:void|int|bool|long|float)\s+\w+\s*\(] and
    [(?:int|long|float|double|char|byte|boolean)\s+], both after [^]. *)
Definition functionStart : re :=
  Seq (Star true (Chr is_space))
  (Seq (Alt (Lit (txt "void")) (Alt (Lit (txt "int")) (Alt (Lit (txt "bool"))
       (Alt (Lit (txt "long")) (Lit (txt "float"))))))
  (Seq (Plus (Chr is_space))
  (Seq (Plus (Chr is_word))
  (Seq (Star true (Chr is_space)) (Chr (ceq "(")))))).

Definition globalDeclaration : re :=
  Seq (Alt (Lit (txt "int")) (Alt (Lit (txt "long")) (Alt (Lit (txt "float"))
      (Alt (Lit (txt "double")) (Alt (Lit (txt "char")) (Alt (Lit (txt "byte"))
           (Lit (txt "boolean"))))))))
      (Plus (Chr is_space)).

(** The state of the loop over the lines: [insideFunction], [globalCount]
    and [firstGlobalLine] ([None] is [-1]). *)
Record LineState := {
  insideFunction : bool;
  globalCount : nat;
  firstGlobalLine : option nat
}.

Definition line_step (i : nat) (st : LineState) (line : text) : LineState :=
  let insideFunction :=
    if test_at_start functionStart line then true else insideFunction st in
  if negb insideFunction && test_at_start globalDeclaration line then
    let commas := count_occ ascii_dec line ","%char in
    {| insideFunction := insideFunction;
       globalCount := globalCount st + (commas + 1);
       firstGlobalLine :=
         match firstGlobalLine st with
         | None => Some i
         | Some l => Some l
         end |}
  else
    {| insideFunction := insideFunction;
       globalCount := globalCount st;
       firstGlobalLine := firstGlobalLine st |}.

Fixpoint lines_loop (i : nat) (lines : list text) (st : LineState) : LineState :=
  match lines with
  | [] => st
  | line :: lines' => lines_loop (S i) lines' (line_step i st line)
  end.

Definition validateGlobalVariables (text : text) (document : Diagnostics.TextDocument)
    : list Diagnostic :=
  let lines := split_lines text in
  let st := lines_loop 0 lines
              {| insideFunction := false; globalCount := 0; firstGlobalLine := None |} in
  match firstGlobalLine st with
  | Some firstGlobalLine =>
    if 15 <=? globalCount st then
      [ {| severity := Diagnostics.Information;
           range := {| Diagnostics.range_start :=
                         {| Diagnostics.line := firstGlobalLine; Diagnostics.character := 0 |};
                       Diagnostics.range_end :=
                         {| Diagnostics.line := firstGlobalLine; Diagnostics.character := 3 |} |};
           message := global_variables_detected (globalCount st);
           source := "Sentinel"; code := "excessive-globals" |} ]
    else []
  | None => []
  end.

End Validators.

(** ** The older copy of the provider: validateDocument

    The older copy awaits [Promise.all] of six validators, with no [catch]
    on any of them and no [try] around the whole. *)

Module LegacyDocument.
Import Diagnostics.

Definition registry : list Validator :=
  [ validatePinUsage_; validateStackUsage_; validateProtocolConfiguration_;
    validateHardwareConstraints_; validateInterruptUsage_; validateMemoryAccess_ ].

(** An [async] method that awaits a rejected promise rejects with the same
    error; [diagnostics.push(...validation)] appends the arrays in order. *)
Definition validateDocument (methods : Methods) (document : TextDocument)
    : promise (list Diagnostic) :=
  let text := getText document in
  let diagnostics := [] in
  match Promise_all (map (fun v => methods v text document) registry) with
  | resolved validations =>
    resolved (fold_left (fun diagnostics validation => diagnostics ++ validation)
                        validations diagnostics)
  | rejected e => rejected e
  end.

End LegacyDocument.

(* ===================================================================== *)
(** * Properties *)
(* ===================================================================== *)

Lemma ceq_true c d : ceq c d = true <-> c = d.
Proof. apply Ascii.eqb_eq. Qed.

Lemma ceq_false c d : ceq c d = false <-> c <> d.
Proof. apply Ascii.eqb_neq. Qed.

Lemma ceq_refl c : ceq c c = true.
Proof. apply Ascii.eqb_refl. Qed.

(** ** The comment stripper *)

Section StripFacts.
Import CommentStripper.

(** A character that is neither a quote nor a slash is copied by the main
    loop outside literals, whatever follows it. *)
Definition plain (c : ascii) : Prop :=
  c <> dquote /\ c <> squote /\ c <> slash.

Lemma strip_loop_plain c rest :
  plain c -> strip_loop false false (c :: rest) = c :: strip_loop false false rest.
Proof.
  intros (Hd & Hs & Hsl). simpl.
  apply ceq_false in Hd, Hs, Hsl. rewrite Hd, Hs, Hsl. simpl.
  by destruct rest.
Qed.

Lemma plain_space : plain space.
Proof. by repeat split. Qed.

Lemma plain_newline : plain newline.
Proof. by repeat split. Qed.

Lemma plain_blank c : plain (if ceq c newline then newline else space).
Proof. destruct (ceq c newline); [apply plain_newline | apply plain_space]. Qed.

(** Outside literals, the first character of the output is the first
    character of the input unless that one is a slash. *)
Lemma strip_loop_head c rest :
  c <> slash -> exists out, strip_loop false false (c :: rest) = c :: out.
Proof.
  intros Hsl. apply ceq_false in Hsl. simpl. rewrite Hsl. simpl.
  destruct (ceq c dquote); [eauto|].
  destruct (ceq c squote); [eauto|].
  destruct rest; eauto.
Qed.

Lemma strip_block_cons c rest :
  strip_block (c :: rest) =
  (if ceq c newline then newline else space) ::
  match rest with
  | c' :: rest' =>
    if ceq c star && ceq c' slash then space :: strip_loop false false rest'
    else strip_block rest
  | [] => strip_block rest
  end.
Proof. reflexivity. Qed.

Lemma strip_line_cons c rest :
  strip_line (c :: rest) =
  if ceq c newline then newline :: strip_loop false false rest
  else space :: strip_line rest.
Proof. reflexivity. Qed.

Lemma strip_idem_aux n : forall code, length code <= n ->
  (forall inS inC,
     strip_loop inS inC (strip_loop inS inC code) = strip_loop inS inC code) /\
  strip_loop false false (strip_block code) = strip_block code /\
  strip_loop false false (strip_line code) = strip_line code.
Proof.
  induction n as [|n IH]; intros code Hlen.
  { destruct code; [|simpl in Hlen; lia]. by repeat split. }
  destruct code as [|c rest]; [by repeat split|].
  simpl in Hlen.
  assert (Hrest : length rest <= n) by lia.
  destruct (IH rest Hrest) as (IHloop & IHblock & IHline).
  split; [|split].
  - (* the main loop *)
    intros inS inC. simpl.
    destruct ((inS || inC) && ceq c backslash) eqn:Eesc.
    { destruct rest as [|nx rest']; simpl; rewrite Eesc; [done|].
      f_equal. f_equal. apply IH. simpl in Hrest. lia. }
    destruct (negb inC && ceq c dquote) eqn:Edq.
    { simpl. rewrite Eesc, Edq. f_equal. apply IHloop. }
    destruct (negb inS && ceq c squote) eqn:Esq.
    { simpl. rewrite Eesc, Edq, Esq. f_equal. apply IHloop. }
    destruct (inS || inC) eqn:Elit.
    { simpl. rewrite Elit, Eesc, Edq, Esq. f_equal. apply IHloop. }
    apply orb_false_iff in Elit as [-> ->]. simpl in Edq, Esq.
    destruct rest as [|nx rest'].
    { simpl. rewrite Edq, Esq. done. }
    destruct (ceq c slash && ceq nx star) eqn:Eblk.
    { rewrite strip_loop_plain by apply plain_space. f_equal.
      apply IH. simpl in Hrest. lia. }
    destruct (ceq c slash && ceq nx slash) eqn:Elin.
    { rewrite strip_loop_plain by apply plain_space. f_equal.
      apply IH. simpl in Hrest. lia. }
    (* an ordinary character: it is copied, and what follows it in the
       output cannot complete a comment delimiter *)
    destruct (ceq c slash) eqn:Esl.
    + simpl in Eblk, Elin.
      destruct (strip_loop_head nx rest') as [out Hout].
      { by apply ceq_false. }
      rewrite <- (IHloop false false) at 2.
      rewrite Hout. simpl. rewrite Edq, Esq, Esl, Eblk, Elin. simpl. done.
    + rewrite <- (IHloop false false) at 2.
      generalize (strip_loop false false (nx :: rest')). intros out.
      simpl. rewrite Edq, Esq, Esl. simpl. by destruct out.
  - (* inside a block comment *)
    rewrite strip_block_cons, strip_loop_plain by apply plain_blank. f_equal.
    destruct rest as [|c' rest']; [done|].
    destruct (ceq c star && ceq c' slash).
    + rewrite strip_loop_plain by apply plain_space. f_equal.
      apply IH. simpl in Hrest. lia.
    + apply IHblock.
  - (* inside a line comment *)
    rewrite strip_line_cons. destruct (ceq c newline).
    + rewrite strip_loop_plain by apply plain_newline. f_equal. apply IHloop.
    + rewrite strip_loop_plain by apply plain_space. f_equal. apply IHline.
Qed.

(** C9: [strip] is idempotent: [strip (strip T) = strip T] for every text
    [T].  A comment is replaced by at least one blank, so no delimiter can
    form across the place where it was, and literals are copied as they
    are. *)
Theorem strip_idempotent (T : text) : strip (strip T) = strip T.
Proof.
  unfold strip. by apply (strip_idem_aux (length T) T).
Qed.

(** Line numbers survive: [strip] keeps the number of newlines. *)
Definition newlines (t : text) : nat := count_occ ascii_dec t newline.

Lemma newlines_cons c t :
  newlines (c :: t) = (if ceq c newline then 1 else 0) + newlines t.
Proof.
  unfold newlines. simpl. destruct (ascii_dec c newline) as [->|Hne].
  - by rewrite ceq_refl.
  - apply ceq_false in Hne. by rewrite Hne.
Qed.

Lemma strip_newlines_aux n : forall code, length code <= n ->
  (forall inS inC, newlines (strip_loop inS inC code) = newlines code) /\
  newlines (strip_block code) = newlines code /\
  newlines (strip_line code) = newlines code.
Proof.
  induction n as [|n IH]; intros code Hlen.
  { destruct code; [|simpl in Hlen; lia]. by repeat split. }
  destruct code as [|c rest]; [by repeat split|].
  simpl in Hlen.
  assert (Hrest : length rest <= n) by lia.
  destruct (IH rest Hrest) as (IHloop & IHblock & IHline).
  split; [|split].
  - intros inS inC. simpl.
    destruct ((inS || inC) && ceq c backslash).
    { destruct rest as [|nx rest']; [done|].
      rewrite !newlines_cons. f_equal. f_equal. apply IH. simpl in Hrest. lia. }
    destruct (negb inC && ceq c dquote).
    { rewrite !newlines_cons. f_equal. apply IHloop. }
    destruct (negb inS && ceq c squote).
    { rewrite !newlines_cons. f_equal. apply IHloop. }
    destruct (inS || inC).
    { rewrite !newlines_cons. f_equal. apply IHloop. }
    destruct rest as [|nx rest'].
    { rewrite !newlines_cons. f_equal. }
    destruct (ceq c slash && ceq nx star) eqn:Eblk.
    { apply andb_true_iff in Eblk as [->%ceq_true ->%ceq_true].
      rewrite !newlines_cons. simpl. apply IH. simpl in Hrest. lia. }
    destruct (ceq c slash && ceq nx slash) eqn:Elin.
    { apply andb_true_iff in Elin as [->%ceq_true ->%ceq_true].
      rewrite !newlines_cons. simpl. apply IH. simpl in Hrest. lia. }
    rewrite (newlines_cons c), (newlines_cons c (nx :: rest')). f_equal.
    apply IHloop.
  - rewrite strip_block_cons, !newlines_cons.
    assert (Hb : (if ceq (if ceq c newline then newline else space) newline
                  then 1 else 0) = (if ceq c newline then 1 else 0))
      by (by destruct (ceq c newline)).
    rewrite Hb. f_equal.
    destruct rest as [|c' rest']; [done|].
    destruct (ceq c star && ceq c' slash) eqn:Eend; [|apply IHblock].
    apply andb_true_iff in Eend as [_ ->%ceq_true].
    rewrite !newlines_cons. simpl. apply IH. simpl in Hrest. lia.
  - rewrite strip_line_cons. destruct (ceq c newline) eqn:Enl.
    + rewrite !newlines_cons, Enl. f_equal. apply IHloop.
    + rewrite !newlines_cons, Enl. simpl. apply IHline.
Qed.

Lemma strip_newlines (T : text) : newlines (strip T) = newlines T.
Proof. unfold strip. by apply (strip_newlines_aux (length T) T). Qed.

(** C1 (the code departs from it): [strip] is documented to replace
    comments with spaces "to preserve positions", but the two characters of
    an opening delimiter are replaced by one space, so every comment makes
    the text one character shorter and moves what follows it.  On
    [a/*b*/c] the result has 6 characters instead of 7 and [c] moves from
    offset 6 to offset 5; on a line comment the newline after it moves
    from offset 3 to offset 2. *)
Theorem strip_shortens_comments :
  strip (txt "a/*b*/c") = txt "a    c" /\
  length (txt "a/*b*/c") = 7 /\ length (strip (txt "a/*b*/c")) = 6 /\
  txt "a/*b*/c" !! 6 = Some ("c" : ascii) /\
  strip (txt "a/*b*/c") !! 6 = None /\
  strip (txt "a/*b*/c") !! 5 = Some ("c" : ascii) /\
  strip (slash :: slash :: "x"%char :: newline :: txt "y") = space :: space :: newline :: txt "y" /\
  (slash :: slash :: "x"%char :: newline :: txt "y") !! 3 = Some newline /\
  strip (slash :: slash :: "x"%char :: newline :: txt "y") !! 3 = Some ("y" : ascii).
Proof. repeat split; reflexivity. Qed.

End StripFacts.

(** ** [isInComment] and literals *)

Section InCommentFacts.
Import CommentStripper.

(** The contents of a literal closed by the quote [q]: ordinary characters
    other than [q] and the backslash, and escape pairs (a backslash and any
    character). *)
Fixpoint lit_body (q : ascii) (t : text) : bool :=
  match t with
  | [] => true
  | c :: r =>
    if ceq c backslash then
      match r with
      | _ :: r' => lit_body q r'
      | [] => false
      end
    else negb (ceq c q) && lit_body q r
  end.

(** A comment body without the closing delimiter. *)
Fixpoint no_close (b : text) : bool :=
  match b with
  | [] => true
  | c :: r => negb (ceq c star && at_is slash r) && no_close r
  end.

(** Text that the scanner crosses from code mode back to code mode: ordinary
    characters, slashes that open no comment, whole string and character
    literals, whole block comments, line comments with their newline. *)
Inductive code_run : text -> Prop :=
  | run_nil : code_run []
  | run_plain c t :
      c <> dquote -> c <> squote -> c <> slash ->
      code_run t -> code_run (c :: t)
  | run_slash t :
      at_is slash t = false -> at_is star t = false ->
      code_run t -> code_run (slash :: t)
  | run_string body t :
      lit_body dquote body = true ->
      code_run t -> code_run (dquote :: body ++ dquote :: t)
  | run_char body t :
      lit_body squote body = true ->
      code_run t -> code_run (squote :: body ++ squote :: t)
  | run_block b t :
      no_close b = true ->
      code_run t -> code_run (slash :: star :: b ++ star :: slash :: t)
  | run_line b t :
      forallb (fun c => negb (ceq c newline)) b = true ->
      code_run t -> code_run (slash :: slash :: b ++ newline :: t).

(** The flags while a literal closed by [q] is open. *)
Definition in_literal (q : ascii) (inS inC : bool) : Prop :=
  (q = dquote /\ inS = true /\ inC = false) \/
  (q = squote /\ inS = false /\ inC = true).

Lemma isInComment_loop_0 inS inC code : isInComment_loop inS inC code 0 = false.
Proof. by destruct code. Qed.

(** Inside a literal the scanner only advances: by two on an escape pair, by
    one otherwise; no offset in it is in a comment. *)
Lemma isInComment_loop_literal q inS inC body X :
  in_literal q inS inC -> lit_body q body = true ->
  forall n,
    isInComment_loop inS inC (body ++ X) n =
    if n <=? length body then false
    else isInComment_loop inS inC X (n - length body).
Proof.
  intros Hq. remember (length body) as m eqn:Hm.
  revert body Hm. induction m as [m IH] using lt_wf_ind.
  intros body -> Hbody n.
  destruct body as [|c r].
  { simpl. destruct n; [by rewrite isInComment_loop_0|]. done. }
  destruct n as [|n]; [done|].
  simpl in Hbody.
  change (isInComment_loop inS inC ((c :: r) ++ X) (S n))
    with (isInComment_loop inS inC (c :: (r ++ X)) (S n)).
  destruct (ceq c backslash) eqn:Ebs.
  - destruct r as [|d r']; [done|].
    assert (Hlit : (inS || inC) = true) by (destruct Hq as [(_&->&->)|(_&->&->)]; done).
    simpl. rewrite Hlit, Ebs. simpl.
    rewrite (IH (length r')) by (simpl; lia || done).
    destruct (Nat.leb_spec (n - 1) (length r'));
      destruct (Nat.leb_spec n (S (length r'))); try lia; try done.
    f_equal. lia.
  - apply andb_true_iff in Hbody as [Hcq Hr].
    apply negb_true_iff in Hcq.
    assert (Hstep : isInComment_loop inS inC (c :: r ++ X) (S n) =
                    isInComment_loop inS inC (r ++ X) n).
    { simpl. rewrite Nat.sub_0_r.
      destruct Hq as [(->&->&->)|(->&->&->)]; simpl; rewrite Ebs, Hcq; done. }
    rewrite Hstep, (IH (length r)) by (simpl; lia || done).
    simpl length.
    destruct (Nat.leb_spec n (length r));
      destruct (Nat.leb_spec (S n) (S (length r))); try lia; done.
Qed.

Lemma inBlock_body b Y : no_close b = true ->
  forall n k,
    inBlock (b ++ star :: slash :: Y) n k =
    if n <? k + length b + 2 then true
    else isInComment_loop false false Y (n - (k + length b + 2)).
Proof.
  induction b as [|c r IH]; intros Hb n k.
  { simpl. rewrite Nat.add_0_r. done. }
  simpl in Hb. apply andb_true_iff in Hb as [Hc Hr].
  apply negb_true_iff in Hc.
  change (inBlock ((c :: r) ++ star :: slash :: Y) n k)
    with (inBlock (c :: (r ++ star :: slash :: Y)) n k).
  assert (Hstep : inBlock (c :: (r ++ star :: slash :: Y)) n k =
                  inBlock (r ++ star :: slash :: Y) n (k + 1)).
  { destruct r as [|c' r'].
    - simpl. destruct (ceq c star); done.
    - simpl in Hc. simpl. rewrite Hc. done. }
  rewrite Hstep, IH by done. simpl length.
  replace (k + 1 + length r + 2) with (k + S (length r) + 2) by lia. done.
Qed.

Lemma inLine_body b Y : forallb (fun c => negb (ceq c newline)) b = true ->
  forall n k,
    inLine (b ++ newline :: Y) n k =
    if n <? k + length b then true
    else isInComment_loop false false Y (n - (k + length b + 1)).
Proof.
  induction b as [|c r IH]; intros Hb n k.
  { simpl. rewrite Nat.add_0_r. done. }
  simpl in Hb. apply andb_true_iff in Hb as [Hc Hr].
  apply negb_true_iff in Hc.
  simpl. rewrite Hc, IH by done.
  replace (k + 1 + length r) with (k + S (length r)) by lia. done.
Qed.

(** Crossing a run of code: an offset at or after its end is classified by
    what follows the run. *)
Lemma code_run_cross pre : code_run pre ->
  forall X n,
    at_is slash X = false -> at_is star X = false -> length pre <= n ->
    isInComment_loop false false (pre ++ X) n =
    isInComment_loop false false X (n - length pre).
Proof.
  induction 1 as [|c t Hd Hs Hsl Ht IH|t Hns Hnst Ht IH|body t Hbody Ht IH
                  |body t Hbody Ht IH|b t Hb Ht IH|b t Hb Ht IH];
    intros X n HX1 HX2 Hn.
  - simpl. by rewrite Nat.sub_0_r.
  - simpl in Hn. destruct n as [|n]; [lia|].
    apply ceq_false in Hd, Hs, Hsl.
    simpl. rewrite Hd, Hs, Hsl, Nat.sub_0_r. simpl.
    rewrite <- IH by (done || lia). by destruct (t ++ X).
  - simpl in Hn. destruct n as [|n]; [lia|].
    assert (Hnext : at_is star (t ++ X) = false /\ at_is slash (t ++ X) = false).
    { destruct t; simpl in *; done. }
    destruct Hnext as [Hn1 Hn2].
    simpl. rewrite Nat.sub_0_r.
    rewrite <- IH by (done || lia).
    destruct (t ++ X) as [|c' r'] eqn:E; [done|].
    simpl in Hn1, Hn2. rewrite Hn1, Hn2. done.
  - simpl in Hn. rewrite length_app in Hn. simpl in Hn.
    destruct n as [|n]; [lia|].
    simpl. rewrite Nat.sub_0_r, <- app_assoc.
    rewrite (isInComment_loop_literal dquote) by (done || by left).
    destruct (Nat.leb_spec n (length body)); [lia|].
    simpl. destruct (n - length body) as [|n'] eqn:En; [lia|].
    simpl. rewrite Nat.sub_0_r, IH by (done || lia).
    f_equal. rewrite length_app. simpl. lia.
  - simpl in Hn. rewrite length_app in Hn. simpl in Hn.
    destruct n as [|n]; [lia|].
    simpl. rewrite Nat.sub_0_r, <- app_assoc.
    rewrite (isInComment_loop_literal squote) by (done || by right).
    destruct (Nat.leb_spec n (length body)); [lia|].
    simpl. destruct (n - length body) as [|n'] eqn:En; [lia|].
    simpl. rewrite Nat.sub_0_r, IH by (done || lia).
    f_equal. rewrite length_app. simpl. lia.
  - simpl in Hn. rewrite length_app in Hn. simpl in Hn.
    destruct n as [|n]; [lia|].
    simpl. rewrite <- app_assoc. simpl.
    rewrite inBlock_body by done.
    destruct (Nat.ltb_spec (S n) (2 + length b + 2)); [lia|].
    rewrite IH by (done || lia).
    f_equal. rewrite length_app. simpl. lia.
  - simpl in Hn. rewrite length_app in Hn. simpl in Hn.
    destruct n as [|n]; [lia|].
    simpl. rewrite <- app_assoc. simpl.
    rewrite inLine_body by done.
    destruct (Nat.ltb_spec (S n) (2 + length b)); [lia|].
    rewrite IH by (done || lia).
    f_equal. rewrite length_app. simpl. lia.
Qed.

(** C4: [isInComment] never takes quoted comment delimiters for comments.
    While a string or character literal is open, a backslash and the
    character after it are consumed together; and for every text made of a
    run of code [pre], the opening quote [q], literal contents [body]
    (which may hold [//], [/*] and escaped quotes) and anything after, no
    offset from the opening quote to the end of [body] is in a comment. *)
Theorem isInComment_quoted_delimiters
    (q : ascii) (inS inC : bool) (pre body post : text) (p : nat)
    (d : ascii) (rest : text) (n : nat) :
  in_literal q inS inC ->
  code_run pre ->
  lit_body q body = true ->
  length pre <= p <= length pre + 1 + length body ->
  isInComment_loop inS inC (backslash :: d :: rest) (S n) =
    isInComment_loop inS inC rest (n - 1) /\
  isInComment (pre ++ q :: body ++ post) p = false.
Proof.
  intros Hq Hpre Hbody [Hp1 Hp2]. split.
  - assert (Hlit : (inS || inC) = true)
      by (destruct Hq as [(_&->&->)|(_&->&->)]; done).
    simpl. by rewrite Hlit.
  - unfold isInComment.
    assert (Hq1 : at_is slash (q :: body ++ post) = false)
      by (destruct Hq as [(->&_)|(->&_)]; done).
    assert (Hq2 : at_is star (q :: body ++ post) = false)
      by (destruct Hq as [(->&_)|(->&_)]; done).
    rewrite code_run_cross by done.
    destruct (p - length pre) as [|m] eqn:Em; [done|].
    assert (Hopen : isInComment_loop false false (q :: body ++ post) (S m) =
                    isInComment_loop inS inC (body ++ post) m).
    { simpl. rewrite Nat.sub_0_r.
      destruct Hq as [(->&->&->)|(->&->&->)]; simpl; by destruct (body ++ post). }
    rewrite Hopen, (isInComment_loop_literal q) by done.
    destruct (Nat.leb_spec m (length body)); [done|lia].
Qed.

(** The declaration of the specification whose string literal holds an
    escaped quote followed by two slashes: the offset of the first slash
    (20), after the escaped quote, is not in a comment. *)
Definition escaped_quote_decl : text :=
  txt "const char* s = " ++ dquote :: txt "a\" ++ dquote :: txt "//b" ++ dquote :: txt ";".

Lemma isInComment_quoted_delimiters_witness :
  in_literal dquote true false /\
  code_run (txt "const char* s = ") /\
  lit_body dquote (txt "a\" ++ dquote :: txt "//b") = true /\
  length (txt "const char* s = ") <= 20 <=
    length (txt "const char* s = ") + 1 + length (txt "a\" ++ dquote :: txt "//b") /\
  isInComment_loop true false (backslash :: dquote :: txt "//b") 2 =
    isInComment_loop true false (txt "//b") 0 /\
  isInComment escaped_quote_decl 20 = false.
Proof.
  assert (H1 : in_literal dquote true false) by (by left).
  assert (H2 : code_run (txt "const char* s = "))
    by (repeat (apply run_plain; [discriminate..|]); apply run_nil).
  assert (H3 : lit_body dquote (txt "a\" ++ dquote :: txt "//b") = true)
    by reflexivity.
  assert (H4 : length (txt "const char* s = ") <= 20 <=
    length (txt "const char* s = ") + 1 + length (txt "a\" ++ dquote :: txt "//b"))
    by (simpl; lia).
  repeat (split; [assumption|]).
  exact (isInComment_quoted_delimiters dquote true false
           (txt "const char* s = ") (txt "a\" ++ dquote :: txt "//b")
           (dquote :: txt ";") 20 dquote (txt "//b") 1 H1 H2 H3 H4).
Defined.

(** The specification's call at offset 5 of the string literal alone, and
    every other offset of that text. *)
Example isInComment_spec_example :
  forallb (fun p => negb (isInComment
     (dquote :: txt "a\" ++ dquote :: txt "//b" ++ [dquote]) p)) (seq 0 10) = true.
Proof. reflexivity. Qed.

(** Outside a literal the same characters are a comment. *)
Example isInComment_real_comment :
  isInComment (txt "x = 1; // note") 8 = true /\
  isInComment (txt "x = 1; // note") 7 = false /\
  isInComment (txt "a /* b */ c") 5 = true /\
  isInComment (txt "a /* b */ c") 10 = false.
Proof. repeat split; reflexivity. Qed.

End InCommentFacts.

(** ** The pin tracker *)

Section PinTrackerFacts.
Import PinTracker.

(** The kind classes of the specification, on the list of kinds of a pin. *)
Definition output_class (types : list UsageType) : bool :=
  includes types digital_output || includes types pwm.
Definition input_class (types : list UsageType) : bool :=
  includes types digital_input || includes types analog_input.
Definition digital_io (types : list UsageType) : bool :=
  includes types digital_output || includes types digital_input.
Definition protocol_class (types : list UsageType) : bool :=
  includes types i2c_sda || includes types i2c_scl ||
  includes types spi_ss || includes types spi_mosi ||
  includes types spi_miso || includes types spi_sck.
Definition serial_class (types : list UsageType) : bool :=
  includes types serial_rx || includes types serial_tx.

Definition conflict_condition (types : list UsageType) : bool :=
  (output_class types && input_class types) ||
  (includes types interrupt && includes types digital_output) ||
  (protocol_class types && digital_io types).

Definition warning_condition (types : list UsageType) : bool :=
  serial_class types && digital_io types.

(** The usages of pin [p] in a sequence, in order. *)
Definition usages_of (p : Z) (l : list Usage) : list Usage :=
  List.filter (fun u => Z.eqb (pin u) p) l.

Lemma usages_of_app p l1 l2 :
  usages_of p (l1 ++ l2) = usages_of p l1 ++ usages_of p l2.
Proof. apply List.filter_app. Qed.

Lemma usages_of_nil p l :
  (forall u, In u l -> Z.eqb (pin u) p = false) -> usages_of p l = [].
Proof.
  induction l as [|u l IH]; intros H; [done|].
  unfold usages_of. simpl. rewrite (H u) by (by left).
  apply IH. intros u' Hu'. apply H. by right.
Qed.

(** What the map holds after the usages [l] have been added. *)
Record fill_inv (l : list Usage) (m : PinMap) : Prop := {
  inv_keys : NoDup (map fst m);
  inv_groups : forall p us, In (p, us) m -> us = usages_of p l /\ us <> [];
  inv_all : forall u, In u l -> has m (pin u) = true
}.

Lemma has_true m p : has m p = true <-> In p (map fst m).
Proof.
  unfold has. rewrite existsb_exists, in_map_iff. split.
  - intros (e & He & Heq). apply Z.eqb_eq in Heq. eauto.
  - intros (e & Heq & He). exists e. split; [done|]. by apply Z.eqb_eq.
Qed.

Lemma get_push_keys m p u : map fst (get_push m p u) = map fst m.
Proof.
  induction m as [|[k us] m IH]; [done|]. simpl.
  destruct (Z.eqb k p); simpl; [done|]. by rewrite IH.
Qed.

Lemma get_push_in m p u q us :
  NoDup (map fst m) ->
  In (q, us) (get_push m p u) <->
  (q = p /\ exists us0, In (p, us0) m /\ us = us0 ++ [u]) \/
  (q <> p /\ In (q, us) m).
Proof.
  induction m as [|[k us0] m IH]; intros Hnd.
  { simpl. split; [done|]. by intros [(_&?&[]&_)|(_&[])]. }
  simpl in Hnd. apply NoDup_cons in Hnd as [Hk Hnd]. simpl.
  destruct (Z.eqb_spec k p) as [->|Hkp]; simpl.
  - split.
    + intros [[= <- <-]|Hin].
      * left. split; [done|]. exists us0. by split; [left|].
      * right. split; [|by right].
        intros ->. apply Hk. rewrite list_elem_of_In, in_map_iff. by exists (p, us).
    + intros [(-> & us1 & [[= ->]|Hin] & ->)|(Hq & [[= ? ?]|Hin])].
      * by left.
      * exfalso. apply Hk. rewrite list_elem_of_In, in_map_iff. by exists (p, us1).
      * done.
      * by right.
  - rewrite IH by done. split.
    + intros [[= <- <-]|[(-> & us1 & Hin & ->)|(Hq & Hin)]].
      * right. split; [done|by left].
      * left. split; [done|]. exists us1. split; [by right|done].
      * right. split; [done|by right].
    + intros [(-> & us1 & [[= ? ?]|Hin] & ->)|(Hq & [[= <- <-]|Hin])].
      * done.
      * right. left. split; [done|]. by exists us1.
      * by left.
      * right. right. by split.
Qed.

Lemma add_usage_inv l m u : fill_inv l m -> fill_inv (l ++ [u]) (add_usage m u).
Proof.
  intros [Hk Hg Ha]. unfold add_usage.
  destruct (has m (pin u)) eqn:Hhas; simpl.
  - (* the pin has an entry *)
    split.
    + by rewrite get_push_keys.
    + intros p us Hin. apply get_push_in in Hin; [|done].
      rewrite usages_of_app.
      destruct Hin as [(-> & us0 & Hin & ->)|(Hp & Hin)].
      * destruct (Hg _ _ Hin) as [-> _]. split.
        -- f_equal. unfold usages_of. simpl. by rewrite Z.eqb_refl.
        -- by destruct (usages_of (pin u) l).
      * destruct (Hg _ _ Hin) as [-> Hne]. split; [|done].
        unfold usages_of at 3. simpl.
        destruct (Z.eqb_spec (pin u) p); [congruence|]. by rewrite app_nil_r.
    + intros u' Hin. rewrite has_true, get_push_keys, <- has_true.
      apply in_app_iff in Hin as [Hin|[<-|[]]]; [by apply Ha|done].
  - (* a new entry is set first *)
    assert (Hnew : ~ In (pin u) (map fst m))
      by (rewrite <- has_true, Hhas; done).
    assert (Hk' : NoDup (map fst (set_empty m (pin u)))).
    { unfold set_empty. rewrite map_app. simpl. apply NoDup_app.
      split; [done|]. split; [|apply NoDup_singleton].
      intros x Hx ->%list_elem_of_singleton. by apply Hnew, list_elem_of_In. }
    assert (Hnone : usages_of (pin u) l = []).
    { apply usages_of_nil.
      intros u' Hu'. destruct (Z.eqb_spec (pin u') (pin u)) as [Heq|]; [|done].
      exfalso. apply Hnew. rewrite <- Heq, <- has_true. by apply Ha. }
    split.
    + by rewrite get_push_keys.
    + intros p us Hin. apply get_push_in in Hin; [|done].
      rewrite usages_of_app. unfold set_empty in Hin.
      destruct Hin as [(-> & us0 & Hin & ->)|(Hp & Hin)].
      * apply in_app_iff in Hin as [Hin|[[= <-]|[]]].
        -- exfalso. apply Hnew. rewrite in_map_iff. by exists (pin u, us0).
        -- rewrite Hnone. split; [|done].
           unfold usages_of. simpl. by rewrite Z.eqb_refl.
      * apply in_app_iff in Hin as [Hin|[[= ? ?]|[]]]; [|done].
        destruct (Hg _ _ Hin) as [-> Hne]. split; [|done].
        unfold usages_of at 3. simpl.
        destruct (Z.eqb_spec (pin u) p); [congruence|]. by rewrite app_nil_r.
    + intros u' Hin. rewrite has_true, get_push_keys. unfold set_empty.
      rewrite map_app, in_app_iff. simpl.
      apply in_app_iff in Hin as [Hin|[<-|[]]]; [|by right; left].
      left. rewrite <- has_true. by apply Ha.
Qed.

Lemma fill_inv_fill l : fill_inv l (fill l).
Proof.
  unfold fill. induction l as [|u l IH] using rev_ind.
  - split; simpl; [constructor|done|done].
  - rewrite fold_left_app. simpl. by apply add_usage_inv.
Qed.

(** Fewer than two usages satisfy no condition, so the guard
    [usages.length > 1] changes nothing. *)
Lemma single_usage_no_condition (us : list Usage) :
  (1 <? length us) = false ->
  conflict_condition (map type us) = false /\
  warning_condition (map type us) = false.
Proof.
  destruct us as [|u [|u' us]]; [done| |done].
  intros _. simpl. by destruct (type u).
Qed.

(** The status that the consecutive checks leave: the serial check is the
    last to assign, so it decides whenever it applies. *)
Lemma annotate_status p us :
  status (annotate p us) =
  if warning_condition (map type us) then warning
  else if conflict_condition (map type us) then conflict
  else valid.
Proof.
  unfold annotate. destruct (1 <? length us) eqn:Hlen.
  - unfold warning_condition, conflict_condition, output_class, input_class,
      protocol_class, serial_class, digital_io. simpl.
    destruct ((includes (map type us) serial_rx || includes (map type us) serial_tx) &&
              (includes (map type us) digital_output || includes (map type us) digital_input));
      [done|].
    destruct ((includes (map type us) i2c_sda || includes (map type us) i2c_scl ||
               includes (map type us) spi_ss || includes (map type us) spi_mosi ||
               includes (map type us) spi_miso || includes (map type us) spi_sck) &&
              (includes (map type us) digital_output || includes (map type us) digital_input));
      [by rewrite orb_true_r|].
    destruct (includes (map type us) interrupt && includes (map type us) digital_output);
      [by rewrite orb_true_r|].
    by destruct ((includes (map type us) digital_output || includes (map type us) pwm) &&
                 (includes (map type us) digital_input || includes (map type us) analog_input)).
  - destruct (single_usage_no_condition us Hlen) as [-> ->]. done.
Qed.

(** C2 (as the code has it): the checks of [detectConflicts] run in a fixed
    order and the last one that applies decides.  Every record of
    [buildPinMap] holds the usages of its pin in order; its status is
    [warning] whenever the kinds satisfy the serial-plus-digital condition,
    also when a conflict condition holds as well; it is [conflict] when a
    conflict condition holds and the serial-plus-digital one does not, and
    [valid] when none holds. *)
Theorem buildPinMap_last_check_decides (us : list Usage) (r : PinRecord) :
  In r (buildPinMap us) ->
  usages r = usages_of (rec_pin r) us /\ usages r <> [] /\
  (warning_condition (map type (usages r)) = true -> status r = warning) /\
  (warning_condition (map type (usages r)) = false ->
   conflict_condition (map type (usages r)) = true -> status r = conflict) /\
  (warning_condition (map type (usages r)) = false ->
   conflict_condition (map type (usages r)) = false -> status r = valid).
Proof.
  unfold buildPinMap, detectConflicts. rewrite in_map_iff.
  intros ([p g] & <- & Hin). cbn [fst snd].
  destruct (inv_groups _ _ (fill_inv_fill us) p g Hin) as [Hg Hne].
  change (usages (annotate p g)) with g.
  change (rec_pin (annotate p g)) with p.
  repeat split; try done; rewrite annotate_status.
  - by intros ->.
  - by intros -> ->.
  - by intros -> ->.
Qed.

(** The usage sequence of a one-line sketch that calls [pinMode(0, OUTPUT)],
    [pinMode(0, INPUT)] and then [Serial.begin(9600)] in [setup]: the
    [pinMode] calls come first, then the two pins of the serial port. *)
Definition serial_pin_usages : list Usage :=
  [ {| pin := 0; type := digital_output; function := "pinMode"; line := 0; offset := 14 |};
    {| pin := 0; type := digital_input; function := "pinMode"; line := 0; offset := 34 |};
    {| pin := 0; type := serial_rx; function := "Serial"; line := 0; offset := 53 |};
    {| pin := 1; type := serial_tx; function := "Serial"; line := 0; offset := 53 |} ].

Lemma buildPinMap_last_check_decides_witness :
  In (annotate 0 (firstn 3 serial_pin_usages)) (buildPinMap serial_pin_usages) /\
  status (annotate 0 (firstn 3 serial_pin_usages)) = warning.
Proof.
  assert (H : In (annotate 0 (firstn 3 serial_pin_usages))
                 (buildPinMap serial_pin_usages)) by (by left).
  split; [exact H|].
  exact (proj1 (proj2 (proj2
    (buildPinMap_last_check_decides serial_pin_usages _ H))) eq_refl).
Defined.

(** The claim as worded fails there: pin 0 is used as output and as input
    (a conflict condition) and by the serial port, and its record is a
    warning. *)
Lemma conflict_downgraded_to_warning :
  map (fun r => (rec_pin r, status r, message r)) (buildPinMap serial_pin_usages) =
    [ (0%Z, warning, serial_and_digital 0); (1%Z, valid, no_message) ] /\
  conflict_condition [digital_output; digital_input; serial_rx] = true /\
  warning_condition [digital_output; digital_input; serial_rx] = true /\
  ~ (forall r, In r (buildPinMap serial_pin_usages) ->
       conflict_condition (map type (usages r)) = true ->
       warning_condition (map type (usages r)) = true ->
       status r = conflict).
Proof.
  repeat split; try reflexivity.
  intros H. specialize (H (annotate 0 (firstn 3 serial_pin_usages))).
  discriminate H; [by left|reflexivity..].
Qed.

End PinTrackerFacts.

(** ** The diagnostic rule engine *)

Section ValidateDocumentFacts.
Import Diagnostics.

(** What a validator contributes to a pass: its diagnostics, or nothing
    when it throws. *)
Definition contribution (p : promise (list Diagnostic)) : list Diagnostic :=
  match p with
  | resolved l => l
  | rejected _ => []
  end.

Lemma Promise_all_catch (ps : list (promise (list Diagnostic))) :
  Promise_all (map (fun p => catch p (fun _ => [])) ps) =
  resolved (map contribution ps).
Proof.
  induction ps as [|p ps IH]; [done|].
  simpl. rewrite IH. by destruct p.
Qed.

Lemma fold_left_append {A} (ls : list (list A)) (acc : list A) :
  fold_left (fun acc l => acc ++ l) ls acc = acc ++ concat ls.
Proof.
  revert acc. induction ls as [|l ls IH]; intros acc; simpl.
  - by rewrite app_nil_r.
  - by rewrite IH, app_assoc.
Qed.

(** C5: [validateDocument] is fault-isolated per validator.  Whatever the
    validators do on a document, each of them resolving with diagnostics or
    throwing, [validateDocument] resolves, and its value is the
    concatenation, in the order of the registry, of the diagnostics of the
    validators that did not throw; one that throws contributes nothing. *)
Theorem validateDocument_fault_isolated (methods : Methods) (document : TextDocument) :
  validateDocument methods document =
  resolved (concat (map (fun v => contribution (methods v (getText document) document))
                        registry)).
Proof.
  unfold validateDocument.
  rewrite <- (map_map (fun v => methods v (getText document) document)
                      (fun p => catch p (fun _ => []))).
  rewrite Promise_all_catch, fold_left_append, map_map. done.
Qed.

(** One validator throws; the diagnostics of the others are returned. *)
Example validateDocument_one_throws :
  let this := {| hardwareDB := {| boards := []; currentBoard := None |} |} in
  let others : Methods := fun v _ _ =>
    match v with
    | validateStackUsage_ => rejected (thrown "TypeError")
    | _ => resolved []
    end in
  let t := txt "analogWrite(2, 128)" in
  (fun r => match r with
            | resolved ds => map code ds
            | rejected _ => []
            end)
    (validateDocument (provider_methods this others) (document_of t))
  = ["no-pwm-support"%string].
Proof. vm_compute. reflexivity. Qed.

End ValidateDocumentFacts.

(** ** Regular expressions: literals, classes and searches *)

Section RegexFacts.
Import Regex.

Lemma starts_with_app l s : starts_with l s = true -> s = l ++ drop (length l) s.
Proof.
  revert s. induction l as [|c l IH]; intros s H; [done|].
  destruct s as [|d s]; [done|]. simpl in H.
  apply andb_true_iff in H as [->%ceq_true H]. simpl. f_equal. by apply IH.
Qed.

Lemma starts_with_prefix l rest : starts_with l (l ++ rest) = true.
Proof. induction l as [|c l IH]; [done|]. simpl. by rewrite ceq_refl. Qed.

Lemma starts_with_take l s : starts_with l s = true -> take (length l) s = l.
Proof.
  intros H. rewrite (starts_with_app l s H) at 1.
  by rewrite take_app_length.
Qed.

(** The character before the position after the literal [l]. *)
Fixpoint last_or (l : text) (prev : option ascii) : option ascii :=
  match l with
  | [] => prev
  | c :: l' => last_or l' (Some c)
  end.

Lemma run_Seq {R} r1 r2 prev s caps (k : option ascii -> text -> captures -> option R) :
  run (Seq r1 r2) prev s caps k =
  run r1 prev s caps (fun prev' s' caps' => run r2 prev' s' caps' k).
Proof. reflexivity. Qed.

Lemma run_Chr {R} p prev s caps (k : option ascii -> text -> captures -> option R) :
  run (Chr p) prev s caps k =
  match s with
  | c :: s' => if p c then k (Some c) s' caps else None
  | [] => None
  end.
Proof. reflexivity. Qed.

(** A literal matches where the text starts with it. *)
Lemma run_Lit {R} l prev s caps (k : option ascii -> text -> captures -> option R) :
  run (Lit l) prev s caps k =
  if starts_with l s then k (last_or l prev) (drop (length l) s) caps else None.
Proof.
  revert prev s. induction l as [|c l IH]; intros prev s; [done|].
  destruct s as [|d s]; [done|].
  cbn [Lit run starts_with]. rewrite (Ascii.eqb_sym c d) at 1.
  fold (ceq d c). destruct (ceq d c) eqn:E.
  - apply ceq_true in E as ->. rewrite ceq_refl, IH. done.
  - assert (E' : ceq c d = false) by (apply ceq_false; apply ceq_false in E; congruence).
    rewrite E'. done.
Qed.

(** A greedy run of the class [p]: as many characters as possible, giving
    them back one at a time while the rest fails. *)
Fixpoint star_class {R} (p : ascii -> bool) (prev : option ascii) (s : text)
    (k : option ascii -> text -> option R) : option R :=
  match s with
  | c :: s' =>
    if p c then
      match star_class p (Some c) s' k with
      | Some x => Some x
      | None => k prev s
      end
    else k prev s
  | [] => k prev s
  end.

Lemma run_Star_class {R} p prev s caps (k : option ascii -> text -> captures -> option R) :
  run (Star true (Chr p)) prev s caps k =
  star_class p prev s (fun prev' s' => k prev' s' caps).
Proof.
  cbn [run].
  generalize (le_n (length s)). generalize (length s) at 2 3. intros n.
  revert prev s. induction n as [|n IH]; intros prev s Hn.
  { destruct s; [done|simpl in Hn; lia]. }
  destruct s as [|c s]; [done|].
  cbn [star_class star_turns run]. destruct (p c); [|done].
  assert (Hlt : (length s <? length (c :: s)) = true)
    by (apply Nat.ltb_lt; simpl; lia).
  rewrite Hlt. fold (star_turns (R:=R) true (run (Chr p)) k).
  rewrite IH by (simpl in Hn; lia). done.
Qed.

(** What a successful greedy run went over. *)
Lemma star_class_sound {R} p prev s (k : option ascii -> text -> option R) x :
  star_class p prev s k = Some x ->
  exists ws s' prev',
    s = ws ++ s' /\ forallb p ws = true /\ k prev' s' = Some x.
Proof.
  revert prev. induction s as [|c s IH]; intros prev H.
  { exists [], [], prev. by repeat split. }
  cbn [star_class] in H. destruct (p c) eqn:Hp.
  - destruct (star_class p (Some c) s k) as [y|] eqn:Hs.
    + injection H as ->. destruct (IH _ Hs) as (ws & s' & prev' & -> & Hws & Hk).
      exists (c :: ws), s', prev'. repeat split; [|done]. simpl. by rewrite Hp.
    + exists [], (c :: s), prev. by repeat split.
  - exists [], (c :: s), prev. by repeat split.
Qed.

Lemma last_or_app w1 w2 prev : last_or (w1 ++ w2) prev = last_or w2 (last_or w1 prev).
Proof. revert prev. induction w1 as [|c w1 IH]; intros prev; [done|]. apply IH. Qed.

(** The texts that a regular expression can go over (the assertions go over
    the empty text). *)
Inductive matches : re -> text -> Prop :=
  | matches_Chr p c : p c = true -> matches (Chr p) [c]
  | matches_Eps : matches Eps []
  | matches_Seq r1 r2 w1 w2 :
      matches r1 w1 -> matches r2 w2 -> matches (Seq r1 r2) (w1 ++ w2)
  | matches_Alt_l r1 r2 w : matches r1 w -> matches (Alt r1 r2) w
  | matches_Alt_r r1 r2 w : matches r2 w -> matches (Alt r1 r2) w
  | matches_Star_nil g r : matches (Star g r) []
  | matches_Star_cons g r w1 w2 :
      matches r w1 -> matches (Star g r) w2 -> matches (Star g r) (w1 ++ w2)
  | matches_Group i r w : matches r w -> matches (Group i r) w
  | matches_Bol : matches Bol []
  | matches_Eol : matches Eol []
  | matches_WordB : matches WordB [].

Lemma take_consumed0 (w s' : text) :
  take (length (w ++ s') - length s') (w ++ s') = w.
Proof.
  rewrite length_app.
  replace (length w + length s' - length s') with (length w) by lia.
  apply take_app_length.
Qed.

(** The bodies of the capture groups number [i] of a regular expression. *)
Fixpoint bodies (i : nat) (r : re) : list re :=
  match r with
  | Seq r1 r2 | Alt r1 r2 => bodies i r1 ++ bodies i r2
  | Star _ r1 => bodies i r1
  | Group j r1 => (if j =? i then [r1] else []) ++ bodies i r1
  | _ => []
  end.

(** The captures [caps'] are [caps] and, before them, texts of groups of
    [r]. *)
Definition captured (r : re) (caps caps' : captures) : Prop :=
  exists new, caps' = new ++ caps /\
    forall i v, In (i, v) new -> exists ri, In ri (bodies i r) /\ matches ri v.

Lemma captured_refl r caps : captured r caps caps.
Proof. exists []. by split. Qed.

Lemma captured_trans r r1 r2 caps caps1 caps2 :
  (forall i ri, In ri (bodies i r1) -> In ri (bodies i r)) ->
  (forall i ri, In ri (bodies i r2) -> In ri (bodies i r)) ->
  captured r1 caps caps1 -> captured r2 caps1 caps2 -> captured r caps caps2.
Proof.
  intros H1 H2 (new1 & -> & Hn1) (new2 & -> & Hn2).
  exists (new2 ++ new1). split; [by rewrite app_assoc|].
  intros i v [Hin|Hin]%in_app_iff.
  - destruct (Hn2 i v Hin) as (ri & Hri & Hm). exists ri. split; [by apply H2|done].
  - destruct (Hn1 i v Hin) as (ri & Hri & Hm). exists ri. split; [by apply H1|done].
Qed.

(** Whenever the matcher succeeds, it has gone over a text of the regular
    expression, recorded texts of its groups, and gone on at the position
    after it. *)
Lemma run_sound {R} r :
  forall prev s caps (k : option ascii -> text -> captures -> option R) x,
    run r prev s caps k = Some x ->
    exists w s' caps',
      s = w ++ s' /\ matches r w /\ captured r caps caps' /\
      k (last_or w prev) s' caps' = Some x.
Proof.
  induction r as [p| |r1 IH1 r2 IH2|r1 IH1 r2 IH2|g r1 IH1|i r1 IH1| | |];
    intros prev s caps k x H.
  - destruct s as [|c s]; [done|]. cbn [run] in H.
    destruct (p c) eqn:Hp; [|done].
    exists [c], s, caps. split; [done|]. split; [by constructor|].
    split; [apply captured_refl|done].
  - exists [], s, caps. split; [done|]. split; [constructor|].
    split; [apply captured_refl|done].
  - cbn [run] in H. apply IH1 in H as (w1 & s1 & caps1 & -> & Hw1 & Hc1 & H).
    apply IH2 in H as (w2 & s2 & caps2 & -> & Hw2 & Hc2 & H).
    exists (w1 ++ w2), s2, caps2. rewrite app_assoc, last_or_app.
    split; [done|]. split; [by constructor|]. split; [|done].
    apply (captured_trans _ r1 r2 caps caps1); try done;
      intros j rj Hj; cbn [bodies]; apply in_app_iff; auto.
  - cbn [run] in H. destruct (run r1 prev s caps k) as [y|] eqn:H1.
    + injection H as ->. apply IH1 in H1 as (w & s' & caps' & -> & Hw & Hc & H).
      exists w, s', caps'. split; [done|]. split; [by apply matches_Alt_l|].
      split; [|done].
      apply (captured_trans _ r1 r1 caps caps); try done;
        try apply captured_refl; intros j rj Hj; cbn [bodies]; apply in_app_iff; auto.
    + apply IH2 in H as (w & s' & caps' & -> & Hw & Hc & H).
      exists w, s', caps'. split; [done|]. split; [by apply matches_Alt_r|].
      split; [|done].
      apply (captured_trans _ r2 r2 caps caps); try done;
        try apply captured_refl; intros j rj Hj; cbn [bodies]; apply in_app_iff; auto.
  - cbn [run] in H. revert H. generalize (length s). intros n.
    revert prev s caps x. induction n as [|n IHn]; intros prev s caps x H.
    { exists [], s, caps. split; [done|]. split; [constructor|].
      split; [apply captured_refl|done]. }
    assert (Hturn : forall y,
      run r1 prev s caps (fun prev' s' caps' =>
        if length s' <? length s
        then star_turns g (run r1) k n prev' s' caps'
        else None) = Some y ->
      exists w s' caps',
        s = w ++ s' /\ matches (Star g r1) w /\ captured (Star g r1) caps caps' /\
        k (last_or w prev) s' caps' = Some y).
    { intros y Hy. apply IH1 in Hy as (w1 & s1 & caps1 & -> & Hw1 & Hc1 & Hy).
      destruct (length s1 <? length (w1 ++ s1)); [|done].
      apply IHn in Hy as (w2 & s2 & caps2 & -> & Hw2 & Hc2 & Hy).
      exists (w1 ++ w2), s2, caps2. rewrite app_assoc, last_or_app.
      split; [done|]. split; [by constructor|]. split; [|done].
      by apply (captured_trans _ r1 (Star g r1) caps caps1). }
    cbn [star_turns] in H. fold (star_turns (R:=R) g (run r1) k) in H.
    cbv zeta in H. destruct g.
    + match type of H with
      | match ?a with _ => _ end = _ => destruct a as [y|] eqn:Ha
      end.
      * injection H as ->. by apply Hturn.
      * exists [], s, caps. split; [done|]. split; [constructor|].
        split; [apply captured_refl|done].
    + destruct (k prev s caps) as [y|] eqn:Hk.
      * injection H as ->. exists [], s, caps.
        split; [done|]. split; [constructor|]. split; [apply captured_refl|done].
      * by apply Hturn.
  - cbn [run] in H. apply IH1 in H as (w & s' & caps' & -> & Hw & Hc & H).
    rewrite take_consumed0 in H.
    eexists w, s', _. split; [done|]. split; [by constructor|]. split; [|exact H].
    destruct Hc as (new & -> & Hnew). exists ((i, w) :: new). split; [done|].
    intros j v [[= <- <-]|Hin].
    + exists r1. split; [|done]. cbn [bodies]. rewrite Nat.eqb_refl. by left.
    + destruct (Hnew j v Hin) as (rj & Hrj & Hm). exists rj. split; [|done].
      cbn [bodies]. apply in_app_iff. by right.
  - cbn [run] in H. exists [], s, caps. split; [done|]. split; [constructor|].
    split; [apply captured_refl|].
    destruct prev as [c|]; [|done]. by destruct (is_line_terminator c).
  - cbn [run] in H. exists [], s, caps. split; [done|]. split; [constructor|].
    split; [apply captured_refl|].
    destruct s as [|c s]; [done|]. by destruct (is_line_terminator c).
  - cbn [run] in H. exists [], s, caps. split; [done|]. split; [constructor|].
    split; [apply captured_refl|].
    by destruct (xorb _ _).
Qed.

(** A match starts where it was looked for, has gone over its text, which
    is a text of the regular expression, and ends before what is left. *)
Lemma match_here_sound r i prev s m :
  match_here r i prev s = Some m ->
  index m = i /\ s = matched m ++ after m /\ matches r (matched m) /\
  after_prev m = last_or (matched m) prev.
Proof.
  unfold match_here. intros H.
  apply run_sound in H as (w & s' & caps' & -> & Hw & _ & H).
  injection H as <-. cbn [index matched after after_prev].
  rewrite length_app.
  replace (length w + length s' - length s') with (length w) by lia.
  rewrite take_app_length. done.
Qed.

(** The positions of a text from a given one on: [position prev s j] is
    the character before the position [j] characters further. *)
Definition prev_at (prev : option ascii) (s : text) (j : nat) : option ascii :=
  match j with
  | O => prev
  | S j' => s !! j'
  end.

(** [search] gives the match at the first position where there is one. *)
Lemma search_first r i prev s :
  match search r i prev s with
  | Some m =>
    exists j, j <= length s /\
      match_here r (i + j) (prev_at prev s j) (drop j s) = Some m /\
      forall j', j' < j ->
        match_here r (i + j') (prev_at prev s j') (drop j' s) = None
  | None =>
    forall j, j <= length s ->
      match_here r (i + j) (prev_at prev s j) (drop j s) = None
  end.
Proof.
  revert i prev. induction s as [|c s IH]; intros i prev.
  - cbn [search]. destruct (match_here r i prev []) as [m|] eqn:Hm.
    + exists 0. rewrite Nat.add_0_r. split; [done|]. split; [done|]. intros; lia.
    + intros j Hj. simpl in Hj. assert (j = 0) as -> by lia.
      by rewrite Nat.add_0_r.
  - cbn [search]. destruct (match_here r i prev (c :: s)) as [m|] eqn:Hm.
    + exists 0. rewrite Nat.add_0_r. split; [simpl; lia|]. split; [done|].
      intros; lia.
    + specialize (IH (S i) (Some c)).
      destruct (search r (S i) (Some c) s) as [m|].
      * destruct IH as (j & Hj & Hmatch & Hfirst).
        exists (S j). split; [simpl; lia|]. split.
        -- replace (i + S j) with (S i + j) by lia. by destruct j.
        -- intros [|j'] Hj'; [by rewrite Nat.add_0_r|].
           replace (i + S j') with (S i + j') by lia.
           specialize (Hfirst j' ltac:(lia)). by destruct j'.
      * intros [|j] Hj; [by rewrite Nat.add_0_r|].
        replace (i + S j) with (S i + j) by lia.
        specialize (IH j ltac:(simpl in Hj; lia)). by destruct j.
Qed.

(** [indexOf] gives the first offset where the needle occurs. *)
Lemma indexOf_from_first needle i s :
  match indexOf_from needle i s with
  | Some n =>
    exists j, n = i + j /\ starts_with needle (drop j s) = true /\
      forall j', j' < j -> starts_with needle (drop j' s) = false
  | None => forall j, starts_with needle (drop j s) = false
  end.
Proof.
  revert i. induction s as [|c s IH]; intros i.
  - cbn [indexOf_from]. destruct (starts_with needle []) eqn:H.
    + exists 0. split; [lia|]. split; [done|]. intros; lia.
    + intros j. by rewrite drop_nil.
  - cbn [indexOf_from]. destruct (starts_with needle (c :: s)) eqn:H.
    + exists 0. split; [lia|]. split; [done|]. intros; lia.
    + specialize (IH (S i)). destruct (indexOf_from needle (S i) s) as [n|].
      * destruct IH as (j & -> & Hj & Hfirst). exists (S j).
        split; [lia|]. split; [done|].
        intros [|j'] Hj'; [done|]. apply Hfirst. lia.
      * intros [|j]; [done|]. apply IH.
Qed.

Lemma starts_with_length l s : starts_with l s = true -> length l <= length s.
Proof.
  intros H. rewrite (starts_with_app l s H), length_app. lia.
Qed.

Lemma starts_with_split l1 l2 s :
  starts_with (l1 ++ l2) s = starts_with l1 s && starts_with l2 (drop (length l1) s).
Proof.
  revert s. induction l1 as [|c l1 IH]; intros s; [done|].
  destruct s as [|d s]; [done|]. simpl. by rewrite IH, andb_assoc.
Qed.

(** The text matched when the rest is what is left after the literal [l]. *)
Lemma matched_literal l s :
  starts_with l s = true ->
  take (length s - length (drop (length l) s)) s = l.
Proof.
  intros H. pose proof (starts_with_length l s H).
  rewrite length_drop.
  replace (length s - (length s - length l)) with (length l) by lia.
  by apply starts_with_take.
Qed.

Lemma run_Group {R} i r prev s caps (k : option ascii -> text -> captures -> option R) :
  run (Group i r) prev s caps k =
  run r prev s caps (fun prev' s' caps' =>
    k prev' s' ((i, take (length s - length s') s) :: caps')).
Proof. reflexivity. Qed.

(** Success along the first choices: a literal at the start of the text, a
    character of the class, a greedy run that takes a whole stretch of its
    class and is followed by a character outside it. *)
Lemma run_Lit_ok {R} l rest prev caps (k : option ascii -> text -> captures -> option R) :
  run (Lit l) prev (l ++ rest) caps k = k (last_or l prev) rest caps.
Proof. by rewrite run_Lit, starts_with_prefix, drop_app_length. Qed.

Lemma run_Chr_ok {R} (p : ascii -> bool) c s prev caps
    (k : option ascii -> text -> captures -> option R) :
  p c = true -> run (Chr p) prev (c :: s) caps k = k (Some c) s caps.
Proof. intros H. cbn [run]. by rewrite H. Qed.

Definition head_fails (p : ascii -> bool) (rest : text) : Prop :=
  match rest with
  | c :: _ => p c = false
  | [] => True
  end.

Lemma run_Star_ok {R} p ws rest prev caps
    (k : option ascii -> text -> captures -> option R) x :
  forallb p ws = true -> head_fails p rest ->
  k (last_or ws prev) rest caps = Some x ->
  run (Star true (Chr p)) prev (ws ++ rest) caps k = Some x.
Proof.
  intros Hws Hrest Hk. rewrite run_Star_class.
  revert prev Hk. induction ws as [|c ws IH]; intros prev Hk.
  - simpl in *. destruct rest as [|c rest]; [done|].
    cbn [star_class]. simpl in Hrest. by rewrite Hrest.
  - simpl in Hws. apply andb_true_iff in Hws as [Hc Hws].
    cbn [app star_class]. rewrite Hc, (IH Hws (Some c)); done.
Qed.

Lemma run_Plus_ok {R} p ws rest prev caps
    (k : option ascii -> text -> captures -> option R) x :
  ws <> [] -> forallb p ws = true -> head_fails p rest ->
  k (last_or ws prev) rest caps = Some x ->
  run (Plus (Chr p)) prev (ws ++ rest) caps k = Some x.
Proof.
  intros Hne Hws Hrest Hk. destruct ws as [|c ws]; [done|].
  simpl in Hws. apply andb_true_iff in Hws as [Hc Hws].
  unfold Plus. rewrite run_Seq. cbn [app]. rewrite run_Chr_ok by done.
  by apply run_Star_ok.
Qed.

Lemma take_consumed (w s' : text) :
  take (length (w ++ s') - length s') (w ++ s') = w.
Proof. apply take_consumed0. Qed.

Lemma run_Group_Plus_ok {R} i p ws rest prev caps
    (k : option ascii -> text -> captures -> option R) x :
  ws <> [] -> forallb p ws = true -> head_fails p rest ->
  k (last_or ws prev) rest ((i, ws) :: caps) = Some x ->
  run (Group i (Plus (Chr p))) prev (ws ++ rest) caps k = Some x.
Proof.
  intros Hne Hws Hrest Hk. rewrite run_Group.
  apply run_Plus_ok; [done..|]. by rewrite take_consumed.
Qed.

(** The continuation is only called on what is left of the text: two
    continuations that agree on the positions with no more characters left
    than [s] give the same result. *)
Lemma run_ext {R} r :
  forall prev s caps (k k' : option ascii -> text -> captures -> option R),
    (forall prev' s' caps', length s' <= length s -> k prev' s' caps' = k' prev' s' caps') ->
    run r prev s caps k = run r prev s caps k'.
Proof.
  induction r as [p| |r1 IH1 r2 IH2|r1 IH1 r2 IH2|g r1 IH1|i r1 IH1| | |];
    intros prev s caps k k' Hk; cbn [run].
  - destruct s as [|c s]; [done|]. destruct (p c); [|done].
    apply Hk. simpl. lia.
  - by apply Hk.
  - apply IH1. intros prev' s' caps' Hs'. apply IH2.
    intros prev2 s2 caps2 Hs2. apply Hk. lia.
  - by rewrite (IH1 _ _ _ k k'), (IH2 _ _ _ k k').
  - generalize (length s). intros n.
    revert prev s caps Hk. induction n as [|n IHn]; intros prev s caps Hk.
    { by apply Hk. }
    cbn [star_turns].
    fold (star_turns (R:=R) g (run r1) k) (star_turns (R:=R) g (run r1) k').
    cbv zeta.
    assert (Hturn :
      run r1 prev s caps (fun prev' s' caps' =>
        if length s' <? length s then star_turns g (run r1) k n prev' s' caps' else None) =
      run r1 prev s caps (fun prev' s' caps' =>
        if length s' <? length s then star_turns g (run r1) k' n prev' s' caps' else None)).
    { apply IH1. intros prev' s' caps' Hs'.
      destruct (Nat.ltb_spec (length s') (length s)); [|done].
      apply IHn. intros prev2 s2 caps2 Hs2. apply Hk. lia. }
    rewrite Hturn, (Hk prev s caps) by lia. done.
  - apply IH1. intros prev' s' caps' Hs'. by apply Hk.
  - destruct prev as [c|]; [destruct (is_line_terminator c)|]; try done; by apply Hk.
  - destruct s as [|c s]; [by apply Hk|].
    destruct (is_line_terminator c); [by apply Hk|done].
  - destruct (xorb _ _); [by apply Hk|done].
Qed.

(** A quantifier never runs out of turns: with at least as many turns as
    characters left, one more changes nothing. *)
Lemma star_turns_enough {R} g r (k : option ascii -> text -> captures -> option R) n :
  forall prev s caps, length s <= n ->
    star_turns g (run r) k (S n) prev s caps = star_turns g (run r) k n prev s caps.
Proof.
  induction n as [|n IH]; intros prev s caps Hn.
  - destruct s; [|simpl in Hn; lia]. cbn [star_turns]. cbv zeta.
    assert (Hnone : run r prev [] caps (fun prev' s' caps' =>
              if length s' <? length (@nil ascii) then k prev' s' caps' else None) = None).
    { destruct (run r prev [] caps _) as [x|] eqn:Hx; [|done].
      apply run_sound in Hx as (w & s' & caps' & Hs & _ & _ & Hx).
      by destruct (length s' <? length (@nil ascii)) eqn:E. }
    rewrite Hnone. by destruct g, (k prev [] caps).
  - cbn [star_turns].
    fold (star_turns (R:=R) g (run r) k). cbv zeta.
    assert (Hturn :
      run r prev s caps (fun prev' s' caps' =>
        if length s' <? length s then star_turns g (run r) k (S n) prev' s' caps' else None) =
      run r prev s caps (fun prev' s' caps' =>
        if length s' <? length s then star_turns g (run r) k n prev' s' caps' else None)).
    { apply run_ext. intros prev' s' caps' _.
      destruct (Nat.ltb_spec (length s') (length s)); [|done]. apply IH. lia. }
    change (star_turns g (run r) k (S n)) with
      (fun prev s caps =>
         let again :=
           run r prev s caps (fun prev' s' caps' =>
             if length s' <? length s then star_turns g (run r) k n prev' s' caps'
             else None) in
         if g then match again with Some x => Some x | None => k prev s caps end
         else match k prev s caps with Some x => Some x | None => again end) in Hturn.
    cbv beta zeta in Hturn. by rewrite Hturn.
Qed.

(** So a quantifier does what the language says: one more turn that goes
    over at least one character and then the quantifier again, or, by
    priority, what follows. *)
Lemma run_Star_unfold {R} g r prev s caps
    (k : option ascii -> text -> captures -> option R) :
  run (Star g r) prev s caps k =
  let again :=
    run r prev s caps (fun prev' s' caps' =>
      if length s' <? length s then run (Star g r) prev' s' caps' k else None) in
  if g then match again with Some x => Some x | None => k prev s caps end
  else match k prev s caps with Some x => Some x | None => again end.
Proof.
  cbn [run]. cbv zeta.
  assert (Hmore : forall n prev' s' caps', length s' <= n ->
            star_turns g (run r) k (length s') prev' s' caps' =
            star_turns g (run r) k n prev' s' caps').
  { intros n prev' s' caps' Hle.
    induction Hle as [|n Hle IH]; [done|]. by rewrite IH, star_turns_enough. }
  assert (Hturn :
    run r prev s caps (fun prev' s' caps' =>
      if length s' <? length s
      then star_turns g (run r) k (length s') prev' s' caps' else None) =
    run r prev s caps (fun prev' s' caps' =>
      if length s' <? length s
      then star_turns g (run r) k (length s) prev' s' caps' else None)).
  { apply run_ext. intros prev' s' caps' Hs'.
    destruct (length s' <? length s); [|done]. by apply Hmore. }
  rewrite Hturn. rewrite <- (star_turns_enough g r k (length s)) by done.
  reflexivity.
Qed.





(** The texts of literals and of runs of a class. *)
Lemma matches_Lit l w : matches (Lit l) w -> w = l.
Proof.
  revert w. induction l as [|c l IH]; intros w H; simpl in H.
  - by inversion H.
  - inversion H as [| |r1 r2 w1 w2 H1 H2| | | | | | | |]; subst.
    inversion H1 as [p d Hd| | | | | | | | | |]; subst.
    apply ceq_true in Hd as <-. simpl. f_equal. by apply IH.
Qed.

Lemma matches_Star_class g p w : matches (Star g (Chr p)) w -> forallb p w = true.
Proof.
  intros H. remember (Star g (Chr p)) as r eqn:Hr.
  induction H as [| | | | | |g' r' w1 w2 H1 _ H2 IH| | | |]; try done.
  injection Hr as -> ->.
  inversion H1 as [p' d Hd| | | | | | | | | |]; subst. simpl.
  rewrite Hd. by apply IH.
Qed.

Lemma matches_Plus_class p w : matches (Plus (Chr p)) w -> forallb p w = true /\ w <> [].
Proof.
  unfold Plus. intros H.
  inversion H as [| |r1 r2 w1 w2 H1 H2| | | | | | | |]; subst.
  inversion H1 as [p' d Hd| | | | | | | | | |]; subst.
  apply matches_Star_class in H2. simpl. by rewrite Hd, H2.
Qed.

Lemma matches_Seq_inv r1 r2 w :
  matches (Seq r1 r2) w -> exists w1 w2, w = w1 ++ w2 /\ matches r1 w1 /\ matches r2 w2.
Proof. intros H. inversion H; subst. eauto. Qed.

Lemma matches_Alt_inv r1 r2 w : matches (Alt r1 r2) w -> matches r1 w \/ matches r2 w.
Proof. intros H. inversion H; subst; eauto. Qed.

Lemma matches_Group_inv i r w : matches (Group i r) w -> matches r w.
Proof. intros H. by inversion H. Qed.

Lemma matches_Chr_inv p w : matches (Chr p) w -> exists c, w = [c] /\ p c = true.
Proof. intros H. inversion H; subst. eauto. Qed.

Lemma forallb_impl {A} (p q : A -> bool) l :
  (forall x, p x = true -> q x = true) -> forallb p l = true -> forallb q l = true.
Proof.
  intros Hpq. induction l as [|x l IH]; [done|]. simpl.
  intros [Hx Hl]%andb_true_iff. by rewrite (Hpq x Hx), IH.
Qed.

(** A character that occurs once splits a text in one way only. *)
Lemma unique_split (c : ascii) X Y X' Y' :
  forallb (fun d => negb (ceq d c)) X = true ->
  forallb (fun d => negb (ceq d c)) Y = true ->
  X ++ c :: Y = X' ++ c :: Y' -> X = X' /\ Y = Y'.
Proof.
  revert X'. induction X as [|x X IH]; intros X' HX HY Heq.
  - destruct X' as [|x' X']; simpl in Heq.
    + by injection Heq as ->.
    + injection Heq as <- ->. rewrite forallb_app in HY. simpl in HY.
      rewrite ceq_refl in HY. by rewrite andb_false_r in HY.
  - simpl in HX. apply andb_true_iff in HX as [Hx HX].
    destruct X' as [|x' X']; simpl in Heq.
    + injection Heq as -> _. by rewrite ceq_refl in Hx.
    + injection Heq as -> Heq. destruct (IH X' HX HY Heq) as [-> ->]. done.
Qed.

(** The position of a text [t] at offset [i]: what is left and the
    character before. *)
Definition prev_of (t : text) (i : nat) : option ascii := last_or (take i t) None.

Lemma prev_at_prev_of t i j :
  i + j <= length t -> prev_at (prev_of t i) (drop i t) j = prev_of t (i + j).
Proof.
  intros Hle. unfold prev_of. destruct j as [|j]; cbn [prev_at].
  { by rewrite Nat.add_0_r. }
  etrans; [apply lookup_drop|].
  destruct (lookup_lt_is_Some_2 t (i + j) ltac:(lia)) as [c Hc].
  rewrite Hc. replace (i + S j) with (S (i + j)) by lia.
  rewrite (take_S_r _ _ _ Hc), last_or_app. done.
Qed.

(** What is left after a match that [search] finds. *)
Lemma search_after r i prev s m :
  search r i prev s = Some m ->
  length (matched m) + length (after m) <= length s /\
  index m = i + (length s - length (matched m) - length (after m)).
Proof.
  intros H. pose proof (search_first r i prev s) as Hs. rewrite H in Hs.
  destruct Hs as (j & Hj & Hm & _).
  apply match_here_sound in Hm as (Hidx & Hsplit & _).
  apply (f_equal length) in Hsplit. rewrite length_drop, length_app in Hsplit.
  lia.
Qed.


(** *** Matches of a text and of the same text after some more text

    A match moved by [c] characters, and a match without the character
    before its end. *)
Definition shift (c : nat) (m : Match) : Match :=
  {| index := c + index m; matched := matched m; groups := groups m;
     after_prev := after_prev m; after := after m |}.

Definition forget (m : Match) : Match :=
  {| index := index m; matched := matched m; groups := groups m;
     after_prev := None; after := after m |}.














(** A match in the text is reached by the loop over the matches when the
    matches that start before it are not empty and end before it or where
    it starts. *)
Lemma exec_from_reaches r t p m0 :
  match_here r p (prev_of t p) (drop p t) = Some m0 ->
  matched m0 <> [] ->
  (forall j m, j < p -> match_here r j (prev_of t j) (drop j t) = Some m ->
               matched m <> [] /\ j + length (matched m) <= p) ->
  forall d i n, p - i <= d -> i <= p -> length t - i <= n ->
    In m0 (exec_from n r i (prev_of t i) (drop i t)).
Proof.
  intros Hm0 Hne Hbefore.
  assert (Hp : p < length t).
  { apply match_here_sound in Hm0 as (_ & Hs & _).
    destruct (Nat.lt_ge_cases p (length t)); [done|].
    rewrite drop_ge in Hs by lia. by destruct (matched m0). }
  induction d as [|d IH]; intros i n Hd Hi Hn.
  - (* the loop is at the match *)
    assert (i = p) as -> by lia.
    destruct n as [|n]; [lia|]. cbn [exec_from].
    pose proof (search_first r p (prev_of t p) (drop p t)) as Hs.
    destruct (search r p (prev_of t p) (drop p t)) as [m|].
    + destruct Hs as (j & _ & Hm & Hfirst).
      destruct j as [|j].
      * rewrite Nat.add_0_r in Hm. cbn [prev_at] in Hm. rewrite drop_0 in Hm.
        assert (m = m0) as -> by congruence.
        destruct (length (matched m0) =? 0); by left.
      * specialize (Hfirst 0 ltac:(lia)). rewrite Nat.add_0_r in Hfirst.
        cbn [prev_at] in Hfirst. rewrite drop_0 in Hfirst. congruence.
    + specialize (Hs 0 ltac:(lia)). rewrite Nat.add_0_r in Hs.
      cbn [prev_at] in Hs. rewrite drop_0 in Hs. congruence.
  - destruct n as [|n]; [lia|]. cbn [exec_from].
    pose proof (search_first r i (prev_of t i) (drop i t)) as Hs.
    assert (Hat : forall j, i + j <= length t ->
      match_here r (i + j) (prev_at (prev_of t i) (drop i t) j) (drop j (drop i t)) =
      match_here r (i + j) (prev_of t (i + j)) (drop (i + j) t)).
    { intros j Hj. by rewrite prev_at_prev_of, drop_drop. }
    destruct (search r i (prev_of t i) (drop i t)) as [m|].
    + destruct Hs as (j & Hj & Hm & Hfirst).
      rewrite length_drop in Hj. rewrite Hat in Hm by lia.
      destruct (Nat.lt_trichotomy (i + j) p) as [Hlt|[Heq|Hgt]].
      * (* a match before: the loop goes on after it *)
        destruct (Hbefore _ _ Hlt Hm) as [Hmne Hend].
        pose proof (match_here_sound _ _ _ _ _ Hm) as (Hidx & Hsplit & _ & Hprev).
        assert (Hlen : length (matched m) <> 0) by (by destruct (matched m)).
        apply Nat.eqb_neq in Hlen as Hlen'. rewrite Hlen'. right.
        assert (Hafter : after m = drop (i + j + length (matched m)) t).
        { rewrite <- drop_drop, Hsplit, drop_app_length. done. }
        assert (Hprev' : after_prev m = prev_of t (i + j + length (matched m))).
        { rewrite Hprev. unfold prev_of.
          rewrite <- (take_drop (i + j) (take (i + j + length (matched m)) t)).
          rewrite take_take, Nat.min_l, last_or_app by lia. f_equal.
          rewrite <- take_drop_commute, Hsplit, take_app_length. done. }
        rewrite Hidx, Hafter, Hprev'. apply IH; lia.
      * subst p. assert (m = m0) as -> by congruence.
        destruct (length (matched m0) =? 0); by left.
      * specialize (Hfirst (p - i) ltac:(lia)). rewrite Hat in Hfirst by lia.
        replace (i + (p - i)) with p in Hfirst by lia. congruence.
    + specialize (Hs (p - i) ltac:(rewrite length_drop; lia)).
      rewrite Hat in Hs by lia. replace (i + (p - i)) with p in Hs by lia.
      congruence.
Qed.

(** *** Shapes of the texts of a regular expression

    The characters, all of them. *)
Definition all_chars : list ascii := map ascii_of_nat (seq 0 256).

Lemma all_chars_all c : In c all_chars.
Proof.
  unfold all_chars. rewrite <- (ascii_nat_embedding c).
  apply in_map, in_seq. pose proof (nat_ascii_bounded c). lia.
Qed.

(** Every character of the class [p] is in the class [q]. *)
Definition subclass (p q : ascii -> bool) : bool :=
  forallb (fun c => implb (p c) (q c)) all_chars.

Lemma subclass_ok p q c : subclass p q = true -> p c = true -> q c = true.
Proof.
  unfold subclass. rewrite forallb_forall. intros H Hp.
  specialize (H c (all_chars_all c)). by rewrite Hp in H.
Qed.


(** The texts of [r] have their characters in the class [q]. *)
Fixpoint within (q : ascii -> bool) (r : re) : bool :=
  match r with
  | Chr p => subclass p q
  | Seq r1 r2 | Alt r1 r2 => within q r1 && within q r2
  | Star _ r1 | Group _ r1 => within q r1
  | Eps | Bol | Eol | WordB => true
  end.


(** The texts of [r] start with a character of the class [p]. *)
Fixpoint starts (p : ascii -> bool) (r : re) : bool :=
  match r with
  | Chr p' => subclass p' p
  | Seq r1 _ | Group _ r1 => starts p r1
  | Alt r1 r2 => starts p r1 && starts p r2
  | _ => false
  end.

(** The texts of [r] have characters of the class [q] and then the
    character [c]. *)
Fixpoint upto (q : ascii -> bool) (c : ascii) (r : re) : bool :=
  match r with
  | Chr p => subclass p (ceq c)
  | Seq r1 r2 => (within q r1 && upto q c r2) || upto q c r1
  | Alt r1 r2 => upto q c r1 && upto q c r2
  | Group _ r1 => upto q c r1
  | _ => false
  end.

Lemma within_ok q r w : matches r w -> within q r = true -> forallb q w = true.
Proof.
  induction 1 as [p c Hc| |r1 r2 w1 w2 _ IH1 _ IH2|r1 r2 w _ IH|r1 r2 w _ IH
                 |g r|g r w1 w2 _ IH1 _ IH2|i r w _ IH| | |];
    cbn [within]; intros Hq; try done.
  - simpl. by rewrite (subclass_ok _ _ _ Hq Hc).
  - apply andb_true_iff in Hq as [H1 H2]. rewrite forallb_app, IH1, IH2; done.
  - apply andb_true_iff in Hq as [H1 H2]. by apply IH.
  - apply andb_true_iff in Hq as [H1 H2]. by apply IH.
  - rewrite forallb_app, IH1, IH2; done.
  - by apply IH.
Qed.



Lemma starts_ok p r w :
  matches r w -> starts p r = true -> exists c w', w = c :: w' /\ p c = true.
Proof.
  induction 1 as [p' c Hc| |r1 r2 w1 w2 _ IH1 _ _|r1 r2 w _ IH|r1 r2 w _ IH
                 |g r|g r w1 w2 _ _ _ _|i r w _ IH| | |];
    cbn [starts]; intros Hp; try done.
  - exists c, []. split; [done|]. by apply (subclass_ok _ _ _ Hp).
  - destruct (IH1 Hp) as (c & w' & -> & Hc). by exists c, (w' ++ w2).
  - apply andb_true_iff in Hp as [H1 H2]. by apply IH.
  - apply andb_true_iff in Hp as [H1 H2]. by apply IH.
  - by apply IH.
Qed.

Lemma upto_ok q c r w :
  matches r w -> upto q c r = true ->
  exists w1 w2, w = w1 ++ c :: w2 /\ forallb q w1 = true.
Proof.
  induction 1 as [p d Hd| |r1 r2 w1 w2 H1 IH1 _ IH2|r1 r2 w _ IH|r1 r2 w _ IH
                 |g r|g r w1 w2 _ _ _ _|i r w _ IH| | |];
    cbn [upto]; intros Hq; try done.
  - exists [], []. split; [|done]. simpl.
    apply (subclass_ok _ _ _ Hq), ceq_true in Hd. by subst.
  - apply orb_true_iff in Hq as [[Hq1 Hq2]%andb_true_iff|Hq1].
    + destruct (IH2 Hq2) as (v1 & v2 & -> & Hv1).
      exists (w1 ++ v1), v2. rewrite <- app_assoc. split; [done|].
      by rewrite forallb_app, (within_ok _ _ _ H1 Hq1), Hv1.
    + destruct (IH1 Hq1) as (v1 & v2 & -> & Hv1).
      exists v1, (v2 ++ w2). by rewrite <- app_assoc.
  - apply andb_true_iff in Hq as [H1 H2]. by apply IH.
  - apply andb_true_iff in Hq as [H1 H2]. by apply IH.
  - by apply IH.
Qed.

(** Where a match starts, and a character that it goes over. *)
Lemma match_here_at r j prev t m :
  match_here r j prev (drop j t) = Some m ->
  forall i, i < length (matched m) -> t !! (j + i) = matched m !! i.
Proof.
  intros H i Hi. apply match_here_sound in H as (_ & Hs & _).
  rewrite <- lookup_drop, Hs. by apply lookup_app_l.
Qed.

Lemma forallb_lookup (q : ascii -> bool) (w : text) i c :
  forallb q w = true -> w !! i = Some c -> q c = true.
Proof.
  intros Hq Hc. rewrite forallb_forall in Hq. apply Hq.
  by apply list_elem_of_In, (list_elem_of_lookup_2 _ i).
Qed.

(** A match of a pattern whose texts start with a character of a class
    starts at such a character. *)
Lemma starts_at p r j prev t m :
  starts p r = true -> match_here r j prev (drop j t) = Some m ->
  matched m <> [] /\ exists c, t !! j = Some c /\ p c = true.
Proof.
  intros Hp H. pose proof (match_here_at _ _ _ _ _ H) as Hat.
  apply match_here_sound in H as (_ & _ & Hm & _).
  destruct (starts_ok _ _ _ Hm Hp) as (c & w' & Hw & Hc). rewrite Hw in *.
  split; [done|]. exists c. split; [|done].
  specialize (Hat 0 ltac:(simpl; lia)). by rewrite Nat.add_0_r in Hat.
Qed.


(** A pattern whose texts are characters of a class and then the character
    [c] has no match that starts before a character that is not of the
    class, when [c] is not before it. *)
Lemma upto_before q c r j prev t e c0 :
  upto q c r = true -> t !! e = Some c0 -> q c0 = false ->
  (forall i, i <= e -> t !! i <> Some c) -> j <= e ->
  match_here r j prev (drop j t) = None.
Proof.
  intros Hq He Hc0 Hnc Hj. destruct (match_here r j prev (drop j t)) as [m|] eqn:H; [|done].
  exfalso. pose proof (match_here_at _ _ _ _ _ H) as Hat.
  apply match_here_sound in H as (_ & _ & Hm & _).
  destruct (upto_ok _ _ _ _ Hm Hq) as (w1 & w2 & Hw & Hw1). rewrite Hw in *.
  rewrite length_app in Hat. cbn [length] in Hat.
  destruct (Nat.le_gt_cases (j + length w1) e) as [Hle|Hgt].
  - specialize (Hat (length w1) ltac:(lia)).
    apply (Hnc (j + length w1)); [done|]. rewrite Hat. by apply list_lookup_middle.
  - specialize (Hat (e - j) ltac:(lia)). replace (j + (e - j)) with e in Hat by lia.
    assert (Hl : w1 !! (e - j) = Some c0).
    { rewrite <- He, Hat. symmetry. apply lookup_app_l. lia. }
    apply (forallb_lookup _ _ _ _ Hw1) in Hl. congruence.
Qed.

(** *** The matches of a text after a first part *)

Lemma forget_shift c m : forget (shift c m) = shift c (forget m).
Proof. done. Qed.



(** The members of the loop over the matches are matches. *)
Lemma exec_from_match r n : forall i prev s m,
  In m (exec_from n r i prev s) -> exists j prev' s', match_here r j prev' s' = Some m.
Proof.
  induction n as [|n IH]; intros i prev s m; [done|]. cbn [exec_from].
  pose proof (search_first r i prev s) as Hs.
  destruct (search r i prev s) as [m'|]; [|done].
  destruct Hs as (j & _ & Hm & _).
  destruct (length (matched m') =? 0).
  - intros [<-|[]]. eauto.
  - intros [<-|Hin]; [eauto|]. by apply IH in Hin.
Qed.





(** The captures of a match are texts of the groups of the pattern. *)
Lemma match_here_groups r i prev s m :
  match_here r i prev s = Some m -> captured r [] (groups m).
Proof.
  unfold match_here. intros H.
  apply run_sound in H as (w & s' & caps' & _ & _ & Hc & H).
  by injection H as <-.
Qed.

Lemma capture_In caps i v : capture caps i = Some v -> In (i, v) caps.
Proof.
  unfold capture. destruct (List.find _ caps) as [[j u]|] eqn:Hf; [|done].
  simpl. intros [= ->]. apply find_some in Hf as [Hin Hj].
  simpl in Hj. apply Nat.eqb_eq in Hj as ->. done.
Qed.

Lemma group_matches r i prev s m g v :
  match_here r i prev s = Some m -> group m g = Some v ->
  exists rg, In rg (bodies g r) /\ matches rg v.
Proof.
  intros Hm Hg. apply match_here_groups in Hm as (new & Heq & Hnew).
  apply capture_In in Hg. rewrite Heq, app_nil_r in Hg. by apply Hnew.
Qed.


End RegexFacts.

(** ** I2C addresses *)

Section I2CFacts.
Import Regex Diagnostics.

(** The matches of the address pattern that are not in a comment: the
    scanned addresses, in order. *)
Definition scanned (text : text) : list Match :=
  List.filter (fun m => negb (CommentStripper.isInComment text (index m)))
              (exec_all addressPattern text).

Definition address_of (m : Match) : N :=
  default 0%N (Js.parseInt16 (default [] (group m 1))).

(** The range of the address of a match: the text [0x...] in it. *)
Definition address_range (document : TextDocument) (m : Match) : Range :=
  let hex := default [] (group m 1) in
  range_at (positionAt document
              (index m + default 0 (indexOf (matched m) (txt "0x" ++ hex))))
           (length (txt "0x" ++ hex)).

Definition reserved_low (a : N) : bool := (a <=? 7)%N.
Definition reserved_high (a : N) : bool := (120 <=? a)%N && (a <=? 127)%N.

(** What the specification asks for one scanned address, given the
    addresses scanned before it: one [reserved-i2c-address] error for a
    reserved address, one [invalid-i2c-address] error above 0x7F, one
    [duplicate-i2c-address] information for a valid address seen before,
    nothing otherwise. *)
Definition expected_for (document : TextDocument) (seen : list N) (m : Match)
    : list Diagnostic :=
  let a := address_of m in
  let diag sev msg c :=
    {| severity := sev; range := address_range document m; message := msg;
       source := "Sentinel"; code := c |} in
  if reserved_low a then [diag Error (address_reserved a) "reserved-i2c-address"%string]
  else if reserved_high a
  then [diag Error (address_reserved_10bit a) "reserved-i2c-address"%string]
  else if (127 <? a)%N
  then [diag Error (address_out_of_range a) "invalid-i2c-address"%string]
  else if bool_decide (a ∈ seen)
  then [diag Information (address_used_multiple_times a) "duplicate-i2c-address"%string]
  else [].

Fixpoint expected_all (document : TextDocument) (seen : list N) (ms : list Match)
    : list Diagnostic :=
  match ms with
  | [] => []
  | m :: ms' =>
    expected_for document seen m ++ expected_all document (address_of m :: seen) ms'
  end.

(** [usedAddresses] holds the valid addresses among those seen. *)
Definition tracks (used : gset N) (seen : list N) : Prop :=
  forall a, (7 < a)%N -> (a < 120)%N -> a ∈ used <-> a ∈ seen.

Lemma address_step_expected text document used seen ds m :
  tracks used seen ->
  CommentStripper.isInComment text (index m) = false ->
  exists used',
    address_step text document (used, ds) m =
      (used', ds ++ expected_for document seen m) /\
    tracks used' (address_of m :: seen).
Proof.
  intros Htr Hc. unfold address_step. rewrite Hc. cbv zeta.
  unfold expected_for, reserved_low, reserved_high.
  fold (address_of m). fold (address_range document m).
  assert (H0 : (0 <=? address_of m)%N = true) by (apply N.leb_le; lia).
  rewrite H0. cbn [andb].
  assert (Hkeep : forall a, a = address_of m -> ~ ((7 < a)%N /\ (a < 120)%N) ->
                            tracks used (address_of m :: seen)).
  { intros a -> Hnv b Hb1 Hb2. rewrite (Htr b Hb1 Hb2), elem_of_cons.
    split; [by right|]. intros [->|]; [|done]. exfalso. by apply Hnv. }
  destruct (address_of m <=? 7)%N eqn:Hlow.
  { exists used. split; [done|]. apply (Hkeep _ eq_refl).
    apply N.leb_le in Hlow. lia. }
  destruct ((120 <=? address_of m)%N && (address_of m <=? 127)%N) eqn:Hhigh.
  { exists used. split; [done|]. apply (Hkeep _ eq_refl).
    apply andb_true_iff in Hhigh as [Hh%N.leb_le _]. lia. }
  destruct (127 <? address_of m)%N eqn:Hout.
  { exists used. split; [done|]. apply (Hkeep _ eq_refl).
    apply N.ltb_lt in Hout. lia. }
  assert (Hvalid : (7 < address_of m)%N /\ (address_of m < 120)%N).
  { apply N.leb_gt in Hlow. apply N.ltb_ge in Hout.
    apply andb_false_iff in Hhigh as [Hh%N.leb_gt|Hh%N.leb_gt]; lia. }
  destruct Hvalid as [Hv1 Hv2].
  exists ({[address_of m]} ∪ used). split.
  - assert (Hdec : bool_decide (address_of m ∈ used) =
                   bool_decide (address_of m ∈ seen))
      by (apply bool_decide_ext, Htr; done).
    rewrite Hdec. destruct (bool_decide (address_of m ∈ seen)); [done|].
    by rewrite app_nil_r.
  - intros a Ha1 Ha2. rewrite elem_of_union, elem_of_singleton, elem_of_cons.
    by rewrite (Htr a Ha1 Ha2).
Qed.

Lemma address_loop_expected text document ms used seen ds :
  tracks used seen ->
  snd (fold_left (address_step text document) ms (used, ds)) =
  ds ++ expected_all document seen
          (List.filter (fun m => negb (CommentStripper.isInComment text (index m))) ms).
Proof.
  revert used seen ds. induction ms as [|m ms IH]; intros used seen ds Htr.
  { simpl. by rewrite app_nil_r. }
  cbn [fold_left List.filter].
  destruct (CommentStripper.isInComment text (index m)) eqn:Hc; cbn [negb].
  - assert (Hskip : address_step text document (used, ds) m = (used, ds))
      by (unfold address_step; by rewrite Hc).
    rewrite Hskip. by apply IH.
  - destruct (address_step_expected text document used seen ds m Htr Hc)
      as (used' & -> & Htr').
    rewrite (IH _ _ _ Htr'). cbn [expected_all]. by rewrite app_assoc.
Qed.

(** C3: the classification of I2C addresses.  The diagnostics of the
    address loop are those expected for the scanned addresses in order,
    each judged against the addresses scanned before it.  For every
    scanned address, whatever the loop has collected so far: an address in
    0x00-0x07 or 0x78-0x7F adds exactly one error [reserved-i2c-address]
    (so none with [invalid-i2c-address]); an address above 0x7F adds one
    error [invalid-i2c-address]; a valid address that is already in
    [usedAddresses] adds one information [duplicate-i2c-address] at this
    later occurrence, and a valid address seen for the first time adds
    nothing. *)
Theorem i2c_address_classification
    (this : EmbeddedDiagnosticProvider) (text : text) (document : TextDocument)
    (used : gset N) (ds : list Diagnostic) (m : Match) :
  CommentStripper.isInComment text (index m) = false ->
  validateI2CUsage this text document [] =
    wire_begin_check text document (expected_all document [] (scanned text)) /\
  ((address_of m <= 7)%N \/ (120 <= address_of m <= 127)%N ->
   exists d,
     snd (address_step text document (used, ds) m) = ds ++ [d] /\
     code d = "reserved-i2c-address"%string /\ severity d = Error /\
     range d = address_range document m) /\
  ((127 < address_of m)%N ->
   exists d,
     snd (address_step text document (used, ds) m) = ds ++ [d] /\
     code d = "invalid-i2c-address"%string /\ severity d = Error /\
     range d = address_range document m) /\
  ((7 < address_of m < 120)%N -> address_of m ∈ used ->
   exists d,
     snd (address_step text document (used, ds) m) = ds ++ [d] /\
     code d = "duplicate-i2c-address"%string /\ severity d = Information /\
     range d = address_range document m) /\
  ((7 < address_of m < 120)%N -> address_of m ∉ used ->
   snd (address_step text document (used, ds) m) = ds).
Proof.
  intros Hc. split.
  { unfold validateI2CUsage, scanned. cbv zeta.
    assert (Htr : tracks ∅ []).
    { intros a _ _. split; [set_solver|]. by intros ?%elem_of_nil. }
    by rewrite (address_loop_expected text document _ ∅ [] [] Htr). }
  unfold address_step. rewrite Hc. cbv zeta.
  fold (address_of m). fold (address_range document m).
  assert (H0 : (0 <=? address_of m)%N = true) by (apply N.leb_le; lia).
  rewrite H0. cbn [andb].
  repeat split.
  - intros Hres.
    destruct (N.leb_spec (address_of m) 7); [eexists; by repeat split|].
    assert (Hh : ((120 <=? address_of m)%N && (address_of m <=? 127)%N) = true)
      by (apply andb_true_iff; split; apply N.leb_le; lia).
    rewrite Hh. eexists; by repeat split.
  - intros Hout.
    destruct (N.leb_spec (address_of m) 7); [lia|].
    assert (Hh : ((120 <=? address_of m)%N && (address_of m <=? 127)%N) = false)
      by (apply andb_false_iff; right; apply N.leb_gt; lia).
    rewrite Hh. destruct (N.ltb_spec 127 (address_of m)); [|lia].
    eexists; by repeat split.
  - intros Hval Hin.
    destruct (N.leb_spec (address_of m) 7); [lia|].
    assert (Hh : ((120 <=? address_of m)%N && (address_of m <=? 127)%N) = false)
      by (apply andb_false_iff; left; apply N.leb_gt; lia).
    rewrite Hh. destruct (N.ltb_spec 127 (address_of m)); [lia|].
    rewrite bool_decide_eq_true_2 by done.
    eexists; by repeat split.
  - intros Hval Hin.
    destruct (N.leb_spec (address_of m) 7); [lia|].
    assert (Hh : ((120 <=? address_of m)%N && (address_of m <=? 127)%N) = false)
      by (apply andb_false_iff; left; apply N.leb_gt; lia).
    rewrite Hh. destruct (N.ltb_spec 127 (address_of m)); [lia|].
    by rewrite bool_decide_eq_false_2.
Qed.

(** The addresses of the specification, each in a call of its own. *)
Definition first_match (t : text) : Match :=
  default {| index := 0; matched := []; groups := []; after_prev := None; after := [] |}
          (head (exec_all addressPattern t)).

Definition no_board : EmbeddedDiagnosticProvider :=
  {| hardwareDB := {| boards := []; currentBoard := None |} |}.

Lemma i2c_address_classification_witness :
  let t := txt "Wire.begin(); Wire.beginTransmission(0x05);" in
  CommentStripper.isInComment t (index (first_match t)) = false /\
  address_of (first_match t) = 5%N /\
  exists d,
    snd (address_step t (document_of t) (∅, []) (first_match t)) = [d] /\
    code d = "reserved-i2c-address"%string /\ severity d = Error /\
    range d = {| range_start := {| line := 0; character := 37 |};
                 range_end := {| line := 0; character := 41 |} |}.
Proof.
  set (t := txt "Wire.begin(); Wire.beginTransmission(0x05);").
  assert (Hc : CommentStripper.isInComment t (index (first_match t)) = false)
    by reflexivity.
  assert (Ha : address_of (first_match t) = 5%N) by reflexivity.
  split; [exact Hc|]. split; [exact Ha|].
  destruct (proj1 (proj2 (i2c_address_classification no_board t (document_of t)
                            ∅ [] (first_match t) Hc)))
    as (d & Hd & Hcode & Hsev & Hrange).
  { left. rewrite Ha. lia. }
  exists d. repeat split; try done.
Defined.

(** The addresses named in the specification, through the whole validator:
    0x05 and 0x7F are reserved, 0x90 is out of range, 0x50 alone gives
    nothing and its second use is reported as a duplicate; a call in a
    comment is not scanned. *)
Example i2c_specification_addresses :
  let codes s :=
    let t := txt s in
    map (fun d => (code d, severity d))
        (validateI2CUsage no_board t (document_of t) []) in
  codes "Wire.begin(); Wire.beginTransmission(0x05);"
    = [("reserved-i2c-address"%string, Error)] /\
  codes "Wire.begin(); Wire.beginTransmission(0x7F);"
    = [("reserved-i2c-address"%string, Error)] /\
  codes "Wire.begin(); Wire.beginTransmission(0x90);"
    = [("invalid-i2c-address"%string, Error)] /\
  codes "Wire.begin(); Wire.beginTransmission(0x50);" = [] /\
  codes "Wire.begin(); Wire.beginTransmission(0x50); Wire.requestFrom(0x50, 2);"
    = [("duplicate-i2c-address"%string, Information)] /\
  codes "Wire.begin(); // Wire.beginTransmission(0x05);" = [] /\
  codes "Wire.beginTransmission(0x03);"
    = [("reserved-i2c-address"%string, Error); ("missing-wire-begin"%string, Error)].
Proof. vm_compute. repeat split; reflexivity. Qed.

(** *** The older copy *)

(** In the older copy the range test comes first and ends the turn, so the
    test for reserved addresses after it is never reached with a reserved
    address: every address below 0x08 or above 0x77 is an
    [invalid-i2c-address]. *)
Lemma legacy_step_reserved protocol text document used ds m :
  (address_of m <= 7)%N \/ (120 <= address_of m <= 127)%N ->
  exists d,
    snd (LegacyDiagnostics.legacy_step protocol text document (used, ds) m) = ds ++ [d] /\
    code d = "invalid-i2c-address"%string /\ severity d = Error.
Proof.
  intros Hres. unfold LegacyDiagnostics.legacy_step. cbv zeta.
  fold (address_of m).
  assert (Hout : ((address_of m <? 8)%N || (119 <? address_of m)%N) = true).
  { apply orb_true_iff. destruct Hres; [left; apply N.ltb_lt|right; apply N.ltb_lt]; lia. }
  rewrite Hout. eexists. by repeat split.
Qed.

(** C3 (the older copy departs from it): on a sketch that calls
    [Wire.beginTransmission(0x05)], the older copy of the provider, with
    the default I2C protocol loaded, reports the reserved address 0x05 as
    [invalid-i2c-address] and not as [reserved-i2c-address]; the current
    provider reports it as [reserved-i2c-address].  The same holds for
    0x7F. *)
Theorem legacy_reserved_address_reported_invalid :
  let legacy := {| LegacyDiagnostics.i2cProtocol := Some LegacyDiagnostics.default_i2c |} in
  let codes_legacy s :=
    let t := txt s in
    map (fun d => (code d, severity d))
        (LegacyDiagnostics.validateI2CUsage legacy t (document_of t) []) in
  let codes_current s :=
    let t := txt s in
    map (fun d => (code d, severity d))
        (validateI2CUsage no_board t (document_of t) []) in
  codes_legacy "Wire.begin(); Wire.beginTransmission(0x05);"
    = [("invalid-i2c-address"%string, Error)] /\
  codes_current "Wire.begin(); Wire.beginTransmission(0x05);"
    = [("reserved-i2c-address"%string, Error)] /\
  codes_legacy "Wire.begin(); Wire.beginTransmission(0x7F);"
    = [("invalid-i2c-address"%string, Error)] /\
  codes_current "Wire.begin(); Wire.beginTransmission(0x7F);"
    = [("reserved-i2c-address"%string, Error)].
Proof. vm_compute. repeat split; reflexivity. Qed.

(** On valid addresses the older copy also reports duplicates, after a
    hint for a known device. *)
Example legacy_duplicate :
  let legacy := {| LegacyDiagnostics.i2cProtocol := Some LegacyDiagnostics.default_i2c |} in
  let t := txt "Wire.begin(); Wire.beginTransmission(0x50); Wire.requestFrom(0x50, 2);" in
  map code (LegacyDiagnostics.validateI2CUsage legacy t (document_of t) []) =
  [ "i2c-device-hint"; "duplicate-i2c-address"; "i2c-device-hint" ]%string.
Proof. vm_compute. reflexivity. Qed.

End I2CFacts.

(** ** PWM *)

Section PWMFacts.
Import Regex Diagnostics.

(** The same calls inside a sketch, on a provider with the Arduino Uno
    loaded. *)
Definition uno : Board :=
  {| name := "Arduino Uno"; digital := [0;1;2;3;4;5;6;7;8;9;10;11;12;13]%N;
     analog := [14;15;16;17;18;19]%N; board_pwm := [3;5;6;9;10;11]%N;
     interrupts := Some [2;3]%N |}.

Definition with_uno : EmbeddedDiagnosticProvider :=
  {| hardwareDB := {| boards := [("arduino-uno"%string, uno)]; currentBoard := Some uno |} |}.

Example pwm_in_sketch :
  let t := txt "void loop() { analogWrite(2, 128); analogWrite(9, 300); analogWrite(9, 255); }" in
  map (fun d => (code d, severity d, message d, range_start (range d)))
      (validatePWMUsage with_uno t (document_of t)) =
  [ ("no-pwm-support"%string, Error, pin_without_pwm 2, {| line := 0; character := 26 |});
    ("pwm-value-overflow"%string, Error, pwm_value_exceeds 300, {| line := 0; character := 50 |}) ].
Proof. vm_compute. reflexivity. Qed.

(** *** The two calls inside any text *)

Ltac invert_matches :=
  repeat match goal with
  | H : matches (Lit _) _ |- _ => apply matches_Lit in H; subst
  | H : matches (Plus (Chr _)) _ |- _ => apply matches_Plus_class in H as [? ?]
  | H : matches (Star _ (Chr _)) _ |- _ => apply matches_Star_class in H
  | H : matches (Group _ _) _ |- _ => apply matches_Group_inv in H
  | H : matches (Seq _ _) _ |- _ =>
    apply matches_Seq_inv in H as (? & ? & -> & ? & ?)
  | H : matches (Chr _) _ |- _ => apply matches_Chr_inv in H as (? & -> & ?)
  end.

(** The shape of a text of the pattern: [analogWrite], white space, the
    only opening parenthesis of the text, and a closing parenthesis at the
    end. *)
Definition pwm_shape (M : text) : Prop :=
  exists ws rest X,
    M = txt "analogWrite" ++ ws ++ "("%char :: rest /\
    forallb is_space ws = true /\
    forallb (fun d => negb (ceq d "(")) rest = true /\
    M = X ++ [")"%char].

Lemma class_not_paren (p : ascii -> bool) :
  p "("%char = false -> forall d, p d = true -> negb (ceq d "(") = true.
Proof.
  intros Hp d Hd. destruct (ceq d "(") eqn:E; [|done].
  apply ceq_true in E as ->. congruence.
Qed.

Lemma pwm_match_shape M : matches pwmPattern M -> pwm_shape M.
Proof.
  unfold pwmPattern. intros H. invert_matches.
  repeat match goal with
  | H : ceq _ _ = true |- _ => apply ceq_true in H; subst
  end.
  eexists _, _, _. split; [reflexivity|]. split; [done|]. split.
  - rewrite !forallb_app. cbn [forallb]. rewrite !ceq_refl || idtac.
    repeat (apply andb_true_iff; split);
      try (eapply forallb_impl; [|eassumption]; by apply class_not_paren);
      done.
  - rewrite !app_assoc. reflexivity.
Qed.

(** A match that starts before a call [analogWrite(...] ends before it or
    where it starts. *)
Lemma call_not_overlapped pre tail u M v :
  pre ++ txt "analogWrite(" ++ tail = u ++ M ++ v ->
  length u < length pre ->
  pwm_shape M ->
  length u + length M <= length pre.
Proof.
  intros Heq Hu (ws & rest & X & HM & Hws & Hrest & Hlast).
  destruct (Nat.le_gt_cases (length u + length M) (length pre)) as [|Hgt]; [done|].
  exfalso.
  apply app_eq_inv in Heq as [(p2 & -> & Heq)|(k & -> & _)];
    [|rewrite length_app in Hu; lia].
  rewrite length_app in Hu, Hgt.
  symmetry in Heq.
  apply app_eq_inv in Heq as [(k & -> & _)|(M2 & -> & Heq)];
    [rewrite length_app in Hgt; lia|].
  rewrite length_app in Hgt.
  destruct M2 as [|c0 M2'] using rev_ind; [simpl in Hgt; lia|]. clear IHM2'.
  rewrite app_assoc in Hlast. apply app_inj_tail in Hlast as [_ ->].
  (* the end of the match is after the parenthesis of the call *)
  rewrite <- app_assoc in Heq. simpl in Heq.
  assert (HM3 : exists M3, M2' = txt "analogWrite(" ++ M3).
  { change ("a"%char :: "n"%char :: "a"%char :: "l"%char :: "o"%char :: "g"%char ::
            "W"%char :: "r"%char :: "i"%char :: "t"%char :: "e"%char :: "("%char :: tail)
      with (txt "analogWrite(" ++ tail) in Heq.
    apply app_eq_inv in Heq as [(k & Hk & Hv)|(k & Hk & _)]; [|by exists k].
    destruct k as [|c k].
    - exists []. by rewrite app_nil_r in *.
    - simpl in Hv. injection Hv as <- _.
      assert (Hin : In ")"%char (txt "analogWrite(")).
      { rewrite Hk. apply in_app_iff. right. by left. }
      simpl in Hin. intuition discriminate. }
  destruct HM3 as (M3 & ->).
  (* the only parenthesis of the match is the one of the call *)
  change (txt "analogWrite(") with (txt "analogWrite" ++ ["("%char]) in HM.
  rewrite <- !app_assoc in HM. simpl in HM.
  assert (Hsplit : (txt "analogWrite" ++ ws) ++ "("%char :: rest =
                   (p2 ++ txt "analogWrite") ++ "("%char :: M3 ++ [")"%char]).
  { rewrite <- !app_assoc. simpl. rewrite <- HM. simpl. done. }
  apply unique_split in Hsplit as [Hfront _]; [| |done].
  - destruct ws as [|c1 ws'] using rev_ind.
    + rewrite app_nil_r in Hfront.
      apply (f_equal length) in Hfront. rewrite length_app in Hfront. lia.
    + clear IHws'. rewrite forallb_app in Hws. simpl in Hws.
      change (txt "analogWrite") with (txt "analogWrit" ++ ["e"%char]) in Hfront at 2.
      rewrite !app_assoc in Hfront. apply app_inj_tail in Hfront as [_ ->].
      rewrite andb_true_r in Hws. apply andb_true_iff in Hws as [_ Hws]. done.
  - rewrite forallb_app. apply andb_true_iff. split; [done|].
    eapply forallb_impl; [|exact Hws]. by apply class_not_paren.
Qed.

(** A call [analogWrite(d, w)] with digits [d] and a word [w] that starts
    with a digit, written without other spaces, is matched where it
    starts. *)
Lemma match_here_call p prev d w post :
  d <> [] -> forallb is_digit d = true ->
  w <> [] -> forallb is_word w = true ->
  head_fails is_space w ->
  match_here pwmPattern p prev
    (txt "analogWrite(" ++ d ++ txt ", " ++ w ++ txt ")" ++ post) =
  Some {| index := p;
          matched := txt "analogWrite(" ++ d ++ txt ", " ++ w ++ txt ")";
          groups := [(2, w); (1, d)];
          after_prev := Some ")"%char;
          after := post |}.
Proof.
  intros Hd1 Hd2 Hw1 Hw2 Hw3.
  assert (Hdhead : head_fails is_space (d ++ txt ", " ++ w ++ txt ")" ++ post)).
  { destruct d as [|c d]; [done|]. simpl in Hd2 |- *.
    apply andb_true_iff in Hd2 as [Hc _].
    clear -Hc. destruct c as [[] [] [] [] [] [] [] []]; done. }
  unfold match_here, pwmPattern.
  change (txt "analogWrite(" ++ d ++ txt ", " ++ w ++ txt ")" ++ post)
    with (txt "analogWrite" ++ [] ++ "("%char :: [] ++ d ++ [] ++
          ","%char :: txt " " ++ w ++ [] ++ ")"%char :: post) at 1.
  rewrite run_Seq, run_Lit_ok.
  rewrite run_Seq. apply run_Star_ok; [done..|].
  cbn [app]. rewrite run_Seq, run_Chr_ok by done.
  rewrite run_Seq.
  apply (run_Star_ok _ []); [done|exact Hdhead|]. cbn [app].
  rewrite run_Seq. apply run_Group_Plus_ok; [done..|].
  rewrite run_Seq. apply (run_Star_ok _ []); [done..|]. cbn [app].
  rewrite run_Seq, run_Chr_ok by done.
  rewrite run_Seq. apply (run_Star_ok _ (txt " ")); [done| |].
  { destruct w as [|c w]; [done|]. exact Hw3. }
  rewrite run_Seq. apply run_Group_Plus_ok; [done..|].
  rewrite run_Seq. apply (run_Star_ok _ []); [done..|]. cbn [app].
  rewrite run_Chr_ok by done.
  f_equal. f_equal.
  replace (txt "analogWrite(" ++ d ++ txt ", " ++ w ++ txt ")" ++ post)
    with ((txt "analogWrite(" ++ d ++ txt ", " ++ w ++ txt ")") ++ post)
    by (by rewrite <- !app_assoc).
  apply take_consumed.
Qed.

(** Such a call is among the matches that the loop goes through, wherever
    it stands in the text. *)
Lemma call_is_scanned pre d w post :
  d <> [] -> forallb is_digit d = true ->
  w <> [] -> forallb is_word w = true ->
  head_fails is_space w ->
  In {| index := length pre;
        matched := txt "analogWrite(" ++ d ++ txt ", " ++ w ++ txt ")";
        groups := [(2, w); (1, d)];
        after_prev := Some ")"%char;
        after := post |}
     (exec_all pwmPattern
        (pre ++ txt "analogWrite(" ++ d ++ txt ", " ++ w ++ txt ")" ++ post)).
Proof.
  intros Hd1 Hd2 Hw1 Hw2 Hw3.
  set (t := pre ++ txt "analogWrite(" ++ d ++ txt ", " ++ w ++ txt ")" ++ post).
  unfold exec_all.
  change (exec_from (S (length t)) pwmPattern 0 None t)
    with (exec_from (S (length t)) pwmPattern 0 (prev_of t 0) (drop 0 t)).
  apply (exec_from_reaches pwmPattern t (length pre) _) with (d := length pre);
    [| | |lia..].
  - unfold t. rewrite drop_app_length. by apply match_here_call.
  - done.
  - intros j m Hj Hm.
    apply match_here_sound in Hm as (_ & Hsplit & Hmatches & _).
    apply pwm_match_shape in Hmatches as Hshape. split.
    + destruct Hshape as (ws & rest & X & -> & _). done.
    + assert (Hlen : j = length (take j t)).
      { rewrite length_take. unfold t. rewrite length_app. lia. }
      rewrite Hlen at 1.
      apply (call_not_overlapped pre (d ++ txt ", " ++ w ++ txt ")" ++ post)
               (take j t) (matched m) (after m)); [|lia|done].
      rewrite <- Hsplit, take_drop. done.
Qed.

(** C7: the two calls of the specification, for every provider (whatever
    board it has loaded, an Arduino Uno or any other) and every document.
    On the call alone, [analogWrite(2, 128)] yields the error
    [no-pwm-support] on pin 2 and nothing else, and [analogWrite(9, 300)]
    yields no [no-pwm-support] and the error [pwm-value-overflow] on the
    value 300.  In any text that contains the call, after [pre] and before
    [post], the loop reaches the call, what it pushes for it is that one
    error, and so the error is among the diagnostics of the text. *)
Theorem pwm_validity_examples
    (this : EmbeddedDiagnosticProvider) (document : TextDocument) (pre post : text) :
  let no_pwm i :=
    {| severity := Error; range := range_at (positionAt document (i + 12)) 1;
       message := pin_without_pwm 2;
       source := "Sentinel"; code := "no-pwm-support" |} in
  let overflow i :=
    {| severity := Error; range := range_at (positionAt document (i + 15)) 3;
       message := pwm_value_exceeds 300;
       source := "Sentinel"; code := "pwm-value-overflow" |} in
  validatePWMUsage this (txt "analogWrite(2, 128)") document = [no_pwm 0] /\
  validatePWMUsage this (txt "analogWrite(9, 300)") document = [overflow 0] /\
  (exists m,
     In m (exec_all pwmPattern (pre ++ txt "analogWrite(2, 128)" ++ post)) /\
     index m = length pre /\ matched m = txt "analogWrite(2, 128)" /\
     pwm_step this document m = [no_pwm (length pre)]) /\
  In (no_pwm (length pre))
     (validatePWMUsage this (pre ++ txt "analogWrite(2, 128)" ++ post) document) /\
  (exists m,
     In m (exec_all pwmPattern (pre ++ txt "analogWrite(9, 300)" ++ post)) /\
     index m = length pre /\ matched m = txt "analogWrite(9, 300)" /\
     pwm_step this document m = [overflow (length pre)]) /\
  In (overflow (length pre))
     (validatePWMUsage this (pre ++ txt "analogWrite(9, 300)" ++ post) document).
Proof.
  cbv zeta.
  pose proof (call_is_scanned pre (txt "2") (txt "128") post) as H1.
  pose proof (call_is_scanned pre (txt "9") (txt "300") post) as H2.
  specialize (H1 ltac:(done) eq_refl ltac:(done) eq_refl eq_refl).
  specialize (H2 ltac:(done) eq_refl ltac:(done) eq_refl eq_refl).
  split; [reflexivity|]. split; [reflexivity|].
  split; [eexists; split; [exact H1|]; repeat split; reflexivity|].
  split.
  { unfold validatePWMUsage. apply in_flat_map. eexists. split; [exact H1|].
    by left. }
  split; [eexists; split; [exact H2|]; repeat split; reflexivity|].
  unfold validatePWMUsage. apply in_flat_map. eexists. split; [exact H2|].
  by left.
Qed.

(** C10: [validatePWMUsage] does not read the hardware database.  Two
    providers, with any board loaded or none, give the same diagnostics on
    every text; for every match the error [no-pwm-support] is pushed exactly
    when the pin is not one of 3, 5, 6, 9, 10, 11, and the error
    [pwm-value-overflow] exactly when the value is a number above 255. *)
Theorem validatePWMUsage_ignores_board
    (this1 this2 : EmbeddedDiagnosticProvider) (text : text) (document : TextDocument) :
  validatePWMUsage this1 text document = validatePWMUsage this2 text document /\
  (forall m,
     (exists d, In d (pwm_step this1 document m) /\ code d = "no-pwm-support"%string) <->
     includesN [3; 5; 6; 9; 10; 11]%N (Js.parseInt (default [] (group m 1))) = false) /\
  (forall m,
     (exists d, In d (pwm_step this1 document m) /\ code d = "pwm-value-overflow"%string) <->
     exists v, pwm_value (default [] (group m 2)) = Some v /\ (255 < v)%N).
Proof.
  split; [reflexivity|]. split; intros m; unfold pwm_step; cbv zeta.
  - fold pwmPins.
    destruct (includesN pwmPins (Js.parseInt (default [] (group m 1)))); cbn [negb].
    + split; [|done]. intros (d & Hd & Hcode). simpl in Hd.
      destruct (pwm_value (default [] (group m 2))) as [v|]; [|done].
      destruct (255 <? v)%N; [|done].
      destruct Hd as [<-|[]]. discriminate Hcode.
    + split; [intros _; reflexivity|]. intros _. eexists. split.
      * apply in_app_iff. left. by left.
      * done.
  - destruct (pwm_value (default [] (group m 2))) as [v|].
    + destruct (N.ltb_spec 255 v).
      * split; [intros _; by exists v|]. intros _. eexists. split.
        -- apply in_app_iff. right. by left.
        -- done.
      * split; [|intros (v' & [= <-] & ?); lia].
        intros (d & Hd & Hcode). rewrite app_nil_r in Hd.
        destruct (negb _); [|done]. destruct Hd as [<-|[]]. discriminate Hcode.
    + split; [|by intros (v' & [=] & ?)].
      intros (d & Hd & Hcode). rewrite app_nil_r in Hd.
      destruct (negb _); [|done]. destruct Hd as [<-|[]]. discriminate Hcode.
Qed.

(** A sibling validator that does read the board: an interrupt on pin 5 is
    an error on the Arduino Uno and is not checked when no board is
    loaded. *)
Example validateInterruptUsage_reads_board :
  let t := txt "attachInterrupt(digitalPinToInterrupt(5), isr, RISING); analogWrite(5, 300);" in
  map code (validateInterruptUsage with_uno t (document_of t)) = ["invalid-interrupt-pin"%string] /\
  validateInterruptUsage no_board t (document_of t) = [] /\
  validatePWMUsage with_uno t (document_of t) = validatePWMUsage no_board t (document_of t) /\
  map code (validatePWMUsage no_board t (document_of t)) = ["pwm-value-overflow"%string].
Proof. vm_compute. repeat split; reflexivity. Qed.

End PWMFacts.

(** ** The check for [Wire.begin] *)

Section WireBeginFacts.
Import Regex Diagnostics.

(** The member calls of [Wire] that the check looks for. *)
Definition wire_calls : list text :=
  [ txt "Wire.beginTransmission"; txt "Wire.requestFrom";
    txt "Wire.write"; txt "Wire.read" ].

(** The text [l] occurs in [t] at offset [i]. *)
Definition occurs_at (l t : text) (i : nat) : bool := starts_with l (drop i t).

(** The member call that starts the text [s], if any. *)
Definition call_at (s : text) : option text :=
  List.find (fun l => starts_with l s) wire_calls.

Lemma match_here_wireUse i prev s :
  match_here wireUsePattern i prev s =
  match call_at s with
  | Some l => Some {| index := i; matched := l; groups := [];
                      after_prev := last_or l prev; after := drop (length l) s |}
  | None => None
  end.
Proof.
  unfold match_here, wireUsePattern, call_at, wire_calls.
  cbn [run List.find]. rewrite run_Lit.
  change (txt "Wire.beginTransmission") with (txt "Wire." ++ txt "beginTransmission").
  change (txt "Wire.requestFrom") with (txt "Wire." ++ txt "requestFrom").
  change (txt "Wire.write") with (txt "Wire." ++ txt "write").
  change (txt "Wire.read") with (txt "Wire." ++ txt "read").
  rewrite !starts_with_split.
  destruct (starts_with (txt "Wire.") s) eqn:Hw; [|done]. cbn [andb].
  rewrite !run_Lit.
  assert (Hm : forall l, starts_with l (drop (length (txt "Wire.")) s) = true ->
    take (length s - length (drop (length l) (drop (length (txt "Wire.")) s))) s
      = txt "Wire." ++ l /\
    drop (length l) (drop (length (txt "Wire.")) s) = drop (length (txt "Wire." ++ l)) s).
  { intros l Hl. rewrite drop_drop, <- length_app. split; [|done].
    apply matched_literal. by rewrite starts_with_split, Hw, Hl. }
  destruct (starts_with (txt "beginTransmission") _) eqn:H1.
  { destruct (Hm _ H1) as [-> ->]. done. }
  destruct (starts_with (txt "requestFrom") _) eqn:H2.
  { destruct (Hm _ H2) as [-> ->]. done. }
  destruct (starts_with (txt "write") _) eqn:H3.
  { destruct (Hm _ H3) as [-> ->]. done. }
  destruct (starts_with (txt "read") _) eqn:H4; [|done].
  destruct (Hm _ H4) as [-> ->]. done.
Qed.

(** Where [Wire.begin] with its parenthesis is matched, the text has
    [Wire.begin], then white space, then the parenthesis. *)
Lemma match_here_wireBegin_sound i prev s m :
  match_here wireBeginPattern i prev s = Some m ->
  exists ws, forallb is_space ws = true /\
    starts_with (txt "Wire.begin" ++ ws ++ txt "(") s = true.
Proof.
  unfold match_here, wireBeginPattern. rewrite run_Seq, run_Lit.
  destruct (starts_with (txt "Wire.begin") s) eqn:Hlit; [|done].
  rewrite run_Seq, run_Star_class. intros H.
  apply star_class_sound in H as (ws & s' & prev' & Hs & Hws & Hk).
  exists ws. split; [done|]. rewrite run_Chr in Hk.
  destruct s' as [|c s']; [done|]. destruct (ceq "(" c) eqn:Hc; [|done].
  apply ceq_true in Hc as <-.
  rewrite (starts_with_app _ _ Hlit), Hs.
  change ("("%char :: s') with (txt "(" ++ s').
  rewrite !app_assoc. apply starts_with_prefix.
Qed.

Definition is_missing_wire_begin (d : Diagnostic) : bool :=
  String.eqb (code d) "missing-wire-begin".

(** The address loop pushes no diagnostic with this code. *)
Lemma expected_all_no_wire_begin document seen ms :
  List.filter is_missing_wire_begin (expected_all document seen ms) = [].
Proof.
  revert seen. induction ms as [|m ms IH]; intros seen; [done|].
  cbn [expected_all]. rewrite List.filter_app, IH, app_nil_r.
  unfold expected_for.
  destruct (reserved_low _); [done|]. destruct (reserved_high _); [done|].
  destruct (_ <? _)%N; [done|]. by destruct (bool_decide _).
Qed.

(** C6 (with the condition that the code tests): for every text with at
    least one member call of [Wire] ([beginTransmission], [requestFrom],
    [write] or [read]) and without [Wire.begin] followed by optional white
    space and an opening parenthesis, I2C validation pushes exactly one
    diagnostic with the code [missing-wire-begin]; it is an error, and its
    range starts at the position of the first such call in the text and
    covers it. *)
Theorem missing_wire_begin_once
    (this : EmbeddedDiagnosticProvider) (text : text) (document : TextDocument) :
  (exists i l, In l wire_calls /\ occurs_at l text i = true) ->
  (forall i ws, forallb is_space ws = true ->
     occurs_at (txt "Wire.begin" ++ ws ++ txt "(") text i = false) ->
  exists i l,
    In l wire_calls /\ occurs_at l text i = true /\
    (forall j l', j < i -> In l' wire_calls -> occurs_at l' text j = false) /\
    List.filter is_missing_wire_begin (validateI2CUsage this text document []) =
      [ {| severity := Error;
           range := range_at (positionAt document i) (length l);
           message := message_text
             "Wire functions used without Wire.begin(). Add Wire.begin() in setup()";
           source := "Sentinel"; code := "missing-wire-begin" |} ].
Proof.
  intros (i0 & l0 & Hl0 & Hocc0) Hnobegin.
  (* the first match of the use pattern *)
  pose proof (search_first wireUsePattern 0 None text) as Huse.
  fold (exec wireUsePattern text) in Huse.
  destruct (exec wireUsePattern text) as [m|] eqn:Hexec; cycle 1.
  { exfalso. unfold occurs_at in Hocc0.
    destruct (Nat.le_gt_cases i0 (length text)) as [Hle|Hgt].
    - specialize (Huse i0 Hle). rewrite match_here_wireUse in Huse.
      destruct (call_at (drop i0 text)) eqn:Hcall; [done|].
      pose proof (List.find_none _ _ Hcall l0 Hl0) as Hn. simpl in Hn. congruence.
    - rewrite drop_ge in Hocc0 by lia.
      repeat (destruct Hl0 as [<-|Hl0]; [done|]). done. }
  destruct Huse as (j & Hj & Hmatch & Hfirst).
  rewrite match_here_wireUse in Hmatch.
  destruct (call_at (drop j text)) as [l|] eqn:Hcall; [|done].
  injection Hmatch as <-.
  apply List.find_some in Hcall as [Hl Hocc].
  assert (Hbefore : forall j' l', j' < j -> In l' wire_calls ->
                                  occurs_at l' text j' = false).
  { intros j' l' Hj' Hl'. specialize (Hfirst j' Hj').
    rewrite match_here_wireUse in Hfirst.
    destruct (call_at (drop j' text)) eqn:Hc'; [done|].
    exact (List.find_none _ _ Hc' l' Hl'). }
  exists j, l. split; [done|]. split; [done|]. split; [done|].
  (* no match of the begin pattern *)
  assert (Hbegin : test wireBeginPattern text = false).
  { unfold test. pose proof (search_first wireBeginPattern 0 None text) as Hb.
    fold (exec wireBeginPattern text) in Hb.
    destruct (exec wireBeginPattern text) as [mb|]; [|done].
    destruct Hb as (jb & _ & Hmb & _).
    apply match_here_wireBegin_sound in Hmb as (ws & Hws & Hstart).
    specialize (Hnobegin jb ws Hws). unfold occurs_at in Hnobegin. congruence. }
  (* the offset that indexOf gives *)
  assert (Hindex : indexOf text l = Some j).
  { unfold indexOf. pose proof (indexOf_from_first l 0 text) as Hi.
    destruct (indexOf_from l 0 text) as [n|].
    - destruct Hi as (j2 & -> & Hocc2 & Hfirst2). f_equal. simpl.
      destruct (Nat.lt_trichotomy j2 j) as [Hlt|[->|Hgt]]; [|done|].
      + specialize (Hbefore j2 l Hlt Hl). unfold occurs_at in Hbefore. congruence.
      + specialize (Hfirst2 j Hgt). congruence.
    - specialize (Hi j). congruence. }
  unfold validateI2CUsage. cbv zeta.
  assert (Htr : tracks ∅ []).
  { intros a _ _. split; [set_solver|]. by intros ?%elem_of_nil. }
  rewrite (address_loop_expected text document _ ∅ [] [] Htr).
  unfold wire_begin_check. cbv zeta.
  unfold test at 1. rewrite Hexec, Hbegin. cbn [andb negb matched].
  rewrite Hindex. cbn [default].
  rewrite app_nil_l, List.filter_app, expected_all_no_wire_begin. reflexivity.
Qed.

(** The first member call of a sketch without [Wire.begin]. *)
Lemma missing_wire_begin_once_witness :
  let t := txt "void loop() { Wire.beginTransmission(0x50); Wire.write(1); }" in
  (exists i l, In l wire_calls /\ occurs_at l t i = true) /\
  (forall i ws, forallb is_space ws = true ->
     occurs_at (txt "Wire.begin" ++ ws ++ txt "(") t i = false) /\
  exists i l,
    In l wire_calls /\ occurs_at l t i = true /\
    (forall j l', j < i -> In l' wire_calls -> occurs_at l' t j = false) /\
    List.filter is_missing_wire_begin (validateI2CUsage no_board t (document_of t) []) =
      [ {| severity := Error;
           range := range_at (positionAt (document_of t) i) (length l);
           message := message_text
             "Wire functions used without Wire.begin(). Add Wire.begin() in setup()";
           source := "Sentinel"; code := "missing-wire-begin" |} ].
Proof.
  set (t := txt "void loop() { Wire.beginTransmission(0x50); Wire.write(1); }").
  assert (H1 : exists i l, In l wire_calls /\ occurs_at l t i = true).
  { exists 14, (txt "Wire.beginTransmission"). split; [by left|reflexivity]. }
  assert (H2 : forall i ws, forallb is_space ws = true ->
     occurs_at (txt "Wire.begin" ++ ws ++ txt "(") t i = false).
  { intros i ws Hws. unfold occurs_at.
    change (txt "Wire.begin" ++ ws ++ txt "(") with (txt "Wire.begin" ++ (ws ++ txt "(")).
    rewrite starts_with_split.
    assert (Hi : i = 14 \/ starts_with (txt "Wire.begin") (drop i t) = false).
    { do 61 (destruct i as [|i]; [(by left) || (by right)|]). right.
      by rewrite drop_ge by (simpl; lia). }
    destruct Hi as [-> | ->]; [|done].
    destruct ws as [|c ws]; [done|]. simpl in Hws |- *.
    apply andb_true_iff in Hws as [Hc _].
    destruct (ceq c "T") eqn:E; [|done]. apply ceq_true in E as ->. done. }
  split; [exact H1|]. split; [exact H2|].
  exact (missing_wire_begin_once no_board t (document_of t) H1 H2).
Defined.

(** The claim with the literal text [Wire.begin(] fails on a sketch that
    calls [Wire.begin ()] with a space: the text has a member call and no
    occurrence of [Wire.begin(], and no diagnostic is pushed. *)
Lemma wire_begin_with_space_accepted :
  let t := txt "void setup() { Wire.begin (); Wire.write(1); }" in
  (exists i, occurs_at (txt "Wire.write") t i = true) /\
  (forall i, i <= length t -> occurs_at (txt "Wire.begin(") t i = false) /\
  List.filter is_missing_wire_begin (validateI2CUsage no_board t (document_of t) []) = [].
Proof.
  split; [by exists 30|]. split; [|reflexivity].
  intros i Hi. simpl in Hi.
  do 47 (destruct i as [|i]; [reflexivity|]). lia.
Qed.

End WireBeginFacts.

(** ** Numbers

    Rounding to the nearest double keeps the order, and changes no number
    that is a double already. *)

Section NumberFacts.
Import JsNumber.
Open Scope N_scope.

Lemma ulp_small n : n < 2 ^ 53 -> ulp n = 1.
Proof.
  intros Hn. unfold ulp.
  destruct (N.eq_dec n 0) as [->|Hpos]; [done|].
  assert (Hl : N.log2 n < 53) by (apply N.log2_lt_pow2; lia).
  replace (N.log2 n - 52) with 0 by lia. done.
Qed.

Lemma ulp_big n :
  2 ^ 53 <= n ->
  exists e, 1 <= e /\ ulp n = 2 ^ e /\ 2 ^ 52 * 2 ^ e <= n < 2 ^ 53 * 2 ^ e.
Proof.
  intros Hn. assert (Hpos : 0 < n) by lia.
  assert (Hl : 53 <= N.log2 n) by (apply N.log2_le_pow2; lia).
  exists (N.log2 n - 52). split; [lia|]. split; [done|].
  destruct (N.log2_spec n Hpos) as [H1 H2].
  rewrite <- !N.pow_add_r.
  replace (52 + (N.log2 n - 52)) with (N.log2 n) by lia.
  replace (53 + (N.log2 n - 52)) with (N.succ (N.log2 n)) by lia. done.
Qed.

Lemma round_at_bounds u q r : q * u <= round_at u q r <= (q + 1) * u.
Proof.
  unfold round_at.
  destruct (2 * r <? u); [lia|]. destruct (u <? 2 * r); [lia|].
  destruct (N.even q); lia.
Qed.

Lemma round_at_mono u q r1 r2 :
  r1 <= r2 -> round_at u q r1 <= round_at u q r2.
Proof.
  intros Hr. unfold round_at.
  destruct (N.ltb_spec (2 * r1) u), (N.ltb_spec (2 * r2) u),
    (N.ltb_spec u (2 * r1)), (N.ltb_spec u (2 * r2)), (N.even q); lia.
Qed.

Lemma round_small n : n < 2 ^ 53 -> round n = n.
Proof.
  intros Hn. unfold round. rewrite ulp_small by done. cbv zeta.
  rewrite N.mod_1_r, N.div_1_r. unfold round_at. simpl. lia.
Qed.

Lemma round_fixed n : n mod ulp n = 0 -> round n = n.
Proof.
  intros Hm. unfold round. cbv zeta. rewrite Hm. unfold round_at.
  assert (Hu : 0 < ulp n) by (unfold ulp; apply N.neq_0_lt_0, N.pow_nonzero; lia).
  assert (H0 : (2 * 0 <? ulp n) = true) by (apply N.ltb_lt; lia).
  rewrite H0. pose proof (N.div_mod n (ulp n) ltac:(lia)). lia.
Qed.

(** The cell of a number above [2 ^ 53]. *)
Lemma round_big n :
  2 ^ 53 <= n ->
  exists e, 1 <= e /\ ulp n = 2 ^ e /\
    2 ^ 52 * 2 ^ e <= n < 2 ^ 53 * 2 ^ e /\
    2 ^ 52 <= n / 2 ^ e < 2 ^ 53 /\
    2 ^ 52 * 2 ^ e <= round n <= 2 ^ 53 * 2 ^ e.
Proof.
  intros Hn. destruct (ulp_big n Hn) as (e & He & Hu & Hlo & Hhi).
  exists e. split; [done|]. split; [done|]. split; [done|].
  assert (Hpos : 2 ^ e <> 0) by (apply N.pow_nonzero; lia).
  assert (Hq1 : 2 ^ 52 <= n / 2 ^ e).
  { apply N.div_le_lower_bound; [done|]. lia. }
  assert (Hq2 : n / 2 ^ e < 2 ^ 53).
  { apply N.Div0.div_lt_upper_bound. lia. }
  split; [done|].
  unfold round. rewrite Hu. cbv zeta.
  pose proof (round_at_bounds (2 ^ e) (n / 2 ^ e) (n mod 2 ^ e)) as [Hb1 Hb2].
  split.
  - etrans; [|exact Hb1]. apply N.mul_le_mono_r. done.
  - etrans; [exact Hb2|]. apply N.mul_le_mono_r. lia.
Qed.

Lemma round_mono a b : a <= b -> round a <= round b.
Proof.
  intros Hab.
  destruct (N.lt_ge_cases b (2 ^ 53)) as [Hb|Hb].
  { rewrite !round_small by lia. done. }
  destruct (round_big b Hb) as (eb & Heb & Hub & Hbb & Hqb & Hrb).
  destruct (N.lt_ge_cases a (2 ^ 53)) as [Ha|Ha].
  { rewrite (round_small a) by done.
    assert (2 ^ 52 * 2 ^ 1 <= 2 ^ 52 * 2 ^ eb)
      by (apply N.mul_le_mono_l, N.pow_le_mono_r; lia).
    change (2 ^ 52 * 2 ^ 1) with (2 ^ 53) in *. lia. }
  destruct (round_big a Ha) as (ea & Hea & Hua & Hba & Hqa & Hra).
  destruct (N.lt_trichotomy ea eb) as [Hlt|[->|Hgt]].
  - assert (2 ^ 53 * 2 ^ ea <= 2 ^ 52 * 2 ^ eb); [|lia].
    replace eb with (ea + 1 + (eb - ea - 1)) by lia.
    rewrite !N.pow_add_r. change (2 ^ 1) with 2.
    assert (1 <= 2 ^ (eb - ea - 1)).
    { apply N.lt_pred_le. simpl. apply N.neq_0_lt_0, N.pow_nonzero. lia. }
    nia.
  - unfold round. rewrite Hua, Hub. cbv zeta.
    assert (Hpos : 2 ^ eb <> 0) by (apply N.pow_nonzero; lia).
    assert (Hq : a / 2 ^ eb <= b / 2 ^ eb) by (by apply N.Div0.div_le_mono).
    pose proof (N.div_mod a (2 ^ eb) Hpos) as Hda.
    pose proof (N.div_mod b (2 ^ eb) Hpos) as Hdb.
    pose proof (N.mod_lt a (2 ^ eb) Hpos) as Hma.
    pose proof (N.mod_lt b (2 ^ eb) Hpos) as Hmb.
    destruct (N.eq_dec (a / 2 ^ eb) (b / 2 ^ eb)) as [Heq|Hne].
    + rewrite Heq in *. apply round_at_mono. nia.
    + pose proof (round_at_bounds (2 ^ eb) (a / 2 ^ eb) (a mod 2 ^ eb)) as [_ H1].
      pose proof (round_at_bounds (2 ^ eb) (b / 2 ^ eb) (b mod 2 ^ eb)) as [H2 _].
      assert ((a / 2 ^ eb + 1) * 2 ^ eb <= b / 2 ^ eb * 2 ^ eb)
        by (apply N.mul_le_mono_r; lia).
      lia.
  - exfalso.
    assert (2 ^ 53 * 2 ^ eb <= 2 ^ 52 * 2 ^ ea); [|lia].
    replace ea with (eb + 1 + (ea - eb - 1)) by lia.
    rewrite !N.pow_add_r. change (2 ^ 1) with 2.
    assert (1 <= 2 ^ (ea - eb - 1)).
    { apply N.lt_pred_le. simpl. apply N.neq_0_lt_0, N.pow_nonzero. lia. }
    nia.
Qed.

Lemma round_idem n : round (round n) = round n.
Proof.
  destruct (N.lt_ge_cases n (2 ^ 53)) as [Hn|Hn].
  { rewrite (round_small n Hn). by apply round_small. }
  destruct (round_big n Hn) as (e & He & Hu & Hb & Hq & Hr).
  apply round_fixed.
  assert (Hpos : 2 ^ e <> 0) by (apply N.pow_nonzero; lia).
  assert (Hmul : exists q', round n = q' * 2 ^ e).
  { unfold round. rewrite Hu. cbv zeta. unfold round_at.
    destruct (_ <? _); [eauto|]. destruct (_ <? _); [eauto|].
    destruct (N.even _); eauto. }
  destruct Hmul as [q' Hq'].
  destruct (N.lt_ge_cases (round n) (2 ^ 53 * 2 ^ e)) as [Hlt|Hge].
  - assert (Hlog : N.log2 (round n) = 52 + e).
    { apply N.log2_unique; [lia|]. rewrite N.pow_succ_r', !N.pow_add_r. lia. }
    unfold ulp. rewrite Hlog. replace (52 + e - 52) with e by lia.
    rewrite Hq'. apply N.Div0.mod_mul.
  - assert (Heq : round n = 2 ^ 53 * 2 ^ e) by lia.
    assert (Hlog : N.log2 (round n) = 53 + e).
    { rewrite Heq, <- N.pow_add_r. apply N.log2_pow2. lia. }
    unfold ulp. rewrite Hlog. replace (53 + e - 52) with (e + 1) by lia.
    rewrite Heq. replace (2 ^ 53 * 2 ^ e) with (2 ^ 52 * 2 ^ (e + 1)).
    + by apply N.Div0.mod_mul.
    + rewrite N.pow_add_r. change (2 ^ 1) with 2. change (2 ^ 53) with (2 ^ 52 * 2). lia.
Qed.

(** A number of the code is a number that JavaScript can hold: [NaN],
    [Infinity] or a natural number that rounding leaves as it is. *)
Definition valid (x : number) : Prop :=
  match x with
  | Finite n => round n = n /\ n < 2 ^ 1024
  | _ => True
  end.

(** [a <= b] on numbers: false when one of them is [NaN]. *)
Definition num_le (a b : number) : Prop :=
  match a, b with
  | Finite x, Finite y => x <= y
  | Finite _, Infinity | Infinity, Infinity => True
  | _, _ => False
  end.

Lemma of_N_valid n : valid (of_N n).
Proof.
  unfold of_N. cbv zeta. destruct (N.leb_spec (2 ^ 1024) (round n)); [done|].
  split; [apply round_idem|done].
Qed.

Lemma of_N_fixed n : round n = n -> n < 2 ^ 1024 -> of_N n = Finite n.
Proof.
  intros Hr Hn. unfold of_N. cbv zeta. rewrite Hr.
  destruct (N.leb_spec (2 ^ 1024) n); [lia|done].
Qed.

Lemma of_N_small n : n < 2 ^ 53 -> of_N n = Finite n.
Proof.
  intros Hn. apply of_N_fixed; [by apply round_small|].
  assert (2 ^ 53 <= 2 ^ 1024) by (apply N.pow_le_mono_r; lia). lia.
Qed.

Lemma of_N_not_NaN n : of_N n <> NaN.
Proof. unfold of_N. cbv zeta. by destruct (_ <=? _). Qed.

Lemma of_N_mono a b : a <= b -> num_le (of_N a) (of_N b).
Proof.
  intros Hab. pose proof (round_mono a b Hab) as Hr. unfold of_N. cbv zeta.
  destruct (N.leb_spec (2 ^ 1024) (round a)), (N.leb_spec (2 ^ 1024) (round b));
    simpl; try done. lia.
Qed.

Lemma num_le_trans a b c : num_le a b -> num_le b c -> num_le a c.
Proof. destruct a, b, c; simpl; try done. lia. Qed.


Lemma add_NaN a b : add a b = NaN <-> a = NaN \/ b = NaN.
Proof.
  destruct a as [| |x], b as [| |y]; simpl; split; intros H;
    try done; try tauto; try (by destruct H); by apply of_N_not_NaN in H.
Qed.

Lemma add_Infinity_l b : b <> NaN -> add Infinity b = Infinity.
Proof. by destruct b. Qed.

Lemma add_valid a b : valid (add a b).
Proof. destruct a as [| |x], b as [| |y]; simpl; try done. apply of_N_valid. Qed.


Lemma add_ge_l a b : valid a -> a <> NaN -> b <> NaN -> num_le a (add a b).
Proof.
  intros Hv Ha Hb. destruct a as [| |x], b as [| |y]; try done.
  destruct Hv as [Hr Hx]. cbn [add]. rewrite <- (of_N_fixed x Hr Hx) at 1.
  apply of_N_mono. lia.
Qed.

Lemma mul_NaN a b :
  mul a b = NaN <->
  a = NaN \/ b = NaN \/ (a = Finite 0 /\ b = Infinity) \/ (a = Infinity /\ b = Finite 0).
Proof.
  destruct a as [| |[|x]], b as [| |[|y]]; simpl; split; intros H;
    try done; try tauto;
    try (by destruct H as [H|[H|[[H1 H2]|[H1 H2]]]]);
    by apply of_N_not_NaN in H.
Qed.

End NumberFacts.

(** ** The memory estimate *)

Section MemoryFacts.
Import Regex MemoryAnalyzer.

(** Removing and counting matches never run out of turns. *)
Lemma remove_from_enough r n :
  forall i prev s, length s < n ->
    remove_from (S n) r i prev s = remove_from n r i prev s.
Proof.
  induction n as [|n IH]; intros i prev s Hn; [lia|].
  cbn [remove_from]. destruct (search r i prev s) as [m|] eqn:Hs; [|done].
  apply search_after in Hs as [Hs _]. f_equal.
  destruct (length (matched m) =? 0) eqn:Hlen.
  - destruct (after m) as [|c rest]; [done|]. f_equal. apply IH.
    simpl in Hs. lia.
  - apply Nat.eqb_neq in Hlen. apply IH. lia.
Qed.

Lemma count_from_enough r n :
  forall i prev s, length s < n ->
    count_from (S n) r i prev s = count_from n r i prev s.
Proof.
  induction n as [|n IH]; intros i prev s Hn; [lia|].
  cbn [count_from]. destruct (search r i prev s) as [m|] eqn:Hs; [|done].
  apply search_after in Hs as [Hs _]. f_equal.
  destruct (length (matched m) =? 0) eqn:Hlen.
  - destruct (after m) as [|c rest]; [done|]. apply IH. simpl in Hs. lia.
  - apply Nat.eqb_neq in Hlen. apply IH. lia.
Qed.

(** The sizes of a list of entries, added up in the order of the list as
    the code adds them: the sum rounds at each step. *)
Definition sum_from (a : num) (l : list RamItem) : num :=
  fold_left (fun acc it => num_add acc (size it)) l a.

Definition sum_sizes (l : list RamItem) : num := sum_from (JsNumber.Finite 0) l.

Lemma sum_sizes_snoc l it : sum_sizes (l ++ [it]) = num_add (sum_sizes l) (size it).
Proof. unfold sum_sizes, sum_from. by rewrite fold_left_app. Qed.


(** [ram.globalVariables] and [ram.items] are updated together. *)
Definition accounted (r : Ram) : Prop := globalVariables r = sum_sizes (items r).

Lemma global_step_accounted cleanText r m :
  accounted r -> accounted (global_step cleanText r m).
Proof.
  unfold accounted, global_step. intros H.
  destruct (at_global_scope cleanText (index m)); [|done].
  cbn [globalVariables items]. by rewrite sum_sizes_snoc, H.
Qed.

Lemma instance_step_accounted cleanText structName sz r m :
  accounted r -> accounted (instance_step cleanText structName sz r m).
Proof.
  unfold accounted, instance_step. intros H.
  destruct (at_global_scope cleanText (index m)); [|done].
  cbn [globalVariables items]. by rewrite sum_sizes_snoc, H.
Qed.

Lemma fold_left_accounted {A} (f : Ram -> A -> Ram) (l : list A) r :
  (forall r a, accounted r -> accounted (f r a)) ->
  accounted r -> accounted (fold_left f l r).
Proof.
  intros Hf. revert r. induction l as [|a l IH]; intros r Hr; [done|].
  simpl. apply IH. by apply Hf.
Qed.

Lemma analyzeGlobalVariables_accounted source analysis :
  accounted (ram analysis) -> accounted (ram (analyzeGlobalVariables source analysis)).
Proof.
  intros H. unfold analyzeGlobalVariables. cbv zeta. cbn [ram set_ram].
  apply fold_left_accounted.
  - intros r [structName sz] Hr. apply fold_left_accounted; [|done].
    intros. by apply instance_step_accounted.
  - apply fold_left_accounted; [|done]. intros. by apply global_step_accounted.
Qed.

Lemma analyzeMemory_accounted this source :
  accounted (ram (analyzeMemory this source)).
Proof.
  unfold analyzeMemory. cbv zeta. unfold accounted.
  cbn [ram set_ram set_flash analyzeStackUsage analyzeStringLiterals
       globalVariables items].
  apply analyzeGlobalVariables_accounted. reflexivity.
Qed.



(** *** A new first line

    The new declaration stands on a line of its own, with its semicolon.
    No comment starts in it: no slash is followed by a slash or by a star.
    It defines no struct: nowhere in it are the keyword [struct], a name
    and an opening brace. *)
Definition semicolon : ascii := ";".


Definition statement_line (body : text) : text := body ++ [semicolon; newline].

Fixpoint no_comment_opener (body : text) : bool :=
  match body with
  | c :: rest =>
    negb (ceq c slash && (at_is slash rest || at_is star rest)) &&
    no_comment_opener rest
  | [] => true
  end.

Definition at_class (p : ascii -> bool) (s : text) : bool :=
  match s with
  | c :: _ => p c
  | [] => false
  end.

Fixpoint skip (p : ascii -> bool) (s : text) : text :=
  match s with
  | c :: s' => if p c then skip p s' else s
  | [] => []
  end.

(** Whether the text starts as a struct definition does: the keyword,
    white space, a name, white space or none, and an opening brace. *)
Definition struct_head (s : text) : bool :=
  starts_with (txt "struct") s &&
  at_class is_space (drop 6 s) &&
  let s2 := skip is_space (drop 6 s) in
  at_class is_word s2 && at_is "{" (skip is_space (skip is_word s2)).

Fixpoint no_struct_head (body : text) : bool :=
  match body with
  | _ :: rest => negb (struct_head body) && no_struct_head rest
  | [] => true
  end.




































(** *** The entries that the loops push *)
Definition no_ram : Ram :=
  {| globalVariables := JsNumber.Finite 0; stackEstimate := 0; dynamicWarnings := 0;
     total := JsNumber.Finite 0; items := [] |}.

Definition global_entries (cleanText : text) (m : Match) : list RamItem :=
  items (global_step cleanText no_ram m).

Definition instance_entries (cleanText : text) (e : text * num) : list RamItem :=
  flat_map (fun m => items (instance_step cleanText (fst e) (snd e) no_ram m))
           (exec_all (instancePattern (fst e)) cleanText).

Lemma global_step_items cleanText r m :
  items (global_step cleanText r m) = items r ++ global_entries cleanText m.
Proof.
  unfold global_entries, global_step.
  destruct (at_global_scope cleanText (index m)); [done|]. simpl. by rewrite app_nil_r.
Qed.

Lemma instance_step_items cleanText structName sz r m :
  items (instance_step cleanText structName sz r m) =
  items r ++ items (instance_step cleanText structName sz no_ram m).
Proof.
  unfold instance_step.
  destruct (at_global_scope cleanText (index m)); [done|]. simpl. by rewrite app_nil_r.
Qed.

Lemma fold_left_items {A} (f : Ram -> A -> Ram) (g : A -> list RamItem) l :
  (forall r a, items (f r a) = items r ++ g a) ->
  forall r, items (fold_left f l r) = items r ++ flat_map g l.
Proof.
  intros Hf. induction l as [|a l IH]; intros r; simpl.
  - by rewrite app_nil_r.
  - by rewrite IH, Hf, <- app_assoc.
Qed.

Lemma analyzeGlobalVariables_items source analysis :
  items (ram (analyzeGlobalVariables source analysis)) =
  (items (ram analysis) ++
   flat_map (global_entries (cleanText_of source))
            (exec_all globalVarPattern (cleanText_of source))) ++
  flat_map (instance_entries (cleanText_of source))
           (struct_definitions (cleanText_of source)).
Proof.
  unfold analyzeGlobalVariables. cbv zeta. cbn [ram set_ram].
  rewrite (fold_left_items _ (instance_entries (cleanText_of source))).
  - f_equal. apply fold_left_items. intros. apply global_step_items.
  - intros r [structName sz]. unfold instance_entries. cbn [fst snd].
    apply fold_left_items. intros. apply instance_step_items.
Qed.

Lemma analyzeMemory_items this source :
  items (ram (analyzeMemory this source)) =
  flat_map (global_entries (cleanText_of source))
           (exec_all globalVarPattern (cleanText_of source)) ++
  flat_map (instance_entries (cleanText_of source))
           (struct_definitions (cleanText_of source)).
Proof.
  unfold analyzeMemory. cbv zeta.
  cbn [ram set_ram set_flash analyzeStackUsage analyzeStringLiterals items].
  by rewrite analyzeGlobalVariables_items.
Qed.

Lemma flat_map_shift {A} (f g : Match -> list A) c ms :
  (forall m, f (shift c m) = g m) -> flat_map f (map (shift c) ms) = flat_map g ms.
Proof.
  intros Hf. induction ms as [|m ms IH]; [done|]. simpl. by rewrite Hf, IH.
Qed.















Definition on_uno : MemoryAnalyzer := {| currentBoard := "arduino:avr:uno" |}.


(** The same with a slash in the initializer, and for a variable that is
    declared with the keyword [struct]. *)
Example slash_in_initializer_counted :
  let body := txt "char flag = '/'" in
  let sketch := txt "int x = 1;" ++ newline :: txt "void loop() { x = 2; flag = 1; }" in
  no_comment_opener body = true /\
  no_struct_head (txt "struct P flag") = true /\
  globalVariables (ram (analyzeMemory on_uno sketch)) = JsNumber.Finite 2 /\
  globalVariables (ram (analyzeMemory on_uno (statement_line body ++ sketch))) =
    JsNumber.Finite 3.
Proof. cbv zeta. repeat split; vm_compute; reflexivity. Qed.

(** The claim fails when the new declaration changes how the declarations
    after it are scanned.  The sketch uses [open] (declared elsewhere) and
    declares [x]; with the declaration of [open] as a new first line, whose
    initializer is the character of an opening brace, [x] is no longer at
    brace balance zero and is dropped: the value goes from 2 to 1. *)
Definition sketch_using_open : text :=
  txt "int x = 1;" ++ newline :: txt "void loop() { x = 2; open = 0; }" ++ [newline].



(** An estimate that is [NaN] is not greater than or equal to anything:
    the new declaration can be the first instance of a struct whose size is
    [NaN], here through a member whose type has the name of an inherited
    property. *)
Example nan_is_not_greater :
  let body := txt "P flag" in
  let sketch :=
    txt "struct P { toString t; };" ++ newline :: txt "int x = 1;" ++ newline ::
    txt "void loop() { x = 2; }" in
  let before := analyzeMemory on_uno sketch in
  let after := analyzeMemory on_uno (statement_line body ++ sketch) in
  no_comment_opener body = true /\ no_struct_head body = true /\
  count_char "{" body <= count_char "}" body /\
  globalVariables (ram before) = JsNumber.Finite 2 /\
  globalVariables (ram after) = JsNumber.NaN /\
  ~ num_le (globalVariables (ram before)) (globalVariables (ram after)).
Proof.
  cbv zeta. repeat split; first [vm_compute; reflexivity | vm_compute; lia].
Qed.

(** The other conditions are needed as well.  A line comment in the
    declaration can hide the brace that closes one: the braces of the line
    are balanced, those of the text without comments are not. *)
Example comment_hides_closing_brace :
  let body := txt "char open = '{' // }" in
  let before := analyzeMemory on_uno sketch_using_open in
  let after := analyzeMemory on_uno (statement_line body ++ sketch_using_open) in
  no_comment_opener body = false /\ no_struct_head body = true /\
  count_char "{" body <= count_char "}" body /\
  globalVariables (ram before) = JsNumber.Finite 2 /\
  globalVariables (ram after) = JsNumber.Finite 1.
Proof.
  cbv zeta. repeat split; first [vm_compute; reflexivity | vm_compute; lia].
Qed.

(** A block comment that starts in the declaration goes on to the end of
    the first comment of the sketch, over the declarations before it. *)
Example comment_opener_swallows_declarations :
  let body := txt "char flag /* = 0" in
  let sketch :=
    txt "int x = 1; /* one */" ++ newline :: txt "void loop() { x = 2; flag = 1; }" in
  let before := analyzeMemory on_uno sketch in
  let after := analyzeMemory on_uno (statement_line body ++ sketch) in
  no_comment_opener body = false /\ no_struct_head body = true /\
  count_char "{" body <= count_char "}" body /\
  globalVariables (ram before) = JsNumber.Finite 2 /\
  globalVariables (ram after) = JsNumber.Finite 0.
Proof.
  cbv zeta. repeat split; first [vm_compute; reflexivity | vm_compute; lia].
Qed.

(** A struct definition in the declaration moves the struct to the front
    of the table of structs, so that its instances are added first; where
    the sums round, the other order gives less: two bytes are lost after
    [2 ^ 53]. *)
Example struct_definition_changes_order :
  let body := txt "struct Q { } flag" in
  let sketch :=
    txt "struct P { char c; };" ++ newline ::
    txt "struct Q { char c; };" ++ newline ::
    txt "P a;" ++ newline :: txt "P b;" ++ newline ::
    txt "Q q[9007199254740992];" ++ [newline] in
  let before := analyzeMemory on_uno sketch in
  let after := analyzeMemory on_uno (statement_line body ++ sketch) in
  no_comment_opener body = true /\ no_struct_head body = false /\
  count_char "{" body <= count_char "}" body /\
  globalVariables (ram before) = JsNumber.Finite 9007199254740994 /\
  map name (items (ram before)) = [txt "a"; txt "b"; txt "q"] /\
  globalVariables (ram after) = JsNumber.Finite 9007199254740992 /\
  map name (items (ram after)) = [txt "q"; txt "a"; txt "b"].
Proof.
  cbv zeta. repeat split; first [vm_compute; reflexivity | vm_compute; lia].
Qed.

(** So is the place of the declaration.  As a new line between two lines
    of a declaration that goes over them, it takes the place of that
    declaration; as a new last line after a struct definition that is not
    closed, its initializer in braces closes the struct, which changes the
    size of the struct and leaves the new declaration inside braces; and
    without its line break, the first declaration of the sketch is no
    longer at the start of a line. *)
Example other_places_decrease :
  let line := statement_line (txt "char flag[1] = {0}") in
  let first := txt "int" ++ [newline] in
  let rest := txt "x = 1;" ++ newline :: txt "void loop() { x = 2; flag[0] = 1; }" in
  let sketch :=
    txt "struct P { long a; long b; };" ++ newline ::
    txt "P p;" ++ newline ::
    txt "void loop() { p.a = 1; flag[0] = 1; }" ++ newline ::
    txt "struct P { char c;" ++ [newline] in
  globalVariables (ram (analyzeMemory on_uno (first ++ rest))) = JsNumber.Finite 2 /\
  globalVariables (ram (analyzeMemory on_uno (first ++ line ++ rest))) =
    JsNumber.Finite 1 /\
  globalVariables (ram (analyzeMemory on_uno sketch)) = JsNumber.Finite 8 /\
  globalVariables (ram (analyzeMemory on_uno (sketch ++ line))) = JsNumber.Finite 1 /\
  globalVariables (ram (analyzeMemory on_uno (txt "int " ++ rest))) = JsNumber.Finite 2 /\
  globalVariables
    (ram (analyzeMemory on_uno (txt "char flag[1] = {0};" ++ txt "int " ++ rest))) =
    JsNumber.Finite 1.
Proof. cbv zeta. repeat split; vm_compute; reflexivity. Qed.

End MemoryFacts.

(** ** Further properties of the sources

    The comment stripper and the scanner of [isInComment] against each
    other; the pin map; the I2C helpers of the hardware database; the word
    at the cursor; the numbers of the memory analyzer; the validators that
    count; the older copy of [validateDocument]. *)

Section StripAndCommentFacts.
Import CommentStripper.

(** Whether the scan of [strip] and [isInComment], started with the flags
    [inString] and [inChar], comes to the opening delimiter of a comment
    outside literals. *)
Fixpoint opens (inString inChar : bool) (code : text) {struct code} : bool :=
  match code with
  | [] => false
  | char :: rest =>
    if (inString || inChar) && ceq char backslash then
      match rest with
      | [] => false
      | _ :: rest' => opens inString inChar rest'
      end
    else if negb inChar && ceq char dquote then opens (negb inString) inChar rest
    else if negb inString && ceq char squote then opens inString (negb inChar) rest
    else if inString || inChar then opens inString inChar rest
    else
      match rest with
      | next :: _ =>
        if ceq char slash && ceq next star then true
        else if ceq char slash && ceq next slash then true
        else opens inString inChar rest
      | [] => opens inString inChar rest
      end
  end.

Lemma strip_loop_fixed n : forall code inS inC, length code <= n ->
  strip_loop inS inC code = code <-> opens inS inC code = false.
Proof.
  induction n as [|n IH]; intros code inS inC Hlen.
  { destruct code; [done|simpl in Hlen; lia]. }
  destruct code as [|c rest]; [done|]. simpl in Hlen.
  assert (Hrest : length rest <= n) by lia.
  cbn [strip_loop opens].
  destruct ((inS || inC) && ceq c backslash).
  { destruct rest as [|nx rest']; [done|].
    rewrite <- (IH rest' inS inC) by (simpl in Hrest; lia).
    split; [by intros [= ->]|by intros ->]. }
  destruct (negb inC && ceq c dquote).
  { rewrite <- (IH rest) by done. split; [by intros [= ->]|by intros ->]. }
  destruct (negb inS && ceq c squote).
  { rewrite <- (IH rest) by done. split; [by intros [= ->]|by intros ->]. }
  destruct (inS || inC).
  { rewrite <- (IH rest) by done. split; [by intros [= ->]|by intros ->]. }
  destruct rest as [|nx rest'].
  { done. }
  destruct (ceq c slash && ceq nx star) eqn:Eblk.
  { apply andb_true_iff in Eblk as [->%ceq_true _]. split; [|done].
    intros H. discriminate H. }
  destruct (ceq c slash && ceq nx slash) eqn:Elin.
  { apply andb_true_iff in Elin as [->%ceq_true _]. split; [|done].
    intros H. discriminate H. }
  etrans; [|apply (IH (nx :: rest') inS inC Hrest)].
  split; [intros H; by injection H|intros H; f_equal; exact H].
Qed.

(** The offset after the first character of a comment is in it. *)
Lemma inBlock_second code : forall k, 2 <= k -> inBlock code 1 k = true.
Proof.
  induction code as [|c rest IH]; intros k Hk.
  { simpl. apply Nat.ltb_lt. lia. }
  cbn [inBlock]. destruct rest as [|c' rest'].
  { apply IH. lia. }
  destruct (ceq c star && ceq c' slash).
  - assert (H : (1 <? k + 2) = true) by (apply Nat.ltb_lt; lia). by rewrite H.
  - apply IH. lia.
Qed.

Lemma inLine_second code : forall k, 2 <= k -> inLine code 1 k = true.
Proof.
  induction code as [|c rest IH]; intros k Hk.
  { simpl. apply Nat.ltb_lt. lia. }
  cbn [inLine]. destruct (ceq c newline).
  - assert (H : (1 <? k) = true) by (apply Nat.ltb_lt; lia). by rewrite H.
  - apply IH. lia.
Qed.

Lemma isInComment_loop_opens n : forall code inS inC, length code <= n ->
  (exists p, isInComment_loop inS inC code p = true) <-> opens inS inC code = true.
Proof.
  induction n as [|n IH]; intros code inS inC Hlen.
  { destruct code; [|simpl in Hlen; lia]. simpl. split; [|done].
    intros [[|p] Hp]; done. }
  destruct code as [|c rest].
  { simpl. split; [|done]. intros [[|p] Hp]; done. }
  simpl in Hlen. assert (Hrest : length rest <= n) by lia.
  cbn [opens].
  assert (Hstep : forall inS' inC' rest' d, length rest' <= n ->
    (forall p, isInComment_loop inS inC (c :: rest) (S p) =
               isInComment_loop inS' inC' rest' (S p - d)) -> 1 <= d ->
    (exists p, isInComment_loop inS inC (c :: rest) p = true) <->
    opens inS' inC' rest' = true).
  { intros inS' inC' rest' d Hr Heq Hd. rewrite <- (IH rest' inS' inC') by done.
    split.
    - intros [[|p] Hp]; [done|]. rewrite Heq in Hp. eauto.
    - intros [p Hp]. exists (S (p + d - 1)). rewrite Heq.
      replace (S (p + d - 1) - d) with p by lia. done. }
  destruct ((inS || inC) && ceq c backslash) eqn:Eesc.
  { destruct rest as [|nx rest'].
    - split; [|done]. intros [[|p] Hp]; [done|]. simpl in Hp. by rewrite Eesc in Hp.
    - apply (Hstep inS inC rest' 2); [simpl in Hrest; lia| |lia].
      intros p. cbn [isInComment_loop]. by rewrite Eesc. }
  destruct (negb inC && ceq c dquote) eqn:Edq.
  { apply (Hstep (negb inS) inC rest 1); [done| |lia].
    intros p. cbn [isInComment_loop]. by rewrite Eesc, Edq. }
  destruct (negb inS && ceq c squote) eqn:Esq.
  { apply (Hstep inS (negb inC) rest 1); [done| |lia].
    intros p. cbn [isInComment_loop]. by rewrite Eesc, Edq, Esq. }
  destruct (inS || inC) eqn:Elit.
  { apply (Hstep inS inC rest 1); [done| |lia].
    intros p. cbn [isInComment_loop]. by rewrite Elit, Eesc, Edq, Esq. }
  destruct rest as [|nx rest'].
  { apply (Hstep inS inC [] 1); [done| |lia].
    intros p. cbn [isInComment_loop]. by rewrite Elit, Eesc, Edq, Esq. }
  destruct (ceq c slash && ceq nx star) eqn:Eblk.
  { split; [done|]. intros _. exists 1. cbn [isInComment_loop].
    rewrite Elit, Eesc, Edq, Esq, Eblk. by apply inBlock_second. }
  destruct (ceq c slash && ceq nx slash) eqn:Elin.
  { split; [done|]. intros _. exists 1. cbn [isInComment_loop].
    rewrite Elit, Eesc, Edq, Esq, Eblk, Elin. by apply inLine_second. }
  apply (Hstep inS inC (nx :: rest') 1); [done| |lia].
  intros p. cbn [isInComment_loop]. by rewrite Elit, Eesc, Edq, Esq, Eblk, Elin.
Qed.

(** [strip] changes a text exactly when the scan comes to a comment, and
    so does [isInComment] find an offset in a comment. *)
Lemma strip_fixed_opens (T : text) : strip T = T <-> opens false false T = false.
Proof. unfold strip. by apply (strip_loop_fixed (length T)). Qed.

Lemma no_comment_opens (T : text) :
  (forall p, isInComment T p = false) <-> opens false false T = false.
Proof.
  unfold isInComment.
  pose proof (isInComment_loop_opens (length T) T false false (Nat.le_refl _)) as H.
  split.
  - intros Hall. destruct (opens false false T); [|done].
    destruct (proj2 H eq_refl) as [p Hp]. by rewrite Hall in Hp.
  - intros Hno p. destruct (isInComment_loop false false T p) eqn:Hp; [|done].
    assert (Ho : opens false false T = true) by (apply H; eauto). congruence.
Qed.

(** X1: [strip] and [isInComment] agree on which texts have a comment:
    [strip] leaves a text as it is exactly when [isInComment] is false at
    every offset of it. *)
Theorem strip_unchanged_iff_no_comment (T : text) :
  strip T = T <-> forall p, isInComment T p = false.
Proof.
  split; intros H.
  - apply no_comment_opens, strip_fixed_opens, H.
  - apply strip_fixed_opens, no_comment_opens, H.
Qed.

(** X2: what [strip] gives has no comment left: [isInComment] is false at
    every offset of it. *)
Theorem strip_leaves_no_comment (T : text) (p : nat) :
  isInComment (strip T) p = false.
Proof.
  revert p. apply no_comment_opens, strip_fixed_opens.
  unfold strip. by apply (strip_idem_aux (length T) T).
Qed.

Lemma isInComment_past_end_aux n : forall code, length code <= n ->
  (forall inS inC p, length code <= p -> isInComment_loop inS inC code p = false) /\
  (forall p k, length code + k <= p -> inBlock code p k = false) /\
  (forall p k, length code + k <= p -> inLine code p k = false).
Proof.
  induction n as [|n IH]; intros code Hlen.
  { destruct code; [|simpl in Hlen; lia].
    split; [by intros ? ? []|].
    split; intros p k Hp; simpl in *; apply Nat.ltb_ge; lia. }
  destruct code as [|c rest].
  { split; [by intros ? ? []|].
    split; intros p k Hp; simpl in *; apply Nat.ltb_ge; lia. }
  simpl in Hlen. assert (Hrest : length rest <= n) by lia.
  destruct (IH rest Hrest) as (IHloop & IHblock & IHline).
  split; [|split].
  - intros inS inC p Hp. simpl in Hp. destruct p as [|p]; [lia|].
    cbn [isInComment_loop].
    destruct ((inS || inC) && ceq c backslash).
    { destruct rest as [|nx rest']; [done|].
      apply IH; simpl in *; lia. }
    destruct (negb inC && ceq c dquote); [apply IHloop; lia|].
    destruct (negb inS && ceq c squote); [apply IHloop; lia|].
    destruct (inS || inC); [apply IHloop; lia|].
    destruct rest as [|nx rest']; [apply IHloop; simpl; lia|].
    destruct (ceq c slash && ceq nx star).
    { apply IH; simpl in *; lia. }
    destruct (ceq c slash && ceq nx slash).
    { apply IH; simpl in *; lia. }
    apply IHloop. simpl in *. lia.
  - intros p k Hp. simpl in Hp. cbn [inBlock].
    destruct rest as [|c' rest']; [apply IHblock; simpl; lia|].
    destruct (ceq c star && ceq c' slash); [|apply IHblock; simpl in *; lia].
    assert (H : (p <? k + 2) = false) by (apply Nat.ltb_ge; simpl in *; lia).
    rewrite H. apply IH; simpl in *; lia.
  - intros p k Hp. simpl in Hp. cbn [inLine].
    destruct (ceq c newline); [|apply IHline; lia].
    assert (H : (p <? k) = false) by (apply Nat.ltb_ge; lia).
    rewrite H. apply IHloop. lia.
Qed.

(** X3: an offset at or after the end of the text is in no comment, also
    when the text ends inside a comment that is not closed. *)
Theorem isInComment_past_end (code : text) (position : nat) :
  length code <= position -> isInComment code position = false.
Proof.
  intros Hp. by apply (isInComment_past_end_aux (length code) code).
Qed.

(** A text that ends inside a block comment: the last offset of the text is
    in the comment, the offset of its end is not. *)
Lemma isInComment_past_end_witness :
  length (txt "a /*x") <= 5 /\
  isInComment (txt "a /*x") 4 = true /\
  isInComment (txt "a /*x") 5 = false.
Proof.
  split; [simpl; lia|]. split; [reflexivity|].
  apply isInComment_past_end. simpl. lia.
Defined.

Lemma strip_length_aux n : forall code, length code <= n ->
  (forall inS inC, length (strip_loop inS inC code) <= length code) /\
  length (strip_block code) <= length code /\
  length (strip_line code) <= length code.
Proof.
  induction n as [|n IH]; intros code Hlen.
  { destruct code; [|simpl in Hlen; lia]. by repeat split. }
  destruct code as [|c rest]; [by repeat split|].
  simpl in Hlen. assert (Hrest : length rest <= n) by lia.
  destruct (IH rest Hrest) as (IHloop & IHblock & IHline).
  split; [|split].
  - intros inS inC. cbn [strip_loop].
    destruct ((inS || inC) && ceq c backslash).
    { destruct rest as [|nx rest']; [done|]. simpl.
      assert (length (strip_loop inS inC rest') <= length rest')
        by (apply IH; simpl in *; lia). lia. }
    destruct (negb inC && ceq c dquote).
    { simpl. specialize (IHloop (negb inS) inC). lia. }
    destruct (negb inS && ceq c squote).
    { simpl. specialize (IHloop inS (negb inC)). lia. }
    destruct (inS || inC).
    { simpl. specialize (IHloop inS inC). lia. }
    destruct rest as [|nx rest']; [done|].
    destruct (ceq c slash && ceq nx star).
    { simpl. assert (length (strip_block rest') <= length rest')
        by (apply IH; simpl in *; lia). lia. }
    destruct (ceq c slash && ceq nx slash).
    { simpl. assert (length (strip_line rest') <= length rest')
        by (apply IH; simpl in *; lia). lia. }
    change (S (length (strip_loop inS inC (nx :: rest'))) <= S (length (nx :: rest'))).
    specialize (IHloop inS inC). lia.
  - rewrite strip_block_cons. cbn [length].
    destruct rest as [|c' rest']; [simpl; lia|].
    destruct (ceq c star && ceq c' slash).
    + simpl. assert (length (strip_loop false false rest') <= length rest')
        by (apply IH; simpl in *; lia). lia.
    + simpl in IHblock |- *. lia.
  - rewrite strip_line_cons. destruct (ceq c newline); simpl.
    + specialize (IHloop false false). lia.
    + lia.
Qed.

(** X4: [strip] never makes a text longer, and keeps its number of
    lines. *)
Theorem strip_keeps_lines_never_longer (T : text) :
  newlines (strip T) = newlines T /\ length (strip T) <= length T.
Proof.
  split; [apply strip_newlines|].
  unfold strip. by apply (strip_length_aux (length T) T).
Qed.

End StripAndCommentFacts.

Section PinMapFacts.
Import PinTracker.

(** The pins of a sequence in the order in which they are first seen. *)
Fixpoint pins_in_order (l : list Z) : list Z :=
  match l with
  | [] => []
  | p :: l' => p :: List.filter (fun q => negb (Z.eqb q p)) (pins_in_order l')
  end.

Definition not_in (ks : list Z) (q : Z) : bool := negb (existsb (Z.eqb q) ks).

Lemma has_existsb m p : has m p = existsb (Z.eqb p) (map fst m).
Proof.
  unfold has. induction m as [|[k us] m IH]; [done|]. simpl.
  by rewrite IH, Z.eqb_sym.
Qed.

Lemma add_usage_keys m u :
  map fst (add_usage m u) =
  map fst m ++ (if has m (pin u) then [] else [pin u]).
Proof.
  unfold add_usage. destruct (has m (pin u)); simpl.
  - by rewrite get_push_keys, app_nil_r.
  - rewrite get_push_keys. unfold set_empty. by rewrite map_app.
Qed.

Lemma filter_filter_comm {A} (f g : A -> bool) l :
  List.filter f (List.filter g l) = List.filter (fun x => g x && f x) l.
Proof.
  induction l as [|x l IH]; [done|]. simpl.
  destruct (g x); simpl; [|done]. destruct (f x); by rewrite IH.
Qed.

Lemma fill_keys us : forall m,
  map fst (fold_left add_usage us m) =
  map fst m ++ List.filter (not_in (map fst m)) (pins_in_order (map pin us)).
Proof.
  induction us as [|u us IH]; intros m; simpl.
  { by rewrite app_nil_r. }
  rewrite IH, add_usage_keys, has_existsb.
  unfold not_in at 2. destruct (existsb (Z.eqb (pin u)) (map fst m)) eqn:Hin; simpl.
  - rewrite app_nil_r. f_equal. rewrite filter_filter_comm.
    apply List.filter_ext_in. intros q _. unfold not_in.
    destruct (Z.eqb_spec q (pin u)) as [->|]; simpl; [by rewrite Hin|done].
  - rewrite <- app_assoc. simpl. f_equal. f_equal.
    rewrite filter_filter_comm.
    apply List.filter_ext_in. intros q _. unfold not_in.
    rewrite existsb_app. simpl. rewrite orb_false_r, negb_orb. apply andb_comm.
Qed.

Lemma filter_all {A} (f : A -> bool) l :
  (forall x, f x = true) -> List.filter f l = l.
Proof.
  intros Hf. induction l as [|x l IH]; [done|]. simpl. by rewrite Hf, IH.
Qed.

(** X5: [buildPinMap] gives one record for each pin that is used, in the order
    in which the pins are first used; the record holds the label of the
    pin, and its primary kind is the kind of the first usage of the pin,
    so [usages[0]] is never [undefined]. *)
Theorem buildPinMap_one_record_per_pin (us : list Usage) :
  map rec_pin (buildPinMap us) = pins_in_order (map pin us) /\
  NoDup (map rec_pin (buildPinMap us)) /\
  forall r, In r (buildPinMap us) ->
    pinLabel r = getPinLabel (rec_pin r) /\
    exists u rest, usages_of (rec_pin r) us = u :: rest /\
                   primaryType r = Some (type u).
Proof.
  assert (Hpins : map rec_pin (buildPinMap us) = map fst (fill us)).
  { unfold buildPinMap, detectConflicts. rewrite map_map. by apply map_ext. }
  split; [|split].
  - rewrite Hpins. unfold fill. rewrite fill_keys. simpl.
    by apply filter_all.
  - rewrite Hpins. apply (inv_keys _ _ (fill_inv_fill us)).
  - unfold buildPinMap, detectConflicts. intros r [[p g] [<- Hin]]%in_map_iff.
    cbn [fst snd]. split; [done|].
    destruct (inv_groups _ _ (fill_inv_fill us) p g Hin) as [Hg Hne].
    change (rec_pin (annotate p g)) with p. rewrite <- Hg.
    destruct g as [|u rest]; [done|]. by exists u, rest.
Qed.

End PinMapFacts.

Section ParsePinFacts.
Import Regex PinParser.

Lemma digit_value_digit c :
  is_digit c = true -> exists d, Js.digit_value c = Some d /\ (d < 10)%N.
Proof.
  intros Hc. unfold Js.digit_value. cbv zeta. rewrite Hc. eexists. split; [done|].
  unfold is_digit in Hc. apply andb_true_iff in Hc as [_ Hhi]. apply Nat.leb_le in Hhi.
  assert (N_of_ascii c = N.of_nat (nat_of_ascii c)) as ->
    by (unfold nat_of_ascii; by rewrite N2Nat.id).
  lia.
Qed.

Lemma digits_decimal ds : forall acc,
  forallb is_digit ds = true -> ds <> [] ->
  exists n, Js.digits 10 acc ds = Some n /\
            (n < (default 0 acc + 1) * 10 ^ N.of_nat (length ds))%N.
Proof.
  induction ds as [|c ds IH]; intros acc Hds Hne; [done|]. simpl in Hds.
  apply andb_true_iff in Hds as [Hc Hds].
  destruct (digit_value_digit c Hc) as (d & Hd & Hlt).
  cbn [Js.digits]. rewrite Hd. pose proof Hlt as Hlt'. apply N.ltb_lt in Hlt'.
  rewrite Hlt'. cbn [length]. rewrite Nat2N.inj_succ, N.pow_succ_r'.
  destruct ds as [|c' ds'].
  - cbn [Js.digits]. eexists. split; [done|].
    change (N.of_nat (length (@nil ascii))) with 0%N. rewrite N.pow_0_r. lia.
  - destruct (IH (Some (default 0 acc * 10 + d)%N) Hds ltac:(done)) as (n & Hn & Hb).
    exists n. split; [done|].
    change (default 0%N (Some (default 0%N acc * 10 + d)%N))
      with (default 0%N acc * 10 + d)%N in Hb.
    revert Hb. generalize (default 0%N acc) (10 ^ N.of_nat (length (c' :: ds')))%N.
    intros a p Hb. nia.
Qed.

Lemma parseInt_decimal ds :
  forallb is_digit ds = true -> ds <> [] ->
  exists n, Js.parseInt ds = Some n /\ (n < 10 ^ N.of_nat (length ds))%N.
Proof.
  intros Hds Hne.
  assert (Hp : Js.parseInt ds = Js.digits 10 None ds).
  { unfold Js.parseInt. destruct ds as [|c [|x ds']]; [done| |].
    - by destruct c as [[] [] [] [] [] [] [] []].
    - simpl in Hds. apply andb_true_iff in Hds as [_ [Hx _]%andb_true_iff].
      assert (Hxx : ceq x "x" || ceq x "X" = false).
      { destruct (ceq x "x") eqn:E1; [apply ceq_true in E1 as ->; done|].
        destruct (ceq x "X") eqn:E2; [apply ceq_true in E2 as ->; done|done]. }
      destruct c as [[] [] [] [] [] [] [] []]; try done. by rewrite Hxx. }
  rewrite Hp. destruct (digits_decimal ds None Hds Hne) as (n & Hn & Hb).
  exists n. split; [done|]. cbn [default] in Hb. lia.
Qed.

(** The number that [parseInt] gives for digits is never [NaN]. *)
Lemma parseInt_number_digits ds :
  forallb is_digit ds = true -> ds <> [] -> JsNumber.parseInt ds <> JsNumber.NaN.
Proof.
  intros Hds Hne. unfold JsNumber.parseInt.
  destruct (parseInt_decimal ds Hds Hne) as (n & -> & _). apply of_N_not_NaN.
Qed.

(** X6: [parsePin] on the captures of [analyzePinUsage]: digits are read
    as a number, never as [NaN]; the same digits after [A] as that number
    and 14, added as numbers are; and after another capital letter, which
    the patterns accept as well, as [NaN].  With 15 digits at most nothing
    rounds: the pin [A] with the digits of [n] is the pin [14 + n]. *)
Theorem parsePin_letter (ds : text) :
  forallb is_digit ds = true -> ds <> [] ->
  parsePin ds <> JsNumber.NaN /\
  parsePin ("A"%char :: ds) = JsNumber.add (JsNumber.Finite 14) (parsePin ds) /\
  (length ds <= 15 ->
   exists n, Js.parseInt ds = Some n /\ parsePin ds = JsNumber.Finite n /\
             parsePin ("A"%char :: ds) = JsNumber.Finite (14 + n)) /\
  (forall c, is_upper c = true -> c <> "A"%char ->
             parsePin (c :: ds) = JsNumber.NaN).
Proof.
  intros Hds Hne.
  assert (Hplain : parsePin ds = JsNumber.parseInt ds).
  { unfold parsePin. destruct ds as [|c ds']; [done|].
    assert (Hc : ceq "A" c = false).
    { simpl in Hds. apply andb_true_iff in Hds as [Hc _].
      destruct (ceq "A" c) eqn:E; [apply ceq_true in E as <-; done|done]. }
    cbn [starts_with txt list_ascii_of_string]. by rewrite Hc. }
  assert (HA : parsePin ("A"%char :: ds) =
               JsNumber.add (JsNumber.Finite 14) (JsNumber.parseInt ds)).
  { unfold parsePin. cbn [starts_with txt list_ascii_of_string].
    rewrite ceq_refl. cbn [andb]. done. }
  split; [|split; [|split]].
  - rewrite Hplain. by apply parseInt_number_digits.
  - by rewrite HA, Hplain.
  - intros Hlen. destruct (parseInt_decimal ds Hds Hne) as (n & Hn & Hb).
    assert (Hsmall : (n + 14 < 2 ^ 53)%N).
    { assert (10 ^ N.of_nat (length ds) <= 10 ^ 15)%N
        by (apply N.pow_le_mono_r; lia). lia. }
    exists n. split; [done|]. rewrite HA, Hplain. unfold JsNumber.parseInt. rewrite Hn.
    rewrite (of_N_small n) by lia. split; [done|].
    cbn [JsNumber.add]. apply of_N_small. lia.
  - intros c Hc HAc. unfold parsePin.
    assert (HcA : ceq "A" c = false) by (apply ceq_false; congruence).
    cbn [starts_with txt list_ascii_of_string]. rewrite HcA. cbn [andb].
    assert (Hv : match Js.digit_value c with
                 | Some d => (d <? 10)%N = false
                 | None => True
                 end).
    { destruct c as [[] [] [] [] [] [] [] []]; try done. }
    assert (Hz : c <> "0"%char) by (intros ->; done).
    assert (Hdig : Js.digits 10 None (c :: ds) = None).
    { cbn [Js.digits]. destruct (Js.digit_value c) as [d|]; [by rewrite Hv|done]. }
    assert (Hp : Js.parseInt (c :: ds) = None).
    { unfold Js.parseInt. destruct c as [[] [] [] [] [] [] [] []]; try done. }
    unfold JsNumber.parseInt. by rewrite Hp.
Qed.

(** The captures [3], [A3] and [B3]. *)
Lemma parsePin_letter_witness :
  forallb is_digit (txt "3") = true /\ txt "3" <> [] /\ length (txt "3") <= 15 /\
  parsePin (txt "3") = JsNumber.Finite 3 /\
  parsePin (txt "A3") = JsNumber.Finite 17 /\
  parsePin (txt "B3") = JsNumber.NaN.
Proof.
  assert (H1 : forallb is_digit (txt "3") = true) by reflexivity.
  assert (H2 : txt "3" <> []) by discriminate.
  assert (H3 : length (txt "3") <= 15) by (simpl; lia).
  split; [exact H1|]. split; [exact H2|]. split; [exact H3|].
  destruct (parsePin_letter (txt "3") H1 H2) as (_ & _ & Hexact & Hother).
  destruct (Hexact H3) as (n & Hn & Hp & HA).
  assert (Hn3 : n = 3%N) by (vm_compute in Hn; congruence).
  subst n. split; [exact Hp|]. split; [exact HA|].
  apply (Hother "B"%char); [reflexivity|discriminate].
Defined.

(** With 16 digits the sum can round: 14 more than [2 ^ 53 - 1] is the
    even number of the two nearest. *)
Example parsePin_rounds :
  parsePin (txt "9007199254740991") = JsNumber.Finite 9007199254740991 /\
  parsePin (txt "A9007199254740991") = JsNumber.Finite 9007199254741004.
Proof. split; vm_compute; reflexivity. Qed.

End ParsePinFacts.

Section AddressCountFacts.
Import HardwareDb.
Context {K : Type} `{EqDecision K}.

(** The members of a sequence in the order in which they are first seen,
    and the number of times that one is in it. *)
Fixpoint first_seen (l : list K) : list K :=
  match l with
  | [] => []
  | a :: l' => a :: List.filter (fun b => negb (bool_decide (b = a))) (first_seen l')
  end.

Definition times (a : K) (l : list K) : N :=
  N.of_nat (length (List.filter (fun b => bool_decide (b = a)) l)).

Lemma first_seen_In a l : a ∈ first_seen l <-> a ∈ l.
Proof.
  rewrite !list_elem_of_In.
  induction l as [|b l IH]; [done|]. simpl. rewrite filter_In, IH.
  destruct (decide (a = b)) as [->|Hne].
  - split; by left.
  - rewrite bool_decide_eq_false_2 by done. simpl. split.
    + intros [?|[? _]]; [by left|by right].
    + intros [?|?]; [by left|right; done].
Qed.

Lemma first_seen_NoDup l : List.NoDup (first_seen l).
Proof.
  induction l as [|b l IH]; simpl; constructor.
  - rewrite filter_In. intros [_ Hb]. by rewrite bool_decide_eq_true_2 in Hb.
  - by apply List.NoDup_filter.
Qed.

Lemma first_seen_snoc l a :
  first_seen (l ++ [a]) =
  first_seen l ++ (if bool_decide (a ∈ l) then [] else [a]).
Proof.
  induction l as [|b l IH]; simpl.
  { first [done | rewrite bool_decide_eq_false_2; [done|apply not_elem_of_nil]]. }
  rewrite IH, List.filter_app. f_equal. f_equal.
  destruct (decide (a = b)) as [->|Hne].
  - rewrite (bool_decide_eq_true_2 (b ∈ b :: l)) by apply list_elem_of_here.
    destruct (bool_decide (b ∈ l)); simpl; [done|].
    by rewrite bool_decide_eq_true_2.
  - destruct (decide (a ∈ l)) as [Hin|Hnin].
    + rewrite (bool_decide_eq_true_2 (a ∈ l)) by done.
      by rewrite (bool_decide_eq_true_2 (a ∈ b :: l)) by (by apply list_elem_of_further).
    + rewrite (bool_decide_eq_false_2 (a ∈ l)) by done.
      rewrite (bool_decide_eq_false_2 (a ∈ b :: l))
        by (intros [?|?]%elem_of_cons; congruence).
      simpl. by rewrite bool_decide_eq_false_2.
Qed.

Lemma times_snoc a l b :
  times b (l ++ [a]) = (times b l + (if bool_decide (a = b) then 1 else 0))%N.
Proof.
  unfold times. rewrite List.filter_app, length_app. simpl.
  destruct (bool_decide (a = b)); simpl; lia.
Qed.

Lemma times_0 a l : a ∉ l -> times a l = 0%N.
Proof.
  intros Hnin. unfold times.
  induction l as [|b l IH]; [done|]. simpl.
  rewrite bool_decide_eq_false_2 by (intros ->; apply Hnin; apply list_elem_of_here).
  apply IH. intros Hin. apply Hnin. by apply list_elem_of_further.
Qed.

(** The map of counts after the addresses [l]. *)
Definition counts (l : list K) : list (K * N) :=
  map (fun a => (a, times a l)) (first_seen l).

Lemma map_get_map (c : K -> N) ks a :
  map_get (map (fun b => (b, c b)) ks) a = if bool_decide (a ∈ ks) then Some (c a) else None.
Proof.
  unfold map_get. induction ks as [|b ks IH]; simpl.
  { first [done | rewrite bool_decide_eq_false_2; [done|apply not_elem_of_nil]]. }
  destruct (decide (b = a)) as [->|Hne].
  - rewrite bool_decide_eq_true_2 by done. simpl.
    by rewrite bool_decide_eq_true_2 by apply list_elem_of_here.
  - rewrite bool_decide_eq_false_2 by done. rewrite IH.
    destruct (decide (a ∈ ks)) as [Hin|Hnin].
    + rewrite !bool_decide_eq_true_2; [done|by apply list_elem_of_further|done].
    + rewrite !bool_decide_eq_false_2;
        [done|intros [?|?]%elem_of_cons; congruence|done].
Qed.

Lemma map_set_map (c c' : K -> N) ks a v :
  List.NoDup ks -> c' a = v -> (forall b, b <> a -> c' b = c b) ->
  map_set (map (fun b => (b, c b)) ks) a v =
  map (fun b => (b, c' b)) ks ++ (if bool_decide (a ∈ ks) then [] else [(a, v)]).
Proof.
  intros Hnd Ha Hother. induction Hnd as [|b ks Hb Hnd IH]; simpl.
  { first [done | rewrite bool_decide_eq_false_2; [done|apply not_elem_of_nil]]. }
  destruct (decide (b = a)) as [->|Hne].
  - rewrite bool_decide_eq_true_2 by done.
    rewrite (bool_decide_eq_true_2 (a ∈ a :: ks)) by apply list_elem_of_here.
    rewrite app_nil_r, Ha. f_equal.
    apply map_ext_in. intros b' Hb'. f_equal. symmetry. apply Hother. congruence.
  - rewrite bool_decide_eq_false_2 by done. rewrite IH, Hother by done.
    simpl. f_equal. f_equal.
    destruct (decide (a ∈ ks)) as [Hin|Hnin].
    + rewrite !bool_decide_eq_true_2; [done|by apply list_elem_of_further|done].
    + rewrite !bool_decide_eq_false_2;
        [done|intros [?|?]%elem_of_cons; congruence|done].
Qed.

Lemma addressCount_counts (l : list K) :
  fold_left (fun addressCount addr =>
               map_set addressCount addr
                       (default 0%N (map_get addressCount addr) + 1)%N) l [] =
  counts l.
Proof.
  induction l as [|a l IH] using rev_ind; [done|].
  rewrite fold_left_app, IH. cbn [fold_left]. unfold counts.
  rewrite map_get_map.
  assert (Hv : (default 0%N (if bool_decide (a ∈ first_seen l)
                             then Some (times a l) else None) + 1)%N =
               times a (l ++ [a])).
  { rewrite times_snoc, (bool_decide_eq_true_2 (a = a)) by done.
    destruct (decide (a ∈ first_seen l)) as [Hin|Hnin].
    - by rewrite bool_decide_eq_true_2.
    - rewrite bool_decide_eq_false_2 by done. simpl.
      rewrite times_0; [done|]. by rewrite <- first_seen_In. }
  rewrite Hv.
  rewrite (map_set_map _ (fun b => times b (l ++ [a]))).
  - rewrite first_seen_snoc, map_app. f_equal.
    destruct (decide (a ∈ l)) as [Hin|Hnin].
    + rewrite !bool_decide_eq_true_2; [done|done|by apply first_seen_In].
    + rewrite !bool_decide_eq_false_2; [done|done|by rewrite first_seen_In].
  - apply first_seen_NoDup.
  - done.
  - intros b Hb. rewrite times_snoc, bool_decide_eq_false_2 by congruence. lia.
Qed.

(** X7: [checkI2CConflicts] reports the addresses that are in the sequence
    more than once, each one once, in the order in which they are first
    seen, with the number of times that the address is in the sequence. *)
Theorem checkI2CConflicts_reports_repeated (addresses : list K) :
  checkI2CConflicts addresses =
  map (fun a => {| address := a; count := times a addresses;
                   message := used_by_devices a (times a addresses) |})
      (List.filter (fun a => (1 <? times a addresses)%N) (first_seen addresses)).
Proof.
  unfold checkI2CConflicts. cbv zeta. rewrite addressCount_counts. unfold counts.
  induction (first_seen addresses) as [|a ks IH]; [done|].
  simpl. rewrite IH. by destruct (1 <? times a addresses)%N.
Qed.

End AddressCountFacts.

Section CompletionFacts.
Import Regex HardwareDb.

(** A digit of [toString(16)] in upper case. *)
Definition upper_hex_digit (d : N) : ascii :=
  let c := LegacyDiagnostics.hex_digit d in
  if is_lower c then ascii_of_nat (nat_of_ascii c - 32) else c.

(** The number that a sequence of hexadecimal digits writes. *)
Definition hex_value (ds : list N) (v : N) : N :=
  fold_left (fun a d => (a * 16 + d)%N) ds v.

Lemma upper_hex_digit_value d :
  (d < 16)%N -> Js.digit_value (upper_hex_digit d) = Some d.
Proof.
  intros Hd.
  assert (H : In d [0; 1; 2; 3; 4; 5; 6; 7; 8; 9; 10; 11; 12; 13; 14; 15]%N).
  { simpl. lia. }
  simpl in H. repeat (destruct H as [<-|H]; [reflexivity|]). done.
Qed.

Lemma hex_digit_value d :
  (d < 16)%N -> Js.digit_value (LegacyDiagnostics.hex_digit d) = Some d.
Proof.
  intros Hd.
  assert (H : In d [0; 1; 2; 3; 4; 5; 6; 7; 8; 9; 10; 11; 12; 13; 14; 15]%N).
  { simpl. lia. }
  simpl in H. repeat (destruct H as [<-|H]; [reflexivity|]). done.
Qed.

(** Digits that are written by [digit], in either case, read back as the
    number they write. *)
Lemma digits_hex_with (digit : N -> ascii) ds :
  (forall d, (d < 16)%N -> Js.digit_value (digit d) = Some d) ->
  forall acc rest,
  Forall (fun d => (d < 16)%N) ds -> ds <> [] ->
  Js.digits 16 acc (map digit ds ++ rest) =
  Js.digits 16 (Some (hex_value ds (default 0%N acc))) rest.
Proof.
  intros Hdigit.
  induction ds as [|d ds IH]; intros acc rest Hds Hne; [done|].
  apply Forall_cons_1 in Hds as [Hd Hds].
  cbn [map app Js.digits]. rewrite Hdigit by done.
  assert (Hlt : (d <? 16)%N = true) by (by apply N.ltb_lt). rewrite Hlt.
  destruct ds as [|d' ds'].
  - done.
  - rewrite IH by done. done.
Qed.

Lemma digits_hex ds : forall acc rest,
  Forall (fun d => (d < 16)%N) ds -> ds <> [] ->
  Js.digits 16 acc (map upper_hex_digit ds ++ rest) =
  Js.digits 16 (Some (hex_value ds (default 0%N acc))) rest.
Proof. apply digits_hex_with, upper_hex_digit_value. Qed.

Lemma to_hex_digits fuel : forall n acc,
  (n < 16 ^ N.of_nat (S fuel))%N ->
  exists ds, LegacyDiagnostics.to_hex (S fuel) n acc =
             map LegacyDiagnostics.hex_digit ds ++ acc /\
             Forall (fun d => (d < 16)%N) ds /\ ds <> [] /\ hex_value ds 0 = n.
Proof.
  induction fuel as [|fuel IH]; intros n acc Hn;
    cbn [LegacyDiagnostics.to_hex]; cbv zeta;
    destruct (N.ltb_spec n 16) as [Hlt|Hge].
  - exists [n]. rewrite N.mod_small by done. repeat split; [by constructor|done].
  - change (16 ^ N.of_nat 1)%N with 16%N in Hn. lia.
  - exists [n]. rewrite N.mod_small by done. repeat split; [by constructor|done].
  - destruct (IH (n / 16)%N (LegacyDiagnostics.hex_digit (n mod 16) :: acc))
      as (ds & Heq & Hds & Hne & Hval).
    { rewrite (Nat2N.inj_succ (S fuel)), N.pow_succ_r' in Hn.
      apply N.Div0.div_lt_upper_bound. lia. }
    exists (ds ++ [n mod 16])%N.
    change (LegacyDiagnostics.to_hex (S fuel) (n / 16)
              (LegacyDiagnostics.hex_digit (n mod 16) :: acc) =
            map LegacyDiagnostics.hex_digit ds ++
            LegacyDiagnostics.hex_digit (n mod 16) :: acc) in Heq.
    rewrite map_app, <- app_assoc.
    split; [exact Heq|]. split; [|split].
    + apply Forall_app. split; [done|]. constructor; [|done].
      apply N.mod_lt. done.
    + by destruct ds.
    + unfold hex_value in *. rewrite fold_left_app, Hval. simpl.
      pose proof (N.div_mod n 16). lia.
Qed.

Lemma toString16_digits n :
  exists ds, LegacyDiagnostics.toString16 n = map LegacyDiagnostics.hex_digit ds /\
             Forall (fun d => (d < 16)%N) ds /\ ds <> [] /\ hex_value ds 0 = n.
Proof.
  unfold LegacyDiagnostics.toString16.
  destruct (to_hex_digits (N.to_nat (N.log2 n)) n []) as (ds & Heq & H).
  { rewrite Nat2N.inj_succ, N2Nat.id.
    destruct (N.eq_dec n 0%N) as [->|Hn]; [done|].
    destruct (N.log2_spec n) as [_ Hlt]; [lia|].
    eapply N.lt_le_trans; [exact Hlt|].
    apply N.pow_le_mono_l. lia. }
  exists ds. by rewrite Heq, app_nil_r.
Qed.

Lemma hexAddr_parses_back (address : N) : Js.parseInt (hexAddr address) = Some address.
Proof.
  unfold hexAddr, toUpperCase.
  destruct (toString16_digits address) as (ds & -> & Hds & Hne & Hval).
  rewrite map_map.
  change (map (fun x => if is_lower (LegacyDiagnostics.hex_digit x)
                        then ascii_of_nat (nat_of_ascii (LegacyDiagnostics.hex_digit x) - 32)
                        else LegacyDiagnostics.hex_digit x) ds)
    with (map upper_hex_digit ds).
  unfold padStart. rewrite length_map.
  destruct ds as [|d [|d' ds']]; [done| |].
  - (* one digit: a zero is put before it *)
    transitivity (Js.digits 16 None (map upper_hex_digit [0%N; d] ++ [])); [reflexivity|].
    rewrite digits_hex; [|by constructor|done].
    unfold hex_value in *. simpl in *. f_equal. lia.
  - transitivity (Js.digits 16 None (map upper_hex_digit (d :: d' :: ds')));
      [reflexivity|].
    rewrite <- (app_nil_r (map upper_hex_digit (d :: d' :: ds'))).
    rewrite digits_hex by done. unfold hex_value in *. simpl in *. f_equal. lia.
Qed.

(** X8: the labels of [getI2CCompletions] read back as the addresses they
    stand for: [parseInt] of the text ['0x' + address.toString(16)
    .toUpperCase().padStart(2, '0')] is the address, for every address; and
    every completion, for every prefix, is that of a device of the table,
    with this text as its label, its inserted text and its sort key. *)
Theorem getI2CCompletions_labels_parse_back :
  (forall address, Js.parseInt (hexAddr address) = Some address) /\
  (forall prefix c, In c (getI2CCompletions prefix) ->
     exists device, In device i2cDevices /\
       detail c = dev_name device /\
       label c = hexAddr (dev_address device) /\
       insertText c = label c /\ sortText c = label c /\
       Js.parseInt (label c) = Some (dev_address device)).
Proof.
  split; [apply hexAddr_parses_back|].
  intros prefix c Hc. unfold getI2CCompletions in Hc.
  apply in_flat_map in Hc as (device & Hdev & Hc). exists device.
  split; [done|].
  destruct (_ || _ || _) in Hc; [|done].
  destruct Hc as [<-|[]]. cbn [detail label insertText sortText].
  repeat split. apply hexAddr_parses_back.
Qed.

(** The key that the older [validateI2CUsage] looks up, ['0x' +
    address.toString(16)], reads as the address. *)
Lemma toString16_parses_back (address : N) :
  Js.parseInt16 (txt "0x" ++ LegacyDiagnostics.toString16 address) = Some address.
Proof.
  destruct (toString16_digits address) as (ds & -> & Hds & Hne & Hval).
  transitivity (Js.digits 16 None (map LegacyDiagnostics.hex_digit ds ++ []));
    [by rewrite app_nil_r|].
  rewrite (digits_hex_with _ ds hex_digit_value) by done.
  simpl. by rewrite Hval.
Qed.

(** X20: a device that the older [validateI2CUsage] names for an address,
    by the key ['0x' + address.toString(16)] of the table, is one of those
    that [getI2CAddressConflicts] gives for the address; on the table that
    the hardware database creates, the two give the same devices for every
    address. *)
Theorem device_hint_among_conflicts :
  (forall protocol address,
     match LegacyDiagnostics.knownDevice protocol address with
     | Some device => In device (getI2CAddressConflicts (Some protocol) address)
     | None => True
     end) /\
  (forall address,
     getI2CAddressConflicts (Some LegacyDiagnostics.default_i2c) address =
     match LegacyDiagnostics.knownDevice LegacyDiagnostics.default_i2c address with
     | Some device => [device]
     | None => []
     end).
Proof.
  split.
  - intros protocol address. unfold LegacyDiagnostics.knownDevice. cbv zeta.
    destruct (List.find _ _) as [[key device]|] eqn:Hfind; [|done].
    apply List.find_some in Hfind as [Hin Hkey]. cbn [fst] in Hkey.
    apply String.eqb_eq in Hkey. cbn [fmap option_fmap option_map snd].
    unfold getI2CAddressConflicts. apply in_flat_map.
    exists (key, device). split; [done|].
    rewrite bool_decide_eq_true_2; [by left|].
    rewrite Hkey. unfold txt. rewrite list_ascii_of_string_of_list_ascii.
    apply toString16_parses_back.
  - intros address.
    assert (Hkey : forall key n,
      Js.parseInt16 (txt key) = Some n ->
      String.eqb key (string_of_list_ascii
                        (txt "0x" ++ LegacyDiagnostics.toString16 address)) = true ->
      address = n).
    { intros key n Hn Hk. apply String.eqb_eq in Hk. rewrite Hk in Hn.
      unfold txt at 1 in Hn. rewrite list_ascii_of_string_of_list_ascii in Hn.
      rewrite toString16_parses_back in Hn. congruence. }
    unfold LegacyDiagnostics.knownDevice. cbv zeta.
    destruct (decide (address ∈ [39; 72; 80; 104]%N)) as [Hin|Hout].
    + repeat (apply elem_of_cons in Hin as [->|Hin]; [reflexivity|]).
      by apply elem_of_nil in Hin.
    + unfold LegacyDiagnostics.default_i2c, getI2CAddressConflicts.
      cbn [LegacyDiagnostics.commonAddresses flat_map List.find fst snd].
      repeat match goal with
      | |- context [String.eqb ?k ?key] =>
        let E := fresh "E" in
        destruct (String.eqb k key) eqn:E;
        [ exfalso; apply Hout;
          rewrite (Hkey k _ eq_refl E); set_solver |]
      end.
      repeat match goal with
      | |- context [bool_decide (?a = Some address)] =>
        rewrite (bool_decide_eq_false_2 (a = Some address))
          by (intros H; apply Hout; injection H as <-; vm_compute; set_solver)
      end.
      reflexivity.
Qed.

End CompletionFacts.

Section WordAtPositionFacts.
Import Regex HoverProvider.

(** Whether the character at an offset of the text is a word character;
    there is none past the end. *)
Definition word_char_at (t : list ascii) (i : nat) : bool :=
  match t !! i with
  | Some c => is_word c
  | None => false
  end.

Lemma word_test_lookup (t : list ascii) i :
  i < length t -> word_test (t !! i) = word_char_at t i.
Proof.
  intros Hi. unfold word_char_at.
  by destruct (lookup_lt_is_Some_2 t i Hi) as [c ->].
Qed.

(** The first loop stops at the start of the run of word characters that
    ends at the offset. *)
Lemma expand_backwards_props (t : list ascii) o :
  let s := expand_backwards t o in
  s <= o /\
  (forall i, s <= i < o -> word_test (t !! i) = true) /\
  (s = 0 \/ word_test (t !! (s - 1)) = false).
Proof.
  induction o as [|o IH]; cbn [expand_backwards]; cbv zeta.
  { split; [done|]. split; [lia|by left]. }
  destruct (word_test (t !! o)) eqn:Hw.
  - destruct IH as (Hle & Hall & Hend). split; [lia|]. split; [|done].
    intros i Hi. destruct (decide (i = o)) as [->|]; [done|]. apply Hall. lia.
  - split; [done|]. split; [lia|]. right. by rewrite Nat.sub_succ, Nat.sub_0_r.
Qed.

Lemma expand_backwards_unique (t : list ascii) o s :
  s <= o ->
  (forall i, s <= i < o -> word_test (t !! i) = true) ->
  (s = 0 \/ word_test (t !! (s - 1)) = false) ->
  expand_backwards t o = s.
Proof.
  intros Hle Hall Hend. induction o as [|o IH]; [simpl; lia|].
  cbn [expand_backwards]. destruct (decide (s = S o)) as [->|Hne].
  - destruct Hend as [?|Hend]; [done|].
    rewrite Nat.sub_succ, Nat.sub_0_r in Hend. by rewrite Hend.
  - rewrite (Hall o) by lia. apply IH; [lia|]. intros i Hi. apply Hall. lia.
Qed.

(** The second loop stops at the end of the run of word characters that
    starts at the offset. *)
Lemma expand_forwards_props rest : forall (t : list ascii) o,
  drop o t = rest -> o <= length t ->
  let e := expand_forwards rest o in
  o <= e <= length t /\
  (forall i, o <= i < e -> word_char_at t i = true) /\
  word_char_at t e = false.
Proof.
  induction rest as [|c rest IH]; intros t o Hdrop Ho; cbn [expand_forwards]; cbv zeta.
  { assert (Hlen : length t = o).
    { apply (f_equal length) in Hdrop. rewrite length_drop in Hdrop. simpl in Hdrop. lia. }
    split; [lia|]. split; [lia|]. unfold word_char_at.
    by rewrite lookup_ge_None_2 by lia. }
  assert (Hc : t !! o = Some c).
  { rewrite <- (Nat.add_0_r o), <- lookup_drop, Hdrop. done. }
  assert (Hlt : o < length t) by (by apply lookup_lt_is_Some_1; eauto).
  destruct (is_word c) eqn:Hw; cbn [word_test]; rewrite Hw.
  - destruct (IH t (S o)) as (Hle & Hall & Hend); [|lia|].
    { replace (S o) with (o + 1) by lia. rewrite <- drop_drop, Hdrop. done. }
    split; [lia|]. split; [|done].
    intros i Hi. destruct (decide (i = o)) as [->|].
    + unfold word_char_at. by rewrite Hc.
    + apply Hall. lia.
  - split; [lia|]. split; [lia|]. unfold word_char_at. by rewrite Hc.
Qed.

Lemma expand_forwards_unique rest : forall (t : list ascii) o e,
  drop o t = rest -> o <= e ->
  (forall i, o <= i < e -> word_char_at t i = true) ->
  word_char_at t e = false ->
  expand_forwards rest o = e.
Proof.
  induction rest as [|c rest IH]; intros t o e Hdrop Hle Hall Hend;
    cbn [expand_forwards].
  { assert (Hlen : length t <= o).
    { apply (f_equal length) in Hdrop. rewrite length_drop in Hdrop. simpl in Hdrop. lia. }
    destruct (decide (o = e)) as [|Hne]; [done|].
    specialize (Hall o ltac:(lia)). unfold word_char_at in Hall.
    by rewrite lookup_ge_None_2 in Hall by lia. }
  assert (Hc : t !! o = Some c).
  { rewrite <- (Nat.add_0_r o), <- lookup_drop, Hdrop. done. }
  cbn [word_test]. destruct (decide (o = e)) as [->|Hne].
  - unfold word_char_at in Hend. rewrite Hc in Hend. by rewrite Hend.
  - pose proof (Hall o ltac:(lia)) as Ho. unfold word_char_at in Ho.
    rewrite Hc in Ho. rewrite Ho.
    apply (IH t); [|lia| |done].
    + replace (S o) with (o + 1) by lia. rewrite <- drop_drop, Hdrop. done.
    + intros i Hi. apply Hall. lia.
Qed.

(** The run of word characters around an offset of the text: from [s] to
    [e], with no word character before [s] or at [e]. *)
Definition word_run (t : list ascii) (s e : nat) : Prop :=
  s <= e <= length t /\
  (forall i, s <= i < e -> word_char_at t i = true) /\
  (s = 0 \/ word_char_at t (s - 1) = false) /\
  word_char_at t e = false.

Lemma word_run_at (t : list ascii) o :
  o <= length t ->
  word_run t (expand_backwards t o) (expand_forwards (drop o t) o) /\
  expand_backwards t o <= o <= expand_forwards (drop o t) o.
Proof.
  intros Ho.
  destruct (expand_backwards_props t o) as (Hs & Hsall & Hsend).
  destruct (expand_forwards_props (drop o t) t o eq_refl Ho) as (He & Heall & Heend).
  split; [|lia]. split; [lia|]. split; [|split; [|done]].
  - intros i Hi. destruct (Nat.lt_ge_cases i o).
    + rewrite <- word_test_lookup by lia. apply Hsall. lia.
    + apply Heall. lia.
  - destruct Hsend as [?|Hsend]; [by left|].
    destruct (decide (expand_backwards t o = 0)) as [?|Hne]; [by left|right].
    rewrite <- word_test_lookup by lia. done.
Qed.

Lemma word_run_found (t : list ascii) s e o :
  word_run t s e -> s <= o <= e ->
  expand_backwards t o = s /\ expand_forwards (drop o t) o = e.
Proof.
  intros (Hle & Hall & Hstart & Hend) Ho. split.
  - apply expand_backwards_unique; [lia| |].
    + intros i Hi. rewrite word_test_lookup by lia. apply Hall. lia.
    + destruct Hstart as [?|Hstart]; [by left|].
      destruct (decide (s = 0)) as [?|Hne]; [by left|right].
      rewrite word_test_lookup by lia. done.
  - apply (expand_forwards_unique _ t); [done|lia| |done].
    intros i Hi. apply Hall. lia.
Qed.

(** X9: the range that [getWordAtPosition] gives for an offset of the text is
    the run of word characters that the offset is in or next to: it is
    not empty, holds the offset, has word characters only, and no word
    character is before its start or at its end.  The value is [null]
    exactly when neither the character before the offset nor the character
    at it is a word character. *)
Theorem getWordAtPosition_is_the_word (text : list ascii) (offset : nat) :
  offset <= length text ->
  match getWordAtPosition text offset with
  | Some r =>
    word_start r < word_end r /\ word_end r <= length text /\
    word_start r <= offset <= word_end r /\
    (forall i, word_start r <= i < word_end r -> word_char_at text i = true) /\
    (word_start r = 0 \/ word_char_at text (word_start r - 1) = false) /\
    word_char_at text (word_end r) = false
  | None =>
    (offset = 0 \/ word_char_at text (offset - 1) = false) /\
    word_char_at text offset = false
  end.
Proof.
  intros Ho. unfold getWordAtPosition. cbv zeta.
  destruct (word_run_at text offset Ho) as ((Hle & Hall & Hstart & Hend) & Hin).
  destruct (Nat.eqb_spec (expand_backwards text offset)
                         (expand_forwards (drop offset text) offset)) as [Heq|Hne].
  - assert (Hs : expand_backwards text offset = offset) by lia.
    rewrite <- Heq, Hs in Hend. rewrite Hs in Hstart. done.
  - cbn [word_start word_end]. repeat split; try done; lia.
Qed.

(** The word [cd] of the text [ab cd], from its end. *)
Lemma getWordAtPosition_is_the_word_witness :
  5 <= length (txt "ab cd") /\
  getWordAtPosition (txt "ab cd") 5 = Some {| word_start := 3; word_end := 5 |} /\
  match getWordAtPosition (txt "ab cd") 5 with
  | Some r =>
    word_start r < word_end r /\ word_end r <= length (txt "ab cd") /\
    word_start r <= 5 <= word_end r /\
    (forall i, word_start r <= i < word_end r -> word_char_at (txt "ab cd") i = true) /\
    (word_start r = 0 \/ word_char_at (txt "ab cd") (word_start r - 1) = false) /\
    word_char_at (txt "ab cd") (word_end r) = false
  | None =>
    (5 = 0 \/ word_char_at (txt "ab cd") (5 - 1) = false) /\
    word_char_at (txt "ab cd") 5 = false
  end.
Proof.
  assert (H : 5 <= length (txt "ab cd")) by (simpl; lia).
  split; [exact H|]. split; [reflexivity|].
  exact (getWordAtPosition_is_the_word (txt "ab cd") 5 H).
Defined.

(** X10: every offset of the word gives the same range: from its start to
    its end, both included. *)
Theorem getWordAtPosition_same_on_word (text : list ascii) (offset : nat) (r : WordRange) :
  offset <= length text ->
  getWordAtPosition text offset = Some r ->
  forall offset', word_start r <= offset' <= word_end r ->
    getWordAtPosition text offset' = Some r.
Proof.
  intros Ho Hr offset' Ho'. unfold getWordAtPosition in *. cbv zeta in *.
  destruct (word_run_at text offset Ho) as (Hrun & Hin).
  destruct (Nat.eqb_spec (expand_backwards text offset)
                         (expand_forwards (drop offset text) offset)) as [Heq|Hne];
    [done|].
  injection Hr as <-. cbn [word_start word_end] in Ho'.
  destruct (word_run_found _ _ _ offset' Hrun Ho') as [-> ->].
  by apply Nat.eqb_neq in Hne as ->.
Qed.

(** The start and the end of the word [cd] of the text [ab cd]. *)
Lemma getWordAtPosition_same_on_word_witness :
  let r := {| word_start := 3; word_end := 5 |} in
  4 <= length (txt "ab cd") /\
  getWordAtPosition (txt "ab cd") 4 = Some r /\
  word_start r <= 3 <= word_end r /\
  getWordAtPosition (txt "ab cd") 3 = Some r.
Proof.
  cbv zeta.
  assert (H1 : 4 <= length (txt "ab cd")) by (simpl; lia).
  assert (H2 : getWordAtPosition (txt "ab cd") 4 = Some {| word_start := 3; word_end := 5 |})
    by reflexivity.
  assert (H3 : word_start {| word_start := 3; word_end := 5 |} <= 3
               <= word_end {| word_start := 3; word_end := 5 |}) by (simpl; lia).
  split; [exact H1|]. split; [exact H2|]. split; [exact H3|].
  exact (getWordAtPosition_same_on_word (txt "ab cd") 4 _ H1 H2 3 H3).
Defined.

(** X11: past the end of the text the value is never [null]: the range
    goes from the start of the last word of the text, or from the end of
    the text, to the offset itself. *)
Theorem getWordAtPosition_past_end (text : list ascii) (offset : nat) :
  length text < offset ->
  getWordAtPosition text offset =
  Some {| word_start := expand_backwards text (length text); word_end := offset |}.
Proof.
  intros Ho. unfold getWordAtPosition. cbv zeta.
  rewrite drop_ge by lia. cbn [expand_forwards].
  assert (Hback : forall k, expand_backwards text (length text + k) =
                            expand_backwards text (length text)).
  { intros k. induction k as [|k IH]; [by rewrite Nat.add_0_r|].
    rewrite Nat.add_succ_r. cbn [expand_backwards].
    by rewrite lookup_ge_None_2 by lia. }
  assert (Heb : expand_backwards text offset = expand_backwards text (length text)).
  { rewrite <- (Hback (offset - length text)). f_equal. lia. }
  rewrite Heb.
  destruct (expand_backwards_props text (length text)) as (Hle & _).
  destruct (Nat.eqb_spec (expand_backwards text (length text)) offset); [lia|done].
Qed.

(** Three characters past the end of [ab cd;]: no word is there, and the
    range is that of the three offsets. *)
Lemma getWordAtPosition_past_end_witness :
  length (txt "ab cd;") < 9 /\
  getWordAtPosition (txt "ab cd;") 9 = Some {| word_start := 6; word_end := 9 |}.
Proof.
  assert (H : length (txt "ab cd;") < 9) by (simpl; lia).
  split; [exact H|].
  exact (getWordAtPosition_past_end (txt "ab cd;") 9 H).
Defined.

End WordAtPositionFacts.

Section MemoryNumberFacts.
Import Regex MemoryAnalyzer.

(** [trim] keeps a first character that is no white space. *)
Lemma trim_start_last l c :
  is_space c = false -> exists l', trim_start (l ++ [c]) = l' ++ [c].
Proof.
  intros Hc. induction l as [|d l IH]; simpl.
  - rewrite Hc. by exists [].
  - destruct (is_space d); [done|]. by exists (d :: l).
Qed.

Lemma trim_first c rest :
  is_space c = false -> exists tail, trim (c :: rest) = c :: tail.
Proof.
  intros Hc. unfold trim. cbn [trim_start]. rewrite Hc. cbn [rev].
  destruct (trim_start_last (rev rest) c Hc) as [l' ->].
  exists (rev l'). by rewrite rev_app_distr.
Qed.

(** The size of a type is [NaN] or a number that is not zero. *)
Definition is_size (x : num) : Prop :=
  exists k, x = JsNumber.Finite k /\ (0 < k)%N.

Lemma type_size_cases type : type_size type = JsNumber.NaN \/ is_size (type_size type).
Proof.
  unfold type_size, is_size. cbv zeta.
  destruct (List.find _ typeSizes) as [e|].
  - right. eexists. split; [done|]. destruct (N.eqb_spec (snd e) 0); lia.
  - destruct (existsb _ inherited); [by left|]. right. exists 4%N. split; [done|lia].
Qed.

(** A type name that starts with the letter [u] is no inherited property:
    its size is a number. *)
Lemma type_size_u rest : type_size ("u"%char :: rest) <> JsNumber.NaN.
Proof.
  unfold type_size. cbv zeta.
  destruct (List.find _ typeSizes) as [e|]; [done|].
  assert (H : existsb (String.eqb (string_of_list_ascii ("u"%char :: rest))) inherited = false)
    by reflexivity.
  by rewrite H.
Qed.

(** The types that [globalVarPattern] accepts have a size that is a
    number. *)
Lemma declared_type_size v r :
  In r (bodies 1 globalVarPattern) -> matches r v -> type_size (trim v) <> JsNumber.NaN.
Proof.
  intros Hr Hv. simpl in Hr. destruct Hr as [<-|[]].
  assert (Hlit : forall s, matches (lit s) v -> v = txt s).
  { intros s Hs. by apply matches_Lit in Hs. }
  assert (Hun : forall s, matches (seqs [lit "unsigned"; Plus sp; lit s]) v ->
                          type_size (trim v) <> JsNumber.NaN).
  { intros s Hs. cbn [seqs] in Hs.
    apply matches_Seq_inv in Hs as (w1 & w2 & -> & H1 & _).
    apply matches_Lit in H1 as ->.
    destruct (trim_first "u" (txt "nsigned" ++ w2) eq_refl) as [tail Ht].
    change (txt "unsigned" ++ w2) with ("u"%char :: txt "nsigned" ++ w2).
    rewrite Ht. apply type_size_u. }
  cbn [alts] in Hv.
  repeat (apply matches_Alt_inv in Hv as [Hv|Hv];
          [first [ apply Hlit in Hv as ->; by vm_compute | by apply (Hun _ Hv) ]|]).
  apply Hlit in Hv as ->. by vm_compute.
Qed.

(** The number of elements, read from the digits between the brackets, is
    never [NaN]. *)
Lemma array_size_digits g :
  (forall v, g = Some v -> forallb is_digit v = true /\ v <> []) ->
  array_size g <> JsNumber.NaN.
Proof.
  intros Hg. unfold array_size. destruct g as [[|c v]|]; [done| |done].
  destruct (Hg (c :: v) eq_refl) as [Hd Hne]. by apply parseInt_number_digits.
Qed.

(** A size that is not zero, times a number of elements. *)
Lemma num_mul_size x n :
  is_size x -> n <> JsNumber.NaN -> num_mul x n <> JsNumber.NaN.
Proof.
  intros (k & -> & Hk) Hn H. apply mul_NaN in H as [H|[H|[[H _]|[H _]]]]; try done.
  injection H as ->. lia.
Qed.

Lemma global_entries_numeric cleanText m j prev s :
  match_here globalVarPattern j prev s = Some m ->
  Forall (fun it => size it <> JsNumber.NaN) (global_entries cleanText m).
Proof.
  intros Hm. unfold global_entries, global_step. cbv zeta.
  destruct (at_global_scope cleanText (index m)); [|constructor].
  cbn [items app]. constructor; [|constructor]. cbn [size].
  destruct (test _ _ || test _ _); [|done].
  assert (Harr : array_size (group m 3) <> JsNumber.NaN).
  { apply array_size_digits. intros v Hg.
    destruct (group_matches _ _ _ _ _ _ _ Hm Hg) as (rg & Hrg & Hv).
    simpl in Hrg. destruct Hrg as [<-|[]]. by apply matches_Plus_class in Hv. }
  destruct (bool_decide (trim (default [] (group m 1)) = txt "String")).
  { apply num_mul_size; [|done]. exists 6%N. split; [done|lia]. }
  destruct (bool_decide _ && _); [done|].
  assert (Ht : type_size (trim (default [] (group m 1))) <> JsNumber.NaN).
  { destruct (group m 1) as [v|] eqn:Hg; [|intros Hx; vm_compute in Hx; discriminate Hx].
    destruct (group_matches _ _ _ _ _ _ _ Hm Hg) as (rg & Hrg & Hv).
    by apply (declared_type_size v rg). }
  apply num_mul_size; [|done]. by destruct (type_size_cases (trim (default [] (group m 1)))).
Qed.

Lemma instance_entries_numeric cleanText e :
  is_size (snd e) ->
  Forall (fun it => size it <> JsNumber.NaN) (instance_entries cleanText e).
Proof.
  intros He. unfold instance_entries.
  apply Forall_forall. intros it Hit. apply list_elem_of_In, in_flat_map in Hit
    as (m & Hm & Hit).
  unfold instance_step in Hit. cbv zeta in Hit.
  destruct (at_global_scope cleanText (index m)); [|done].
  destruct Hit as [<-|[]]. cbn [size]. apply num_mul_size; [done|].
  apply array_size_digits. intros v Hg.
  apply exec_from_match in Hm as (j & prev & s & Hm).
  destruct (group_matches _ _ _ _ _ _ _ Hm Hg) as (rg & Hrg & Hv).
  unfold instancePattern in Hrg. cbn [seqs bodies] in Hrg.
  assert (Hlit : forall l, bodies 2 (Lit l) = []).
  { intros l. induction l as [|c l IH]; [done|]. cbn [Lit bodies]. by rewrite IH. }
  rewrite Hlit in Hrg. simpl in Hrg. destruct Hrg as [<-|[]].
  by apply matches_Plus_class in Hv.
Qed.

(** The sum is [NaN] exactly when it starts from [NaN] or adds it. *)
Lemma sum_from_NaN_iff l : forall a,
  sum_from a l = JsNumber.NaN <->
  a = JsNumber.NaN \/ Exists (fun it => size it = JsNumber.NaN) l.
Proof.
  induction l as [|it l IH]; intros a; cbn [sum_from fold_left].
  - split; [by left|]. intros [?|H]; [done|]. inversion H.
  - fold (sum_from (num_add a (size it)) l). rewrite IH, Exists_cons.
    unfold num_add. rewrite add_NaN. tauto.
Qed.

Lemma sum_from_valid l : forall a, valid a -> valid (sum_from a l).
Proof.
  induction l as [|it l IH]; intros a Ha; [done|].
  cbn [sum_from fold_left]. apply IH, add_valid.
Qed.

(** X12: the estimate of the globals is [NaN] only through a struct: the
    entry of a declaration with one of the types of the list is never
    [NaN], and when the size of every struct definition of the text is a
    number that is not zero (no member with the name of an inherited
    property as its type, and not zero times [Infinity] elements), so are
    all entries and [ram.globalVariables]. *)
Theorem globalVariables_nan_only_from_structs (this : MemoryAnalyzer) (T : text) :
  (forall e, In e (struct_definitions (cleanText_of T)) -> is_size (snd e)) ->
  globalVariables (ram (analyzeMemory this T)) <> JsNumber.NaN /\
  Forall (fun it => size it <> JsNumber.NaN) (items (ram (analyzeMemory this T))).
Proof.
  intros Hstructs.
  assert (Hitems : Forall (fun it => size it <> JsNumber.NaN)
                          (items (ram (analyzeMemory this T)))).
  { rewrite analyzeMemory_items. apply Forall_app. split.
    - apply Forall_forall. intros it Hit.
      apply list_elem_of_In, in_flat_map in Hit as (m & Hm & Hit).
      apply exec_from_match in Hm as (j & prev & s & Hm).
      pose proof (global_entries_numeric (cleanText_of T) m j prev s Hm) as Hall.
      rewrite Forall_forall in Hall. by apply Hall, list_elem_of_In.
    - apply Forall_forall. intros it Hit.
      apply list_elem_of_In, in_flat_map in Hit as (e & He & Hit).
      pose proof (instance_entries_numeric (cleanText_of T) e (Hstructs e He)) as Hall.
      rewrite Forall_forall in Hall. by apply Hall, list_elem_of_In. }
  split; [|done].
  pose proof (analyzeMemory_accounted this T) as Hacc. unfold accounted in Hacc.
  rewrite Hacc. unfold sum_sizes. intros [H|H]%sum_from_NaN_iff; [done|].
  apply Exists_exists in H as (it & Hin & Hit).
  rewrite Forall_forall in Hitems. by apply (Hitems it).
Qed.

(** A sketch with a struct of three bytes and two instances of it. *)
Definition sketch_with_struct : text :=
  txt "struct P { int x; char c; };" ++ newline ::
  txt "P a;" ++ newline ::
  txt "P b[4];" ++ newline ::
  txt "int n = 0;" ++ newline ::
  txt "void setup() { }".

Lemma globalVariables_nan_only_from_structs_witness :
  let this := {| currentBoard := "arduino:avr:uno" |} in
  (forall e, In e (struct_definitions (cleanText_of sketch_with_struct)) ->
             is_size (snd e)) /\
  globalVariables (ram (analyzeMemory this sketch_with_struct)) <> JsNumber.NaN /\
  Forall (fun it => size it <> JsNumber.NaN)
         (items (ram (analyzeMemory this sketch_with_struct))).
Proof.
  cbv zeta.
  assert (H : forall e, In e (struct_definitions (cleanText_of sketch_with_struct)) ->
                        is_size (snd e)).
  { assert (Hs : struct_definitions (cleanText_of sketch_with_struct) =
                 [(txt "P", JsNumber.Finite 3)])
      by (vm_compute; reflexivity).
    rewrite Hs. intros e [<-|[]]. exists 3%N. split; [done|lia]. }
  split; [exact H|].
  exact (globalVariables_nan_only_from_structs _ sketch_with_struct H).
Defined.

(** A struct without members has the size zero; an array of it with so
    many elements that their number is [Infinity] has the size [NaN]. *)
Example empty_struct_times_infinity :
  let sketch :=
    txt "struct E { };" ++ newline :: txt "E a[" ++ repeat "9"%char 310 ++ txt "];" in
  struct_definitions (cleanText_of sketch) = [(txt "E", JsNumber.Finite 0)] /\
  map (fun it => (arraySize it, size it)) (items (ram (analyzeMemory on_uno sketch))) =
    [(JsNumber.Infinity, JsNumber.NaN)] /\
  globalVariables (ram (analyzeMemory on_uno sketch)) = JsNumber.NaN.
Proof. cbv zeta. repeat split; vm_compute; reflexivity. Qed.

(** X13: the total of the RAM is [NaN] or [Infinity] when the estimate of
    the globals is, and never under it; as long as nothing rounds (the
    globals, 581 bytes and 8 for every [malloc], [calloc] or [new] are
    under [2 ^ 53]) it is the globals and between 37 bytes (28 for the
    stack and 9 for the runtime) and these 581 bytes and 8 for every
    allocation.  The total of the flash is the strings and 2000 bytes. *)
Theorem analyzeMemory_floor (this : MemoryAnalyzer) (T : text) :
  let a := analyzeMemory this T in
  let most := (581 + 8 * N.of_nat (count_matches mallocPattern T))%N in
  flash_total (flash a) = (strings (flash a) + 2000)%N /\
  match globalVariables (ram a) with
  | JsNumber.NaN => total (ram a) = JsNumber.NaN
  | JsNumber.Infinity => total (ram a) = JsNumber.Infinity
  | JsNumber.Finite g =>
    num_le (JsNumber.Finite g) (total (ram a)) /\
    ((g + most < 2 ^ 53)%N ->
     exists t, total (ram a) = JsNumber.Finite t /\ (g + 37 <= t <= g + most)%N)
  end.
Proof.
  cbv zeta.
  pose proof (analyzeMemory_accounted this T) as Hacc. unfold accounted in Hacc.
  assert (Hv : valid (globalVariables (ram (analyzeMemory this T)))).
  { rewrite Hacc. by apply sum_from_valid. }
  clear Hacc. revert Hv. unfold analyzeMemory. cbv zeta.
  cbn [ram flash limits set_ram set_flash analyzeStackUsage analyzeStringLiterals
       stackEstimate flash_total strings globalVariables total].
  intros Hv. split; [done|].
  set (stack := (N.min (if (5 <? count_matches functionPattern T)%nat then 3 else 2) 3
                 * 14)%N).
  assert (Hstack : (28 <= stack <= 42)%N).
  { unfold stack. destruct (5 <? count_matches functionPattern T); simpl; lia. }
  assert (Hover : (9 <= estimateFrameworkOverhead T
                     <= 539 + 8 * N.of_nat (count_matches mallocPattern T))%N).
  { unfold estimateFrameworkOverhead. cbv zeta.
    destruct (str_includes T (txt "Serial.begin")), (str_includes T (txt "Wire.begin")),
      (str_includes T (txt "SPI.begin")),
      (str_includes T (txt "WiFi.begin") || str_includes T (txt "BLEDevice::init")); lia. }
  generalize dependent (estimateFrameworkOverhead T). intros over Hover.
  generalize dependent stack. intros stack Hstack.
  destruct (globalVariables (ram (analyzeGlobalVariables T _))) as [| |g].
  - done.
  - unfold num_add. by rewrite !add_Infinity_l by apply of_N_not_NaN.
  - split.
    + eapply num_le_trans.
      * apply (add_ge_l _ (JsNumber.of_N stack)); [done|done|apply of_N_not_NaN].
      * apply add_ge_l; [apply add_valid| |apply of_N_not_NaN].
        unfold num_add. intros [?|?%of_N_not_NaN]%add_NaN; done.
    + intros Hsmall. unfold num_add.
      rewrite (of_N_small stack), (of_N_small over) by lia.
      cbn [JsNumber.add]. rewrite (of_N_small (g + stack)) by lia.
      cbn [JsNumber.add]. rewrite (of_N_small (g + stack + over)) by lia.
      eexists. split; [done|]. lia.
Qed.

(** The sizes of the listed string literals. *)
Definition listed_sizes (f : Flash) : N :=
  fold_right (fun it acc => (flash_size it + acc)%N) 0%N (flash_items f).

Lemma listed_sizes_from (l : list FlashItem) (a : N) :
  fold_right (fun it acc => (flash_size it + acc)%N) a l =
  (fold_right (fun it acc => (flash_size it + acc)%N) 0%N l + a)%N.
Proof. induction l as [|it l IH]; simpl; [lia|]. rewrite IH. lia. Qed.

Lemma string_step_inv f m :
  Forall (fun it => (20 < flash_size it)%N /\ length (content it) <= 33) (flash_items f) ->
  (listed_sizes f <= strings f)%N ->
  Forall (fun it => (20 < flash_size it)%N /\ length (content it) <= 33)
         (flash_items (string_step f m)) /\
  (listed_sizes (string_step f m) <= strings (string_step f m))%N.
Proof.
  intros Hall Hsum. unfold string_step, listed_sizes in *. cbv zeta.
  cbn [flash_items strings].
  destruct (N.ltb_spec 20 (N.of_nat (length (default [] (group m 1))) + 1)) as [Hlt|Hge].
  - split.
    + apply Forall_app. split; [done|]. constructor; [|constructor].
      cbn [flash_size content]. split; [done|].
      rewrite length_app, length_take.
      pose proof (Nat.le_min_l 30 (length (default [] (group m 1)))) as Hmin.
      destruct (30 <? length (default [] (group m 1))); cbv iota;
        [change (length (txt "...")) with 3|change (length (@nil ascii)) with 0]; lia.
    + rewrite fold_right_app. cbn [fold_right flash_size].
      rewrite listed_sizes_from. lia.
  - split; [done|lia].
Qed.

(** X14: the string literals: every listed item is a literal of more than
    19 characters (a size above 20 with its terminator), shown with at most
    33 characters, and the listed sizes
    are part of [flash.strings]. *)
Theorem analyzeStringLiterals_items (this : MemoryAnalyzer) (T : text) :
  let f := flash (analyzeMemory this T) in
  Forall (fun it => (20 < flash_size it)%N /\ length (content it) <= 33) (flash_items f) /\
  (listed_sizes f <= strings f)%N.
Proof.
  cbv zeta. unfold analyzeMemory. cbv zeta.
  cbn [flash set_ram set_flash analyzeStackUsage flash_items strings].
  unfold listed_sizes. cbn [flash_items].
  unfold analyzeStringLiterals. cbn [flash set_flash].
  change (flash (analyzeGlobalVariables T _)) with
    {| strings := 0; flash_total := 0; flash_items := [] |}.
  assert (H : forall ms f,
    Forall (fun it => (20 < flash_size it)%N /\ length (content it) <= 33) (flash_items f) ->
    (listed_sizes f <= strings f)%N ->
    Forall (fun it => (20 < flash_size it)%N /\ length (content it) <= 33)
           (flash_items (fold_left string_step ms f)) /\
    (listed_sizes (fold_left string_step ms f) <= strings (fold_left string_step ms f))%N).
  { induction ms as [|m ms IH]; intros f Hall Hsum; [done|].
    simpl. destruct (string_step_inv f m Hall Hsum). by apply IH. }
  apply H; [constructor|done].
Qed.

(** X22: [ram.globalVariables] is what the sizes of the items that
    [ram.items] lists add up to, added in their order as numbers are, each
    sum rounded; so it is [NaN] exactly when the size of a listed item
    is. *)
Theorem globalVariables_is_sum_of_items (this : MemoryAnalyzer) (T : text) :
  let r := ram (analyzeMemory this T) in
  globalVariables r =
    fold_left (fun sum it => JsNumber.add sum (size it)) (items r) (JsNumber.Finite 0) /\
  (globalVariables r = JsNumber.NaN <->
   Exists (fun it => size it = JsNumber.NaN) (items r)).
Proof.
  cbv zeta. pose proof (analyzeMemory_accounted this T) as Hacc.
  unfold accounted in Hacc. split; [exact Hacc|]. rewrite Hacc. unfold sum_sizes.
  rewrite sum_from_NaN_iff. split; [|by right]. by intros [?|?].
Qed.

(** Past [2 ^ 53] a byte more is lost in the rounding. *)
Example globalVariables_rounds :
  let sketch :=
    txt "char a[9007199254740992];" ++ newline :: txt "char b;" ++ newline ::
    txt "void loop() { a[0] = b; b = 1; }" in
  map size (items (ram (analyzeMemory on_uno sketch))) =
    [JsNumber.Finite 9007199254740992; JsNumber.Finite 1] /\
  globalVariables (ram (analyzeMemory on_uno sketch)) = JsNumber.Finite 9007199254740992.
Proof. cbv zeta. split; vm_compute; reflexivity. Qed.

End MemoryNumberFacts.

Section CountingValidatorFacts.
Import Regex Validators.

Lemma eeprom_loop_nth document ms : forall k, k <= 5 ->
  eeprom_loop document ms k = eeprom_loop document (drop (5 - k) ms) 5.
Proof.
  induction ms as [|m ms IH]; intros k Hk.
  { by rewrite drop_nil. }
  destruct (decide (k = 5)) as [->|Hne]; [done|].
  cbn [eeprom_loop]. cbv zeta.
  assert (H : (5 <? S k) = false) by (apply Nat.ltb_ge; lia). rewrite H.
  rewrite IH by lia. replace (5 - k) with (S (5 - S k)) by lia. done.
Qed.

Lemma wire_loop_nth document ms : forall k, k <= 32 ->
  wire_loop document ms k = wire_loop document (drop (32 - k) ms) 32.
Proof.
  induction ms as [|m ms IH]; intros k Hk.
  { by rewrite drop_nil. }
  destruct (decide (k = 32)) as [->|Hne]; [done|].
  cbn [wire_loop]. cbv zeta.
  assert (H : (32 <? S k) = false) by (apply Nat.ltb_ge; lia). rewrite H.
  rewrite IH by lia. replace (32 - k) with (S (32 - S k)) by lia. done.
Qed.

Lemma lookup_head_drop {A} (l : list A) n : l !! n = head (drop n l).
Proof.
  revert l. induction n as [|n IH]; intros [|x l]; simpl; try done.
Qed.

Lemma exec_all_head r t m ms : exec_all r t = m :: ms -> exec r t = Some m.
Proof.
  unfold exec_all, exec. cbn [exec_from].
  destruct (search r 0 None t) as [m'|]; [|done].
  destruct (length (matched m') =? 0); by intros [= -> _].
Qed.

(** X15: the validators that count: each reports once at most.
    [validateEEPROMWrites] reports at the sixth match of its pattern,
    [validateWireBuffer] at the thirty-third, and [validateSerialBuffer]
    at the first match, with the number of matches, when there are more
    than twenty; with fewer matches they report nothing. *)
Theorem counting_validators_report_once (text : text)
    (document : Diagnostics.TextDocument) :
  validateEEPROMWrites text document =
    match exec_all eepromWritePattern text !! 5 with
    | Some m =>
      [ {| severity := Diagnostics.Warning;
           range := Diagnostics.range_at (Diagnostics.positionAt document (index m)) 12;
           message := message_text
             "Multiple EEPROM.write() detected. EEPROM has ~100k write cycle limit. Use EEPROM.update() to reduce writes";
           source := "Sentinel"; code := "eeprom-wear" |} ]
    | None => []
    end /\
  validateWireBuffer text document =
    match exec_all wireWritePattern text !! 32 with
    | Some m =>
      [ {| severity := Diagnostics.Warning;
           range := Diagnostics.range_at (Diagnostics.positionAt document (index m)) 10;
           message := message_text
             "I2C buffer limited to 32 bytes. Too many Wire.write() calls may overflow";
           source := "Sentinel"; code := "i2c-buffer-overflow" |} ]
    | None => []
    end /\
  validateSerialBuffer text document =
    match exec_all serialPrintPattern text with
    | m :: ms =>
      if 20 <=? length ms then
        [ {| severity := Diagnostics.Information;
             range := Diagnostics.range_at (Diagnostics.positionAt document (index m)) 13;
             message := serial_print_calls (S (length ms));
             source := "Sentinel"; code := "excessive-serial" |} ]
      else []
    | [] => []
    end.
Proof.
  split; [|split].
  - unfold validateEEPROMWrites. rewrite eeprom_loop_nth by lia.
    generalize (exec_all eepromWritePattern text). intros ms.
    rewrite (lookup_head_drop ms 5), Nat.sub_0_r.
    by destruct (drop 5 ms).
  - unfold validateWireBuffer. rewrite wire_loop_nth by lia.
    generalize (exec_all wireWritePattern text). intros ms.
    rewrite (lookup_head_drop ms 32), Nat.sub_0_r.
    by destruct (drop 32 ms).
  - unfold validateSerialBuffer. cbv zeta.
    destruct (exec_all serialPrintPattern text) as [|m ms] eqn:Hms; [done|].
    rewrite (exec_all_head _ _ _ _ Hms). cbn [length].
    change (20 <? S (length ms)) with (20 <=? length ms). done.
Qed.

(** The pin that a diagnostic of each of the two validators prints. *)
Definition reported_pin (d : Diagnostics.Diagnostic) : option N :=
  match Diagnostics.message d with
  | Diagnostics.pin_without_interrupt pin _ => Some pin
  | _ => None
  end.

Definition reported_pin_on_uno (d : Diagnostic) : option N :=
  match message d with
  | pin_without_interrupt_on_uno pin => pin
  | _ => None
  end.

(** X16: with the interrupt pins of the Arduino Uno in the board
    description, [validateInterruptUsage] and [validateInterruptPins]
    report the same calls, each with the code [invalid-interrupt-pin]:
    such a call is reported twice. *)
Theorem interrupt_validators_report_the_same_calls
    (this : Diagnostics.EmbeddedDiagnosticProvider) (board : Diagnostics.Board)
    (text : text) (document : Diagnostics.TextDocument) :
  Diagnostics.getCurrentBoard (Diagnostics.hardwareDB this) = Some board ->
  Diagnostics.interrupts board = Some interruptPins ->
  let byBoard := Diagnostics.validateInterruptUsage this text document in
  let onUno := validateInterruptPins text document in
  map (fun d => (Diagnostics.severity d, Diagnostics.source d, Diagnostics.code d)) byBoard =
    map (fun d => (severity d, source d, code d)) onUno /\
  map reported_pin byBoard = map (fun d => Some (default 0%N (reported_pin_on_uno d))) onUno /\
  Forall (fun d => Diagnostics.code d = "invalid-interrupt-pin"%string) byBoard.
Proof.
  intros Hboard Hpins. cbv zeta.
  unfold Diagnostics.validateInterruptUsage, validateInterruptPins.
  rewrite Hboard, Hpins.
  induction (exec_all Diagnostics.interruptPattern text) as [|m ms (IH1 & IH2 & IH3)];
    [done|].
  cbn [flat_map]. cbv zeta.
  destruct (negb (Diagnostics.includesN interruptPins
                    (Js.parseInt (default [] (group m 1))))).
  - cbn [app map]. rewrite IH1, IH2. repeat split. by constructor.
  - done.
Qed.

(** A sketch with an interrupt on pin 7, on the Arduino Uno. *)
Lemma interrupt_validators_report_the_same_calls_witness :
  let t := txt "void setup() { attachInterrupt(digitalPinToInterrupt(7), isr, RISING); }" in
  let byBoard := Diagnostics.validateInterruptUsage with_uno t (Diagnostics.document_of t) in
  let onUno := validateInterruptPins t (Diagnostics.document_of t) in
  Diagnostics.getCurrentBoard (Diagnostics.hardwareDB with_uno) = Some uno /\
  Diagnostics.interrupts uno = Some interruptPins /\
  map reported_pin byBoard = [Some 7%N] /\
  (map (fun d => (Diagnostics.severity d, Diagnostics.source d, Diagnostics.code d)) byBoard =
     map (fun d => (severity d, source d, code d)) onUno /\
   map reported_pin byBoard = map (fun d => Some (default 0%N (reported_pin_on_uno d))) onUno /\
   Forall (fun d => Diagnostics.code d = "invalid-interrupt-pin"%string) byBoard).
Proof.
  cbv zeta.
  split; [reflexivity|]. split; [reflexivity|]. split; [reflexivity|].
  exact (interrupt_validators_report_the_same_calls with_uno uno _ _ eq_refl eq_refl).
Defined.

End CountingValidatorFacts.

Section GlobalVariablesFacts.
Import Regex Validators.

Lemma split_lines_nonempty t : split_lines t <> [].
Proof.
  induction t as [|c t IH]; [done|]. simpl.
  destruct (ceq c newline); [done|]. by destruct (split_lines t).
Qed.

Lemma split_lines_line l :
  forallb (fun c => negb (ceq c newline)) l = true -> split_lines l = [l].
Proof.
  induction l as [|c l IH]; [done|]. simpl.
  intros [Hc Hl]%andb_true_iff. apply negb_true_iff in Hc. rewrite Hc, IH; done.
Qed.

Lemma split_lines_app A B :
  split_lines (A ++ newline :: B) =
  match split_lines A with
  | [] => split_lines B
  | _ => removelast (split_lines A) ++ [List.last (split_lines A) []] ++ split_lines B
  end.
Proof.
  induction A as [|c A IH]; [done|]. cbn [app split_lines].
  destruct (ceq c newline).
  - rewrite IH. pose proof (split_lines_nonempty A).
    destruct (split_lines A) as [|l ls]; [done|]. done.
  - rewrite IH. pose proof (split_lines_nonempty A).
    destruct (split_lines A) as [|l ls]; [done|].
    destruct ls as [|l' ls']; [done|]. done.
Qed.

Lemma split_lines_newline A B :
  split_lines (A ++ newline :: B) = split_lines A ++ split_lines B.
Proof.
  rewrite split_lines_app. pose proof (split_lines_nonempty A).
  destruct (split_lines A) as [|l ls] eqn:E; [done|].
  rewrite app_assoc. f_equal. symmetry. apply app_removelast_last. done.
Qed.

Lemma lines_loop_app lines1 : forall i lines2 st,
  lines_loop i (lines1 ++ lines2) st =
  lines_loop (i + length lines1) lines2 (lines_loop i lines1 st).
Proof.
  induction lines1 as [|l lines1 IH]; intros i lines2 st; simpl.
  - by rewrite Nat.add_0_r.
  - rewrite IH. f_equal. lia.
Qed.

(** Once the loop is inside a function it counts nothing more. *)
Lemma lines_loop_inside lines : forall i st,
  insideFunction st = true ->
  globalCount (lines_loop i lines st) = globalCount st /\
  firstGlobalLine (lines_loop i lines st) = firstGlobalLine st.
Proof.
  induction lines as [|l lines IH]; intros i st Hin; [done|]. cbn [lines_loop].
  assert (Hstep : insideFunction (line_step i st l) = true /\
                  globalCount (line_step i st l) = globalCount st /\
                  firstGlobalLine (line_step i st l) = firstGlobalLine st).
  { unfold line_step. cbv zeta. rewrite Hin.
    by destruct (test_at_start functionStart l). }
  destruct Hstep as (H1 & H2 & H3).
  destruct (IH (S i) _ H1) as [-> ->]. done.
Qed.

Lemma line_step_header i st header :
  test_at_start functionStart header = true ->
  insideFunction (line_step i st header) = true /\
  globalCount (line_step i st header) = globalCount st /\
  firstGlobalLine (line_step i st header) = firstGlobalLine st.
Proof. intros Hh. unfold line_step. cbv zeta. by rewrite Hh. Qed.

(** X17: [validateGlobalVariables] counts the declarations before the first
    line that starts a function only: with such a line, what is after it
    changes nothing, and a text that starts with one gets no diagnostic. *)
Theorem validateGlobalVariables_stops_at_first_function
    (pre header post : text) (document : Diagnostics.TextDocument) :
  forallb (fun c => negb (ceq c newline)) header = true ->
  test_at_start functionStart header = true ->
  validateGlobalVariables (pre ++ newline :: header ++ newline :: post) document =
    validateGlobalVariables pre document /\
  validateGlobalVariables (header ++ newline :: post) document = [].
Proof.
  intros Hline Hheader. unfold validateGlobalVariables. cbv zeta. split.
  - rewrite !split_lines_newline, (split_lines_line header Hline).
    rewrite lines_loop_app. cbn [app lines_loop].
    set (st1 := lines_loop 0 (split_lines pre) _).
    destruct (line_step_header (0 + length (split_lines pre)) st1 header Hheader)
      as (H1 & H2 & H3).
    destruct (lines_loop_inside (split_lines post) (S (0 + length (split_lines pre)))
                _ H1) as [-> ->].
    by rewrite H2, H3.
  - rewrite split_lines_newline, (split_lines_line header Hline).
    cbn [app lines_loop].
    set (st0 := {| insideFunction := false; globalCount := 0; firstGlobalLine := None |}).
    destruct (line_step_header 0 st0 header Hheader) as (H1 & H2 & H3).
    destruct (lines_loop_inside (split_lines post) 1 _ H1) as [_ ->].
    by rewrite H3.
Qed.

(** Declarations after the header of [setup] are not counted. *)
Lemma validateGlobalVariables_stops_at_first_function_witness :
  let pre := txt "int a, b;" in
  let header := txt "void setup() {" in
  let post := txt "int c;" ++ newline :: txt "}" in
  let d := Diagnostics.document_of (pre ++ newline :: header ++ newline :: post) in
  forallb (fun c => negb (ceq c newline)) header = true /\
  test_at_start functionStart header = true /\
  validateGlobalVariables (pre ++ newline :: header ++ newline :: post) d =
    validateGlobalVariables pre d /\
  validateGlobalVariables (header ++ newline :: post) d = [].
Proof.
  cbv zeta. split; [reflexivity|]. split; [reflexivity|].
  exact (validateGlobalVariables_stops_at_first_function
           (txt "int a, b;") (txt "void setup() {") (txt "int c;" ++ newline :: txt "}")
           _ eq_refl eq_refl).
Defined.

End GlobalVariablesFacts.

Section WireBeginAnywhereFacts.
Import Regex Diagnostics.

(** A match at some offset makes [test] true. *)
Lemma test_found r pre s m :
  match_here r (length pre) (prev_at None (pre ++ s) (length pre)) s = Some m ->
  test r (pre ++ s) = true.
Proof.
  intros Hm. unfold test, exec.
  pose proof (search_first r 0 None (pre ++ s)) as Hs.
  destruct (search r 0 None (pre ++ s)); [done|].
  specialize (Hs (length pre)). rewrite drop_app_length in Hs.
  change (0 + length pre) with (length pre) in Hs.
  rewrite Hs in Hm; [done|]. rewrite length_app. lia.
Qed.

Lemma wireBegin_found pre ws post :
  forallb is_space ws = true ->
  test wireBeginPattern (pre ++ txt "Wire.begin" ++ ws ++ txt "(" ++ post) = true.
Proof.
  intros Hws.
  destruct (match_here wireBeginPattern (length pre)
              (prev_at None (pre ++ txt "Wire.begin" ++ ws ++ txt "(" ++ post) (length pre))
              (txt "Wire.begin" ++ ws ++ txt "(" ++ post)) as [m|] eqn:Hm.
  { exact (test_found _ _ _ _ Hm). }
  exfalso. revert Hm. unfold match_here, wireBeginPattern.
  rewrite run_Seq, run_Lit_ok, run_Seq.
  erewrite run_Star_ok; [done|exact Hws|reflexivity|].
  change (txt "(" ++ post) with ("("%char :: post).
  rewrite run_Chr_ok by reflexivity. reflexivity.
Qed.

(** The loop of the older copy pushes no diagnostic with the code
    [missing-wire-begin]. *)
Lemma legacy_loop_no_wire_begin protocol text document ms st :
  List.filter is_missing_wire_begin
    (snd (fold_left (LegacyDiagnostics.legacy_step protocol text document) ms st)) =
  List.filter is_missing_wire_begin (snd st).
Proof.
  revert st. induction ms as [|m ms IH]; intros st; [done|].
  cbn [fold_left]. rewrite IH. destruct st as [used ds].
  unfold LegacyDiagnostics.legacy_step. cbv zeta.
  destruct (_ || _).
  { cbn [snd]. by rewrite List.filter_app, app_nil_r. }
  cbn [snd].
  destruct (existsb _ _), (bool_decide _), (LegacyDiagnostics.knownDevice _ _);
    rewrite ?List.filter_app; cbn [List.filter is_missing_wire_begin code String.eqb];
    by rewrite ?app_nil_r.
Qed.

(** X18: a text that has [Wire.begin], white space or none and an opening
    parenthesis anywhere, also inside a comment or a string, gets no
    diagnostic with the code [missing-wire-begin], in the provider and in
    its older copy. *)
Theorem wire_begin_anywhere_silences
    (this : EmbeddedDiagnosticProvider) (legacy : LegacyDiagnostics.LegacyProvider)
    (pre ws post : text) (document : TextDocument) :
  forallb is_space ws = true ->
  let text := pre ++ txt "Wire.begin" ++ ws ++ txt "(" ++ post in
  List.filter is_missing_wire_begin (validateI2CUsage this text document []) = [] /\
  List.filter is_missing_wire_begin
    (LegacyDiagnostics.validateI2CUsage legacy text document []) = [].
Proof.
  intros Hws text. pose proof (wireBegin_found pre ws post Hws) as Hb.
  fold text in Hb. split.
  - unfold validateI2CUsage. cbv zeta.
    assert (Htr : tracks ∅ []).
    { intros a _ _. split; [set_solver|]. by intros ?%elem_of_nil. }
    rewrite (address_loop_expected text document _ ∅ [] [] Htr).
    unfold wire_begin_check. cbv zeta. rewrite Hb, andb_false_r.
    apply expected_all_no_wire_begin.
  - unfold LegacyDiagnostics.validateI2CUsage.
    destruct (LegacyDiagnostics.i2cProtocol legacy) as [protocol|]; [|done].
    cbv zeta. rewrite Hb, andb_false_r. by rewrite legacy_loop_no_wire_begin.
Qed.

(** A sketch whose only [Wire.begin] is in a comment. *)
Lemma wire_begin_anywhere_silences_witness :
  let pre := txt "// " in
  let post := txt ");" ++ newline :: txt "void loop() { Wire.write(1); }" in
  let t := pre ++ txt "Wire.begin" ++ txt " " ++ txt "(" ++ post in
  forallb is_space (txt " ") = true /\
  CommentStripper.isInComment t 3 = true /\
  test wireUsePattern t = true /\
  List.filter is_missing_wire_begin (validateI2CUsage no_board t (document_of t) []) = [] /\
  List.filter is_missing_wire_begin
    (LegacyDiagnostics.validateI2CUsage
       {| LegacyDiagnostics.i2cProtocol := Some LegacyDiagnostics.default_i2c |}
       t (document_of t) []) = [].
Proof.
  cbv zeta.
  split; [reflexivity|]. split; [reflexivity|]. split; [reflexivity|].
  exact (wire_begin_anywhere_silences no_board _ (txt "// ") (txt " ")
           (txt ");" ++ newline :: txt "void loop() { Wire.write(1); }")
           _ eq_refl).
Defined.

End WireBeginAnywhereFacts.

Section LegacyDocumentFacts.
Import Diagnostics LegacyDocument.

(** [Promise.all] resolves exactly when every promise does. *)
Lemma Promise_all_resolved {A} (ps : list (promise A)) (vs : list A) :
  Promise_all ps = resolved vs <-> ps = map resolved vs.
Proof.
  revert vs. induction ps as [|[a|e] ps IH]; intros vs; cbn [Promise_all].
  - split; [intros H; injection H as <-; done|]. by destruct vs.
  - destruct (Promise_all ps) as [l|e] eqn:Hp.
    + split.
      * intros H. injection H as <-. cbn [map]. f_equal. by apply IH.
      * destruct vs as [|v vs]; [done|]. cbn [map]. intros H.
        injection H as -> Hps. apply IH in Hps. congruence.
    + split; [done|]. destruct vs as [|v vs]; [done|]. cbn [map]. intros H.
      injection H as -> Hps. apply IH in Hps. congruence.
  - split; [done|]. by destruct vs.
Qed.

(** [Promise.all] rejects with the error of the first promise that
    rejects. *)
Lemma Promise_all_rejected {A} (ps : list (promise A)) (e : JsError) :
  Promise_all ps = rejected e <->
  exists vs rest, ps = map resolved vs ++ rejected e :: rest.
Proof.
  induction ps as [|[a|e'] ps IH]; cbn [Promise_all].
  - split; [done|]. intros (vs & rest & H). by destruct vs.
  - destruct (Promise_all ps) as [l|e''] eqn:Hp.
    + split; [done|]. intros ([|v vs] & rest & H); [done|].
      cbn [map app] in H. injection H as -> Hps.
      assert (Hr : resolved l = rejected e) by (apply IH; eauto).
      done.
    + split.
      * intros H. apply IH in H as (vs & rest & ->). by exists (a :: vs), rest.
      * intros ([|v vs] & rest & H); [done|]. cbn [map app] in H. injection H as -> Hps.
        apply IH. eauto.
  - split.
    + intros H. injection H as ->. by exists [], ps.
    + intros ([|v vs] & rest & H); [|done]. cbn [map app] in H. congruence.
Qed.

Lemma fold_left_append_nil {A} (ls : list (list A)) (acc : list A) :
  fold_left (fun a l => a ++ l) ls acc = acc ++ concat ls.
Proof.
  revert acc. induction ls as [|l ls IH]; intros acc; cbn [fold_left concat].
  - by rewrite app_nil_r.
  - by rewrite IH, app_assoc.
Qed.

(** X19: the older copy of [validateDocument] is not fault-isolated: it
    resolves exactly when each of its six validators resolves, with their
    arrays appended in order; it rejects exactly when one of them rejects,
    with the error of a validator that rejected, so that the diagnostics
    of the others are lost. *)
Theorem legacy_validateDocument_not_isolated
    (methods : Methods) (document : TextDocument) :
  let call v := methods v (getText document) document in
  (forall ds, validateDocument methods document = resolved ds <->
     exists vs, map call registry = map resolved vs /\ ds = concat vs) /\
  ((exists e, validateDocument methods document = rejected e) <->
     exists v e, In v registry /\ call v = rejected e) /\
  (forall e, validateDocument methods document = rejected e ->
     exists v, In v registry /\ call v = rejected e).
Proof.
  intros call. unfold validateDocument. cbv zeta. fold call.
  assert (Hfrom : forall e, Promise_all (map call registry) = rejected e ->
                            exists v, In v registry /\ call v = rejected e).
  { intros e (vs & rest & Hp)%Promise_all_rejected.
    assert (Hin : In (rejected e) (map call registry))
      by (rewrite Hp; apply in_or_app; right; by left).
    apply in_map_iff in Hin as (v & Hv & Hin). eauto. }
  assert (Hto : forall v e, In v registry -> call v = rejected e ->
                            exists e', Promise_all (map call registry) = rejected e').
  { intros v e Hin Hv.
    destruct (Promise_all (map call registry)) as [vs|e'] eqn:Hp; [|eauto].
    exfalso. apply Promise_all_resolved in Hp.
    assert (Hr : In (rejected e) (map resolved vs)).
    { rewrite <- Hp, <- Hv. by apply in_map. }
    by apply in_map_iff in Hr as (d & Hd & _). }
  split; [|split].
  - intros ds.
    destruct (Promise_all (map call registry)) as [vs|e] eqn:Hp.
    + apply Promise_all_resolved in Hp. rewrite fold_left_append_nil, app_nil_l. split.
      * intros H. injection H as <-. eauto.
      * intros (vs' & Hvs & ->). rewrite Hp in Hvs.
        assert (vs = vs') as ->; [|done].
        clear -Hvs. revert vs' Hvs.
        induction vs as [|v vs IH]; intros [|v' vs'] H; try done.
        cbn [map] in H. injection H as -> H. f_equal. by apply IH.
    + split; [done|]. intros (vs & Hvs & _).
      apply Promise_all_resolved in Hvs. congruence.
  - split.
    + intros [e He].
      destruct (Promise_all (map call registry)) as [vs|e'] eqn:Hp; [done|].
      injection He as ->. destruct (Hfrom e eq_refl) as (v & Hin & Hv). eauto.
    + intros (v & e & Hin & Hv). destruct (Hto v e Hin Hv) as [e' ->]. eauto.
  - intros e He.
    destruct (Promise_all (map call registry)) as [vs|e'] eqn:Hp; [done|].
    injection He as ->. by apply Hfrom.
Qed.

End LegacyDocumentFacts.

Section AddressDiagnosticsFacts.
Import Regex Diagnostics.

(** The codes of [validateI2CUsage]. *)
Definition i2c_codes : list string :=
  [ "reserved-i2c-address"; "invalid-i2c-address"; "duplicate-i2c-address";
    "missing-wire-begin" ]%string.

Lemma expected_for_one document seen m :
  length (expected_for document seen m) <= 1 /\
  Forall (fun d => In (code d) i2c_codes) (expected_for document seen m).
Proof.
  unfold expected_for. cbv zeta.
  destruct (reserved_low _); [split; [done|]; constructor; [simpl; tauto|constructor]|].
  destruct (reserved_high _); [split; [done|]; constructor; [simpl; tauto|constructor]|].
  destruct (_ <? _)%N; [split; [done|]; constructor; [simpl; tauto|constructor]|].
  destruct (bool_decide _); [split; [done|]; constructor; [simpl; tauto|constructor]|].
  split; [simpl; lia|constructor].
Qed.

Lemma expected_all_one document ms : forall seen,
  length (expected_all document seen ms) <= length ms /\
  Forall (fun d => In (code d) i2c_codes) (expected_all document seen ms).
Proof.
  induction ms as [|m ms IH]; intros seen; [split; [done|constructor]|].
  cbn [expected_all]. destruct (IH (address_of m :: seen)) as [IHl IHc].
  destruct (expected_for_one document seen m) as [Hl Hc].
  split.
  - rewrite length_app. simpl. lia.
  - apply Forall_app. by split.
Qed.

Lemma filter_none {A} (f : A -> bool) l :
  List.filter f l = [] -> List.filter (fun x => negb (f x)) l = l.
Proof.
  induction l as [|x l IH]; [done|]. simpl.
  destruct (f x); [done|]. simpl. intros H. f_equal. by apply IH.
Qed.

(** X21: [validateI2CUsage] pushes at most one address diagnostic for each
    call that the address pattern finds outside comments, at most one
    diagnostic with the code [missing-wire-begin], and no diagnostic with
    any other code than the four of the validator. *)
Theorem validateI2CUsage_one_per_call
    (this : EmbeddedDiagnosticProvider) (text : text) (document : TextDocument) :
  let ds := validateI2CUsage this text document [] in
  length (List.filter (fun d => negb (is_missing_wire_begin d)) ds)
    <= length (scanned text) /\
  length (List.filter is_missing_wire_begin ds) <= 1 /\
  Forall (fun d => In (code d) i2c_codes) ds.
Proof.
  cbv zeta. unfold validateI2CUsage. cbv zeta.
  assert (Htr : tracks ∅ []).
  { intros a _ _. split; [set_solver|]. by intros ?%elem_of_nil. }
  rewrite (address_loop_expected text document _ ∅ [] [] Htr).
  fold (scanned text). rewrite app_nil_l.
  destruct (expected_all_one document (scanned text) []) as [Hlen Hcodes].
  pose proof (expected_all_no_wire_begin document [] (scanned text)) as Hnone.
  pose proof (filter_none _ _ Hnone) as Hall.
  unfold wire_begin_check. cbv zeta.
  destruct (test wireUsePattern text && negb (test wireBeginPattern text)).
  - destruct (exec wireUsePattern text) as [wireMatch|].
    + rewrite !List.filter_app, Hnone, Hall, length_app.
      cbn [List.filter is_missing_wire_begin code String.eqb Ascii.eqb Bool.eqb negb
           length app].
      split; [lia|]. split; [done|].
      apply Forall_app. split; [done|]. constructor; [|constructor].
      cbn [code i2c_codes In]. tauto.
    + rewrite Hnone, Hall. split; [done|]. split; [simpl; lia|done].
  - rewrite Hnone, Hall. split; [done|]. split; [simpl; lia|done].
Qed.

End AddressDiagnosticsFacts.
